(** * Super-node graph rewiring of [get_data_sample.py]

    A shallow embedding of the two rewiring blocks of the exploration
    script (the single-super-node block and the several-super-nodes
    block) together with the tensor primitives they call, and the
    properties of the batch they build.

    Integer tensors are lists of [Z]; a [2 x E] edge index is a list of
    columns; float tensors hold [num] values (a float of the input, NaN,
    or a float operation applied to such values). Every operation that
    can raise in Python returns a [result]. *)

From Stdlib Require Import List ZArith QArith Bool Lia Sorted.
Import ListNotations.
Open Scope Z_scope.

(** ** Exceptions *)

(** The Python exception classes the script can raise. What class
    [torch.cat] raises on an empty list of tensors depends on the torch
    release ([RuntimeError] in the older ones, [ValueError] in the newer
    ones), so that failure has a constructor of its own and no result
    below depends on which of the two it is. *)
Inductive exn : Type :=
| ValueError
| IndexError
| RuntimeError
| EmptyCatError.

Inductive result (A : Type) : Type :=
| Ok (a : A)
| Raise (e : exn).

Arguments Ok {A} a.
Arguments Raise {A} e.

Definition bind {A B : Type} (c : result A) (k : A -> result B) : result B :=
  match c with
  | Ok a => k a
  | Raise e => Raise e
  end.

Notation "x <- c ;; k" := (bind c (fun x => k))
  (at level 61, c at next level, right associativity).

(** A list comprehension whose body can raise: the first failure wins. *)
Fixpoint mapM {A B : Type} (f : A -> result B) (l : list A) : result (list B) :=
  match l with
  | [] => Ok []
  | x :: l' => y <- f x ;; ys <- mapM f l' ;; Ok (y :: ys)
  end.

(** [range(n)] *)
Definition range (n : nat) : list nat := seq 0 n.

(** ** Float values

    The float tensors of the script hold 32-bit floats. An entry is a
    float the input holds ([Fin q], with the rational [q] it denotes),
    NaN, or the result of a float operation on entries, kept as that
    operation applied to its operands: what rounding makes of a sum, a
    product or a mean, and in which order [mean] adds up its rows, is
    decided inside torch and not in the script, so no value is computed
    for them. What is fixed is that an operation on NaN gives NaN and
    that the mean over no rows is NaN. *)

#[warnings="-register-all"]
Inductive num : Type :=
| Fin (q : Q)
| NaN
| Add (x y : num)
| Sub (x y : num)
| Mul (x y : num)
| Mean (col : list num).

Definition nadd (x y : num) : num :=
  match x, y with
  | NaN, _ | _, NaN => NaN
  | _, _ => Add x y
  end.

Definition nsub (x y : num) : num :=
  match x, y with
  | NaN, _ | _, NaN => NaN
  | _, _ => Sub x y
  end.

Definition nmul (x y : num) : num :=
  match x, y with
  | NaN, _ | _, NaN => NaN
  | _, _ => Mul x y
  end.

Definition vec3 : Type := (num * num * num)%type.

Definition vx (v : vec3) : num := fst (fst v).
Definition vy (v : vec3) : num := snd (fst v).
Definition vz (v : vec3) : num := snd v.

Definition vsub (u v : vec3) : vec3 :=
  (nsub (vx u) (vx v), nsub (vy u) (vy v), nsub (vz u) (vz v)).

Definition vnan : vec3 := (NaN, NaN, NaN).

(** ** Tensor primitives *)

Module Torch.

(** [t[k]] for a Python integer or 0-d tensor [k]: negative indices
    count from the end, anything else out of range raises. *)
Definition get {A : Type} (t : list A) (k : Z) : result A :=
  let n := Z.of_nat (length t) in
  let k' := if k <? 0 then n + k else k in
  if (0 <=? k') && (k' <? n) then
    match nth_error t (Z.to_nat k') with
    | Some a => Ok a
    | None => Raise IndexError
    end
  else Raise IndexError.

(** [t[idx]] for an integer index tensor [idx]. *)
Definition index_select {A : Type} (t : list A) (idx : list Z) : result (list A) :=
  mapM (get t) idx.

(** Rows of [t] at the true positions of [m], lengths assumed equal. *)
Fixpoint masked {A : Type} (t : list A) (m : list bool) : list A :=
  match t, m with
  | x :: t', true :: m' => x :: masked t' m'
  | _ :: t', false :: m' => masked t' m'
  | _, _ => []
  end.

(** [t[m]] for a boolean mask [m]: the shapes must agree. *)
Definition mask_select {A : Type} (t : list A) (m : list bool) : result (list A) :=
  if Nat.eqb (length t) (length m) then Ok (masked t m) else Raise IndexError.

Fixpoint where_from (k : Z) (m : list bool) : list Z :=
  match m with
  | [] => []
  | true :: m' => k :: where_from (k + 1) m'
  | false :: m' => where_from (k + 1) m'
  end.

(** [where(m)[0]]: the indices of the true entries, ascending. *)
Definition where_ (m : list bool) : list Z := where_from 0 m.

(** [t == v] and [t != v] against a scalar. *)
Definition eq_scalar (t : list Z) (v : Z) : list bool := map (fun x => x =? v) t.
Definition ne_scalar (t : list Z) (v : Z) : list bool :=
  map (fun x => negb (x =? v)) t.

Fixpoint zip_with {A B C : Type} (f : A -> B -> C) (l1 : list A) (l2 : list B)
  : list C :=
  match l1, l2 with
  | x :: l1', y :: l2' => f x y :: zip_with f l1' l2'
  | _, _ => []
  end.

(** [m1 * m2] on boolean tensors, with broadcasting of a one-element
    operand; any other shape mismatch raises. *)
Definition mask_mul (m1 m2 : list bool) : result (list bool) :=
  if Nat.eqb (length m1) (length m2) then Ok (zip_with andb m1 m2)
  else match m1, m2 with
       | [x], _ => Ok (map (andb x) m2)
       | _, [y] => Ok (map (fun x => andb x y) m1)
       | _, _ => Raise RuntimeError
       end.

(** [isin(t, test)] *)
Definition isin (t test : list Z) : list bool :=
  map (fun x => existsb (Z.eqb x) test) t.

(** [cat(ts)]: an empty list of tensors is rejected. *)
Definition cat {A : Type} (ts : list (list A)) : result (list A) :=
  match ts with
  | [] => Raise EmptyCatError
  | _ => Ok (concat ts)
  end.

(** [arange(a, b)] *)
Definition arange (a b : Z) : list Z :=
  map (fun k => a + Z.of_nat k) (seq 0 (Z.to_nat (b - a))).

(** [full((n,), v)], also [zeros(n)] and [ones(n)]: a negative size is
    rejected. *)
Definition full {A : Type} (n : Z) (v : A) : result (list A) :=
  if n <? 0 then Raise RuntimeError else Ok (repeat v (Z.to_nat n)).

Fixpoint set_nth {A : Type} (t : list A) (k : nat) (v : A) : list A :=
  match t, k with
  | [], _ => []
  | _ :: t', O => v :: t'
  | x :: t', S k' => x :: set_nth t' k' v
  end.

(** [t[k] = v] for one integer index. *)
Definition put {A : Type} (t : list A) (k : Z) (v : A) : result (list A) :=
  let n := Z.of_nat (length t) in
  let k' := if k <? 0 then n + k else k in
  if (0 <=? k') && (k' <? n) then Ok (set_nth t (Z.to_nat k') v)
  else Raise IndexError.

(** [t[idx] = v] for an integer index tensor and a scalar [v]. *)
Fixpoint index_put {A : Type} (t : list A) (idx : list Z) (v : A)
  : result (list A) :=
  match idx with
  | [] => Ok t
  | k :: idx' => t' <- put t k v ;; index_put t' idx' v
  end.

Fixpoint count_true (m : list bool) : nat :=
  match m with
  | [] => O
  | true :: m' => S (count_true m')
  | false :: m' => count_true m'
  end.

(** The true positions of [m] take the values in order. *)
Fixpoint scatter {A : Type} (t : list A) (m : list bool) (vals : list A)
  : list A :=
  match t, m with
  | x :: t', true :: m' =>
      match vals with
      | v :: vals' => v :: scatter t' m' vals'
      | [] => x :: scatter t' m' []
      end
  | x :: t', false :: m' => x :: scatter t' m' vals
  | _, _ => t
  end.

(** [t[m] = vals] for a boolean mask: the mask must have the shape of
    [t], and [vals] one value per true entry (or a single value, which
    is broadcast). *)
Definition mask_put {A : Type} (t : list A) (m : list bool) (vals : list A)
  : result (list A) :=
  if Nat.eqb (length t) (length m) then
    if Nat.eqb (length vals) (count_true m) then Ok (scatter t m vals)
    else match vals with
         | [v] => Ok (scatter t m (repeat v (count_true m)))
         | _ => Raise RuntimeError
         end
  else Raise IndexError.

(** The builtin [max] over the elements of a 1-d tensor. *)
Definition max_list (t : list Z) : result Z :=
  match t with
  | [] => Raise ValueError
  | x :: t' => Ok (fold_left Z.max t' x)
  end.

(** Sorted insertion that counts occurrences: the table behind
    [unique(..., return_counts=True)]. *)
Fixpoint count_insert (x : Z) (tbl : list (Z * Z)) : list (Z * Z) :=
  match tbl with
  | [] => [(x, 1)]
  | (y, c) :: tbl' =>
      if x <? y then (x, 1) :: tbl
      else if x =? y then (y, c + 1) :: tbl'
      else (y, c) :: count_insert x tbl'
  end.

(** [unique(t, return_counts=True)]: the distinct values in increasing
    order and how often each occurs. *)
Definition unique_counts (t : list Z) : list Z * list Z :=
  let tbl := fold_left (fun acc x => count_insert x acc) t [] in
  (map fst tbl, map snd tbl).

(** [unique(t)] *)
Definition unique (t : list Z) : list Z := fst (unique_counts t).

(** [t.mean(0)] of an [n x 3] float tensor: per column, the mean of
    its [n] entries in row order, NaN when there is no row. *)
Definition mean0 (rows : list vec3) : vec3 :=
  match rows with
  | [] => vnan
  | _ => (Mean (map vx rows), Mean (map vy rows), Mean (map vz rows))
  end.

End Torch.

(** ** The batch *)

(** [sqrt(x)], kept as the operation applied to its operand like the
    other float operations. *)
Inductive root : Type :=
| Sqrt (x : num).

(** [sqrt(((u - v) ** 2).sum(-1))] *)
Definition euclid (u v : vec3) : root :=
  let d := vsub u v in
  Sqrt (nadd (nadd (nmul (vx d) (vx d)) (nmul (vy d) (vy d)))
             (nmul (vz d) (vz d))).

(** The attributes of the batch object the script reads or writes. The
    two [sn_*] attributes exist only once the script has attached
    them. *)
Record Batch : Type := mkBatch {
  ptr : list Z;
  batch : list Z;
  natoms : list Z;
  tags : list Z;
  atomic_numbers : list Z;
  pos : list vec3;
  pos_relaxed : list vec3;
  force : list vec3;
  fixed : list num;
  edge_index : list (Z * Z);
  cell_offsets : list (Z * Z * Z);
  distances : list root;
  neighbors : list Z;
  sn_nodes_aggregates : option (list Z);
  sn_edges_aggregates : option (list Z)
}.

(** Attribute assignment [data.f = v]. *)
Definition set_ptr (v : list Z) (d : Batch) : Batch :=
  mkBatch v (batch d) (natoms d) (tags d) (atomic_numbers d) (pos d)
    (pos_relaxed d) (force d) (fixed d) (edge_index d) (cell_offsets d)
    (distances d) (neighbors d) (sn_nodes_aggregates d) (sn_edges_aggregates d).
Definition set_batch (v : list Z) (d : Batch) : Batch :=
  mkBatch (ptr d) v (natoms d) (tags d) (atomic_numbers d) (pos d)
    (pos_relaxed d) (force d) (fixed d) (edge_index d) (cell_offsets d)
    (distances d) (neighbors d) (sn_nodes_aggregates d) (sn_edges_aggregates d).
Definition set_natoms (v : list Z) (d : Batch) : Batch :=
  mkBatch (ptr d) (batch d) v (tags d) (atomic_numbers d) (pos d)
    (pos_relaxed d) (force d) (fixed d) (edge_index d) (cell_offsets d)
    (distances d) (neighbors d) (sn_nodes_aggregates d) (sn_edges_aggregates d).
Definition set_tags (v : list Z) (d : Batch) : Batch :=
  mkBatch (ptr d) (batch d) (natoms d) v (atomic_numbers d) (pos d)
    (pos_relaxed d) (force d) (fixed d) (edge_index d) (cell_offsets d)
    (distances d) (neighbors d) (sn_nodes_aggregates d) (sn_edges_aggregates d).
Definition set_atomic_numbers (v : list Z) (d : Batch) : Batch :=
  mkBatch (ptr d) (batch d) (natoms d) (tags d) v (pos d)
    (pos_relaxed d) (force d) (fixed d) (edge_index d) (cell_offsets d)
    (distances d) (neighbors d) (sn_nodes_aggregates d) (sn_edges_aggregates d).
Definition set_pos (v : list vec3) (d : Batch) : Batch :=
  mkBatch (ptr d) (batch d) (natoms d) (tags d) (atomic_numbers d) v
    (pos_relaxed d) (force d) (fixed d) (edge_index d) (cell_offsets d)
    (distances d) (neighbors d) (sn_nodes_aggregates d) (sn_edges_aggregates d).
Definition set_pos_relaxed (v : list vec3) (d : Batch) : Batch :=
  mkBatch (ptr d) (batch d) (natoms d) (tags d) (atomic_numbers d) (pos d)
    v (force d) (fixed d) (edge_index d) (cell_offsets d)
    (distances d) (neighbors d) (sn_nodes_aggregates d) (sn_edges_aggregates d).
Definition set_force (v : list vec3) (d : Batch) : Batch :=
  mkBatch (ptr d) (batch d) (natoms d) (tags d) (atomic_numbers d) (pos d)
    (pos_relaxed d) v (fixed d) (edge_index d) (cell_offsets d)
    (distances d) (neighbors d) (sn_nodes_aggregates d) (sn_edges_aggregates d).
Definition set_fixed (v : list num) (d : Batch) : Batch :=
  mkBatch (ptr d) (batch d) (natoms d) (tags d) (atomic_numbers d) (pos d)
    (pos_relaxed d) (force d) v (edge_index d) (cell_offsets d)
    (distances d) (neighbors d) (sn_nodes_aggregates d) (sn_edges_aggregates d).
Definition set_edge_index (v : list (Z * Z)) (d : Batch) : Batch :=
  mkBatch (ptr d) (batch d) (natoms d) (tags d) (atomic_numbers d) (pos d)
    (pos_relaxed d) (force d) (fixed d) v (cell_offsets d)
    (distances d) (neighbors d) (sn_nodes_aggregates d) (sn_edges_aggregates d).
Definition set_cell_offsets (v : list (Z * Z * Z)) (d : Batch) : Batch :=
  mkBatch (ptr d) (batch d) (natoms d) (tags d) (atomic_numbers d) (pos d)
    (pos_relaxed d) (force d) (fixed d) (edge_index d) v
    (distances d) (neighbors d) (sn_nodes_aggregates d) (sn_edges_aggregates d).
Definition set_distances (v : list root) (d : Batch) : Batch :=
  mkBatch (ptr d) (batch d) (natoms d) (tags d) (atomic_numbers d) (pos d)
    (pos_relaxed d) (force d) (fixed d) (edge_index d) (cell_offsets d)
    v (neighbors d) (sn_nodes_aggregates d) (sn_edges_aggregates d).
Definition set_neighbors (v : list Z) (d : Batch) : Batch :=
  mkBatch (ptr d) (batch d) (natoms d) (tags d) (atomic_numbers d) (pos d)
    (pos_relaxed d) (force d) (fixed d) (edge_index d) (cell_offsets d)
    (distances d) v (sn_nodes_aggregates d) (sn_edges_aggregates d).
Definition set_sn_nodes_aggregates (v : list Z) (d : Batch) : Batch :=
  mkBatch (ptr d) (batch d) (natoms d) (tags d) (atomic_numbers d) (pos d)
    (pos_relaxed d) (force d) (fixed d) (edge_index d) (cell_offsets d)
    (distances d) (neighbors d) (Some v) (sn_edges_aggregates d).
Definition set_sn_edges_aggregates (v : list Z) (d : Batch) : Batch :=
  mkBatch (ptr d) (batch d) (natoms d) (tags d) (atomic_numbers d) (pos d)
    (pos_relaxed d) (force d) (fixed d) (edge_index d) (cell_offsets d)
    (distances d) (neighbors d) (sn_nodes_aggregates d) (Some v).

(** ** Python list helpers *)

(** [l[i]] on a Python list. *)
Definition item {A : Type} (l : list A) (i : nat) : result A :=
  match nth_error l i with
  | Some a => Ok a
  | None => Raise IndexError
  end.

(** [enumerate(l)] *)
Definition enumerate {A : Type} (l : list A) : list (nat * A) :=
  combine (seq 0 (length l)) l.

(** [sum(l)] on Python integers. *)
Definition sum_list (l : list Z) : Z := fold_left Z.add l 0.

Definition len {A : Type} (l : list A) : Z := Z.of_nat (length l).

(** ** The single-super-node block *)

Module Single.

(** [max(b.batch).item() + 1]; every later use is [range(batch_size)]
    or comes after a [cat] over [batch_size] tensors, which rejects a
    batch size below one. *)
Definition batch_size (b : Batch) : result nat :=
  m <- Torch.max_list (batch b) ;;
  Ok (Z.to_nat (m + 1)).

(** [where((b.tags == 0) * (b.batch == i))[0]] *)
Definition sub_nodes_of (b : Batch) (i : nat) : result (list Z) :=
  m <- Torch.mask_mul (Torch.eq_scalar (tags b) 0)
                      (Torch.eq_scalar (batch b) (Z.of_nat i)) ;;
  Ok (Torch.where_ m).

(** [where((b.tags != 0) * (b.batch == i))[0]] *)
Definition non_sub_nodes_of (b : Batch) (i : nat) : result (list Z) :=
  m <- Torch.mask_mul (Torch.ne_scalar (tags b) 0)
                      (Torch.eq_scalar (batch b) (Z.of_nat i)) ;;
  Ok (Torch.where_ m).

(** [[sum([len(nsn) for nsn in non_sub_nodes[: i + 1]]) + i
      for i in range(batch_size)]] *)
Definition new_sn_ids (non_sub_nodes : list (list Z)) (bs : nat) : list Z :=
  map (fun i => sum_list (map (@len Z) (firstn (S i) non_sub_nodes)) + Z.of_nat i)
      (range bs).

(** [tensor([0] + [nsi + 1 for nsi in new_sn_ids])] *)
Definition new_ptr (sn_ids : list Z) : list Z :=
  0 :: map (fun nsi => nsi + 1) sn_ids.

(** [t[1:] - t[:-1]] *)
Definition diffs (t : list Z) : list Z :=
  Torch.zip_with Z.sub (tl t) (removelast t).

(** [[src[sub_nodes[i]].mean(0) for i in range(batch_size)]] *)
Definition sn_mean (bs : nat) (src : list vec3) (sub_nodes : list (list Z))
  : result (list vec3) :=
  mapM (fun i =>
          s <- item sub_nodes i ;;
          rows <- Torch.index_select src s ;;
          Ok (Torch.mean0 rows))
       (range bs).

(** [cat([cat([src[non_sub_nodes[i]], extra(i)]) for i in range(batch_size)])]:
    the kept rows of every graph followed by one row for its super
    node. *)
Definition compact {A : Type} (bs : nat) (src : list A)
    (non_sub_nodes : list (list Z)) (extra : nat -> result A)
  : result (list A) :=
  blocks <- mapM (fun i =>
                    ns <- item non_sub_nodes i ;;
                    rows <- Torch.index_select src ns ;;
                    x <- extra i ;;
                    Ok (rows ++ [x]))
                 (range bs) ;;
  Torch.cat blocks.

(** [(b.ptr[i] <= b.edge_index[0]) * (b.edge_index[0] < b.ptr[i + 1])] *)
Definition ei_batch_ids_of (b : Batch) (i : nat) : result (list bool) :=
  lo <- Torch.get (ptr b) (Z.of_nat i) ;;
  hi <- Torch.get (ptr b) (Z.of_nat i + 1) ;;
  Torch.mask_mul (map (fun s => lo <=? s) (map fst (edge_index b)))
                 (map (fun s => s <? hi) (map fst (edge_index b))).

(** [[src[ei_batch_ids[i]] for i in range(batch_size)]] *)
Definition per_batch {A : Type} (bs : nat) (src : list A)
    (ei_batch_ids : list (list bool)) : result (list (list A)) :=
  mapM (fun i => m <- item ei_batch_ids i ;; Torch.mask_select src m) (range bs).

(** [[isin(row[ei_batch_ids[i]], ns) for i, ns in enumerate(non_sub_nodes)]] *)
Definition is_not_sub (row : list Z) (ei_batch_ids : list (list bool))
    (non_sub_nodes : list (list Z)) : result (list (list bool)) :=
  mapM (fun ins =>
          m <- item ei_batch_ids (fst ins) ;;
          r <- Torch.mask_select row m ;;
          Ok (Torch.isin r (snd ins)))
       (enumerate non_sub_nodes).

(** [[~s & ~t for s, t in zip(src_is_not_sub, target_is_not_sub)]] *)
Definition both_sub (src_is_not_sub target_is_not_sub : list (list bool))
  : result (list (list bool)) :=
  mapM (fun st => Torch.mask_mul (map negb (fst st)) (map negb (snd st)))
       (combine src_is_not_sub target_is_not_sub).

(** [tensor([len(n) - n.sum() for n in not_both_are_sub])] *)
Definition edges_aggregates (not_both_are_sub : list (list bool)) : list Z :=
  map (fun n => len n - Z.of_nat (Torch.count_true n)) not_both_are_sub.

(** [cat([cat([co_batch[i][not_both_are_sub[i]], tensor([[0, 0, 0]])])
         for i in range(batch_size)])] *)
Definition kept_offsets (bs : nat) (co_batch : list (list (Z * Z * Z)))
    (not_both_are_sub : list (list bool)) : result (list (Z * Z * Z)) :=
  blocks <- mapM (fun i =>
                    co <- item co_batch i ;;
                    n <- item not_both_are_sub i ;;
                    rows <- Torch.mask_select co n ;;
                    Ok (rows ++ [(0, 0, 0)]))
                 (range bs) ;;
  Torch.cat blocks.

(** [cat([arange(data.ptr[e], data.ptr[e + 1] - 1)
         for e in range(batch_size)])] *)
Definition new_ids (bs : nat) (data_ptr : list Z) : result (list Z) :=
  rs <- mapM (fun e =>
                lo <- Torch.get data_ptr (Z.of_nat e) ;;
                hi <- Torch.get data_ptr (Z.of_nat e + 1) ;;
                Ok (Torch.arange lo (hi - 1)))
             (range bs) ;;
  Torch.cat rs.

(** [assoc[ei]] on the two rows of an edge index. *)
Definition reindex (assoc : list Z) (ei : list (Z * Z)) : result (list (Z * Z)) :=
  mapM (fun st =>
          s <- Torch.get assoc (fst st) ;;
          t <- Torch.get assoc (snd st) ;;
          Ok (s, t))
       ei.

(** [sqrt(((p[ei[0, :]] - p[ei[1, :]]) ** 2).sum(-1))] *)
Definition edge_lengths (p : list vec3) (ei : list (Z * Z)) : result (list root) :=
  ps <- Torch.index_select p (map fst ei) ;;
  pt <- Torch.index_select p (map snd ei) ;;
  Ok (Torch.zip_with euclid ps pt).

(** The loop that fills the new batch vector:
    [for i, p in enumerate(data.ptr[:-1]):
         data.batch[arange(p, data.ptr[i + 1])] = tensor(i)] *)
Fixpoint fill_batch (data_ptr : list Z) (todo : list (nat * Z)) (acc : list Z)
  : result (list Z) :=
  match todo with
  | [] => Ok acc
  | (i, p) :: todo' =>
      hi <- Torch.get data_ptr (Z.of_nat i + 1) ;;
      acc' <- Torch.index_put acc (Torch.arange p hi) (Z.of_nat i) ;;
      fill_batch data_ptr todo' acc'
  end.

(** Lines 121 to 336 of the script, without the timers and prints:
    [b] is only read, [data] starts as its deep copy and is assigned
    attribute by attribute. *)
Definition one_supernode_block (b : Batch) : result Batch :=
  let data := b in
  bs <- batch_size b ;;
  sub_nodes <- mapM (sub_nodes_of b) (range bs) ;;
  non_sub_nodes <- mapM (non_sub_nodes_of b) (range bs) ;;
  let sn_ids := new_sn_ids non_sub_nodes bs in
  let data := set_ptr (new_ptr sn_ids) data in
  let data := set_natoms (diffs (ptr data)) data in
  let data := set_sn_nodes_aggregates (map (@len Z) sub_nodes) data in
  sn_pos <- sn_mean bs (pos b) sub_nodes ;;
  sn_pos_relaxed <- sn_mean bs (pos_relaxed b) sub_nodes ;;
  sn_force <- sn_mean bs (force b) sub_nodes ;;
  v <- compact bs (atomic_numbers b) non_sub_nodes (fun _ => Ok 84) ;;
  let data := set_atomic_numbers v data in
  v <- compact bs (pos b) non_sub_nodes (item sn_pos) ;;
  let data := set_pos v data in
  v <- compact bs (pos_relaxed b) non_sub_nodes (item sn_pos_relaxed) ;;
  let data := set_pos_relaxed v data in
  v <- compact bs (force b) non_sub_nodes (item sn_force) ;;
  let data := set_force v data in
  v <- compact bs (fixed b) non_sub_nodes (fun _ => Ok (Fin 1)) ;;
  let data := set_fixed v data in
  v <- compact bs (tags b) non_sub_nodes (fun _ => Ok 0) ;;
  let data := set_tags v data in
  ei_batch_ids <- mapM (ei_batch_ids_of b) (range bs) ;;
  ei_batch <- per_batch bs (edge_index b) ei_batch_ids ;;
  co_batch <- per_batch bs (cell_offsets b) ei_batch_ids ;;
  src_is_not_sub <- is_not_sub (map fst (edge_index b)) ei_batch_ids non_sub_nodes ;;
  target_is_not_sub <- is_not_sub (map snd (edge_index b)) ei_batch_ids non_sub_nodes ;;
  both_are_sub <- both_sub src_is_not_sub target_is_not_sub ;;
  let not_both_are_sub := map (map negb) both_are_sub in
  let data := set_sn_edges_aggregates (edges_aggregates not_both_are_sub) data in
  v <- kept_offsets bs co_batch not_both_are_sub ;;
  let data := set_cell_offsets v data in
  all_not_both_are_sub <- Torch.cat not_both_are_sub ;;
  all_non_sub_nodes <- Torch.cat non_sub_nodes ;;
  all_sub_nodes <- Torch.cat sub_nodes ;;
  ei_not_both <- Torch.mask_select (edge_index b) all_not_both_are_sub ;;
  last <- Torch.get (ptr b) (-1) ;;
  let num_nodes := last + Z.of_nat bs in
  mask <- Torch.full num_nodes false ;;
  mask <- Torch.index_put mask all_non_sub_nodes true ;;
  assoc <- Torch.full num_nodes (-1) ;;
  vals <- new_ids bs (ptr data) ;;
  assoc <- Torch.mask_put assoc mask vals ;;
  ei_sn <- reindex assoc ei_not_both ;;
  distance <- edge_lengths (pos data) ei_sn ;;
  let data := set_edge_index ei_sn data in
  let data := set_distances distance data in
  src_batch <- Torch.index_select (batch data) (map fst (edge_index data)) ;;
  let data := set_neighbors (snd (Torch.unique_counts src_batch)) data in
  last <- Torch.get (ptr data) (-1) ;;
  z <- Torch.full last 0 ;;
  let data := set_batch z data in
  v <- fill_batch (ptr data) (enumerate (removelast (ptr data))) (batch data) ;;
  Ok (set_batch v data).

End Single.

(** ** The several-super-nodes block *)

Module Several.

(** What the block leaves in its local variables. *)
Record Locals : Type := mkLocals {
  atom_types : list (list Z);
  supernodes_composition : list (list (list Z));
  sn_idxes : list (list Z);
  supernodes_pos : list vec3;
  clean_new_edge_index : list (list (Z * Z));
  concat_reindexed_clean_edge_index : list (Z * Z);
  distance : list root
}.

(** [torch.unique(b.atomic_numbers[(b.tags == 0) * (b.batch == i)])] *)
Definition atom_types_of (b : Batch) (i : nat) : result (list Z) :=
  m <- Torch.mask_mul (Torch.eq_scalar (tags b) 0)
                      (Torch.eq_scalar (batch b) (Z.of_nat i)) ;;
  an <- Torch.mask_select (atomic_numbers b) m ;;
  Ok (Torch.unique an).

(** [where((b.atomic_numbers == an) * (b.tags == 0) * (b.batch == i))[0]] *)
Definition members_of (b : Batch) (i : nat) (an : Z) : result (list Z) :=
  m <- Torch.mask_mul (Torch.eq_scalar (atomic_numbers b) an)
                      (Torch.eq_scalar (tags b) 0) ;;
  m <- Torch.mask_mul m (Torch.eq_scalar (batch b) (Z.of_nat i)) ;;
  Ok (Torch.where_ m).

(** [[members ... for an in atom_types[i]] for i in range(batch_size)] *)
Definition composition (b : Batch) (bs : nat) (types : list (list Z))
  : result (list (list (list Z))) :=
  mapM (fun i => ts <- item types i ;; mapM (members_of b i) ts) (range bs).

(** [[[b.ptr[1:][i] + sn for sn in range(num_supernodes[i])]
      for i in range(len(num_supernodes))]] *)
Definition supernode_indexes (b : Batch) (num_supernodes : list nat)
  : result (list (list Z)) :=
  mapM (fun i =>
          n <- item num_supernodes i ;;
          mapM (fun sn => p <- Torch.get (tl (ptr b)) (Z.of_nat i) ;;
                          Ok (p + Z.of_nat sn))
               (range n))
       (range (length num_supernodes)).

(** [[b.pos[sn, :][0] for sublist in supernodes_composition
      for sn in sublist]] *)
Definition first_positions (b : Batch) (comp : list (list (list Z)))
  : result (list vec3) :=
  mapM (fun sn => rows <- Torch.index_select (pos b) sn ;; Torch.get rows 0)
       (concat comp).

(** [torch.where(torch.isin(ei, sc), v, ei)] on both rows. *)
Definition substitute (sc : list Z) (v : Z) (ei : list (Z * Z)) : list (Z * Z) :=
  map (fun st => (if existsb (Z.eqb (fst st)) sc then v else fst st,
                  if existsb (Z.eqb (snd st)) sc then v else snd st))
      ei.

(** The inner loop [for j, sc in enumerate(supernodes_composition[i])]. *)
Fixpoint substitute_all (idx : list Z) (todo : list (nat * list Z))
    (ei : list (Z * Z)) : result (list (Z * Z)) :=
  match todo with
  | [] => Ok ei
  | (j, sc) :: todo' =>
      v <- item idx j ;;
      substitute_all idx todo' (substitute sc v ei)
  end.

(** [remove_self_loops(adj)[0]] *)
Definition remove_self_loops (ei : list (Z * Z)) : list (Z * Z) :=
  filter (fun st => negb (fst st =? snd st)) ei.

Definition col_ltb (c d : Z * Z) : bool :=
  (fst c <? fst d) || ((fst c =? fst d) && (snd c <? snd d)).

Definition col_eqb (c d : Z * Z) : bool :=
  (fst c =? fst d) && (snd c =? snd d).

Fixpoint col_insert (c : Z * Z) (l : list (Z * Z)) : list (Z * Z) :=
  match l with
  | [] => [c]
  | d :: l' =>
      if col_ltb c d then c :: l
      else if col_eqb c d then l
      else d :: col_insert c l'
  end.

(** [torch.unique(ei, dim=1)]: the distinct columns in lexicographic
    order. *)
Definition unique_columns (ei : list (Z * Z)) : list (Z * Z) :=
  fold_left (fun acc c => col_insert c acc) ei [].

(** [mask[:p] = torch.zeros(p)] *)
Definition zero_prefix (mask : list bool) (p : Z) : result (list bool) :=
  z <- Torch.full p false ;;
  let n := Nat.min (length z) (length mask) in
  if Nat.eqb n (length z) then Ok (repeat false n ++ skipn n mask)
  else match z with
       | [_] => Ok mask
       | _ => Raise RuntimeError
       end.

(** The loop that re-indexes the edges of one graph after the other,
    carrying [max_num_nodes]. *)
Fixpoint reindex_loop (data_ptr : list Z) (sub_nodes : list (list Z))
    (num_supernodes : list nat) (clean : list (list (Z * Z)))
    (todo : list nat) (max_num_nodes : Z) : result (list (list (Z * Z))) :=
  match todo with
  | [] => Ok []
  | i :: todo' =>
      hi <- Torch.get data_ptr (Z.of_nat i + 1) ;;
      n <- item num_supernodes i ;;
      mask <- Torch.full (hi + Z.of_nat n) true ;;
      s <- item sub_nodes i ;;
      mask <- Torch.index_put mask s false ;;
      lo <- Torch.get data_ptr (Z.of_nat i) ;;
      mask <- zero_prefix mask lo ;;
      assoc <- Torch.full (len mask) (-1) ;;
      assoc <- Torch.mask_put assoc mask
                 (Torch.arange max_num_nodes
                    (max_num_nodes + Z.of_nat (Torch.count_true mask))) ;;
      top <- Torch.max_list assoc ;;
      c <- item clean i ;;
      r <- Single.reindex assoc c ;;
      rest <- reindex_loop data_ptr sub_nodes num_supernodes clean todo' (top + 1) ;;
      Ok (r :: rest)
  end.

(** Lines 358 to 399: the partition of the sub-surface atoms by atomic
    number and the position given to each super node. *)
Definition supernodes (b : Batch) (bs : nat)
  : result (list (list Z) * list (list (list Z)) * list (list Z) * list vec3) :=
  types <- mapM (atom_types_of b) (range bs) ;;
  let num_supernodes := map (@length Z) types in
  comp <- composition b bs types ;;
  idx <- supernode_indexes b num_supernodes ;;
  sn_pos <- first_positions b comp ;;
  Ok (types, comp, idx, sn_pos).

(** Lines 358 to 452 of the script. *)
Definition several_supernodes_block (b : Batch) : result Locals :=
  let data := b in
  bs <- Single.batch_size b ;;
  sub_nodes <- mapM (Single.sub_nodes_of b) (range bs) ;;
  non_sub_nodes <- mapM (Single.non_sub_nodes_of b) (range bs) ;;
  sn <- supernodes b bs ;;
  let types := fst (fst (fst sn)) in
  let comp := snd (fst (fst sn)) in
  let idx := snd (fst sn) in
  let sn_pos := snd sn in
  let num_supernodes := map (@length Z) types in
  ei_batch_ids <- mapM (Single.ei_batch_ids_of b) (range bs) ;;
  ei_batch <- Single.per_batch bs (edge_index b) ei_batch_ids ;;
  ei_batch <- mapM (fun i =>
                      ei <- item ei_batch i ;;
                      c <- item comp i ;;
                      ix <- item idx i ;;
                      substitute_all ix (enumerate c) ei)
                   (range bs) ;;
  let clean := map (fun adj => unique_columns (remove_self_loops adj)) ei_batch in
  reindexed <- reindex_loop (ptr data) sub_nodes num_supernodes clean (range bs) 0 ;;
  all <- Torch.cat reindexed ;;
  d <- Single.edge_lengths (pos data) all ;;
  Ok (mkLocals types comp idx sn_pos clean all d).

End Several.

(** ** The tag statistics

    Lines 454 to 463: a dictionary with the keys 0, 1 and 2, each
    holding a list that grows by one count per batch object the loader
    yields. The dictionary is an association list in insertion order. *)

(** [(b.tags == t).sum().item()] *)
Definition tag_count (b : Batch) (t : Z) : Z :=
  Z.of_nat (Torch.count_true (Torch.eq_scalar (tags b) t)).

(** [for t in tags: tags[t].append((b.tags == t).sum().item())] *)
Definition record_tags (table : list (Z * list Z)) (b : Batch)
  : list (Z * list Z) :=
  map (fun kv => (fst kv, snd kv ++ [tag_count b (fst kv)])) table.

(** [for batch in loader: for b in batch: ...] from the empty lists. *)
Definition tag_table (loader : list (list Batch)) : list (Z * list Z) :=
  fold_left (fun table batch => fold_left record_tags batch table) loader
    [(0, []); (1, []); (2, [])].

(** ** Vocabulary of the properties *)

(** Atom [j] of the batch is a sub-surface atom of graph [i]. *)
Definition is_sub (b : Batch) (i : nat) (j : nat) : Prop :=
  nth_error (tags b) j = Some 0 /\ nth_error (batch b) j = Some (Z.of_nat i).

(** Atom [j] is a sub-surface atom of graph [i] with atomic number [an]. *)
Definition is_member (b : Batch) (i : nat) (an : Z) (j : nat) : Prop :=
  nth_error (atomic_numbers b) j = Some an /\ is_sub b i j.

Definition sub_flag (i : nat) (tb : Z * Z) : bool :=
  (fst tb =? 0) && (snd tb =? Z.of_nat i).

Definition non_sub_flag (i : nat) (tb : Z * Z) : bool :=
  negb (fst tb =? 0) && (snd tb =? Z.of_nat i).

(** The rows of a per-atom array that belong to the sub-surface atoms
    of graph [i], in atom order. *)
Definition sub_rows {A : Type} (b : Batch) (i : nat) (arr : list A) : list A :=
  map snd (filter (fun r => sub_flag i (fst r))
                  (combine (combine (tags b) (batch b)) arr)).

(** The number of sub-surface atoms, and of the other atoms, of graph [i]. *)
Definition sub_count (b : Batch) (i : nat) : nat :=
  length (filter (sub_flag i) (combine (tags b) (batch b))).

Definition non_sub_count (b : Batch) (i : nat) : nat :=
  length (filter (non_sub_flag i) (combine (tags b) (batch b))).

(** The float mean of every column of a list of rows, the rows taken
    in the order given. *)
Definition column_means (rows : list vec3) : vec3 :=
  (Mean (map vx rows), Mean (map vy rows), Mean (map vz rows)).

(** The per-atom arrays the blocks combine have one entry per atom. *)
Definition aligned (b : Batch) : Prop :=
  length (tags b) = length (batch b) /\
  length (atomic_numbers b) = length (batch b).

(** ** Worked batches *)

Definition p3 (x y z : Z) : vec3 :=
  (Fin (inject_Z x), Fin (inject_Z y), Fin (inject_Z z)).

(** Two graphs: five atoms tagged [0,0,1,1,2] with the edge [(0,2)],
    then three atoms tagged [0,1,2] with the edge between its first two
    atoms, stored with batch-wide indices as [(5,6)]. *)
Definition scenario : Batch :=
  {| ptr := [0; 5; 8];
     batch := [0; 0; 0; 0; 0; 1; 1; 1];
     natoms := [5; 3];
     tags := [0; 0; 1; 1; 2; 0; 1; 2];
     atomic_numbers := [29; 29; 29; 29; 1; 78; 78; 8];
     pos := [p3 0 0 0; p3 2 0 0; p3 0 0 2; p3 2 0 2; p3 1 0 4;
             p3 10 0 0; p3 10 0 2; p3 10 0 4];
     pos_relaxed := [p3 0 0 0; p3 2 0 0; p3 0 0 2; p3 2 0 2; p3 1 0 3;
                     p3 10 0 0; p3 10 0 2; p3 10 0 3];
     force := [p3 0 0 0; p3 0 0 0; p3 1 0 0; p3 0 1 0; p3 0 0 1;
               p3 0 0 0; p3 0 0 1; p3 0 0 2];
     fixed := [Fin 1; Fin 1; Fin 0; Fin 0; Fin 0; Fin 1; Fin 0; Fin 0];
     edge_index := [(0, 2); (5, 6)];
     cell_offsets := [(0, 0, 0); (0, 1, 0)];
     distances := [Sqrt (Fin 4); Sqrt (Fin 4)];
     neighbors := [1; 1];
     sn_nodes_aggregates := None;
     sn_edges_aggregates := None |}.

(** The same two graphs when the edge of the second graph is stored
    with the indices [(0,1)] as they are written, which are atoms of the
    first graph. *)
Definition scenario_literal : Batch :=
  set_edge_index [(0, 2); (0, 1)] scenario.

(** Two graphs with edges between surface atoms only: tags
    [0,0,0,1,1] with the edge [(3,4)] and tags [0,1,1] with the edge
    [(6,7)]. *)
Definition surface_edges : Batch :=
  {| ptr := [0; 5; 8];
     batch := [0; 0; 0; 0; 0; 1; 1; 1];
     natoms := [5; 3];
     tags := [0; 0; 0; 1; 1; 0; 1; 1];
     atomic_numbers := [29; 29; 29; 29; 1; 78; 78; 8];
     pos := [p3 0 0 0; p3 2 0 0; p3 0 0 2; p3 2 0 2; p3 1 0 4;
             p3 10 0 0; p3 10 0 2; p3 10 0 4];
     pos_relaxed := [p3 0 0 0; p3 2 0 0; p3 0 0 2; p3 2 0 2; p3 1 0 3;
                     p3 10 0 0; p3 10 0 2; p3 10 0 3];
     force := [p3 0 0 0; p3 0 0 0; p3 1 0 0; p3 0 1 0; p3 0 0 1;
               p3 0 0 0; p3 0 0 1; p3 0 0 2];
     fixed := [Fin 1; Fin 1; Fin 1; Fin 0; Fin 0; Fin 1; Fin 0; Fin 0];
     edge_index := [(3, 4); (6, 7)];
     cell_offsets := [(0, 0, 0); (0, 1, 0)];
     distances := [Sqrt (Fin 5); Sqrt (Fin 4)];
     neighbors := [1; 1];
     sn_nodes_aggregates := None;
     sn_edges_aggregates := None |}.

(** Two graphs, the first without any sub-surface atom: tags [1,2]
    with the edge [(0,1)], then tags [0,0,1]. *)
Definition no_sub_graph : Batch :=
  {| ptr := [0; 2; 5];
     batch := [0; 0; 1; 1; 1];
     natoms := [2; 3];
     tags := [1; 2; 0; 0; 1];
     atomic_numbers := [29; 1; 78; 78; 78];
     pos := [p3 0 0 2; p3 0 0 4; p3 10 0 0; p3 12 0 0; p3 10 0 2];
     pos_relaxed := [p3 0 0 2; p3 0 0 3; p3 10 0 0; p3 12 0 0; p3 10 0 2];
     force := [p3 0 0 1; p3 0 0 2; p3 0 0 0; p3 0 0 0; p3 1 0 0];
     fixed := [Fin 0; Fin 0; Fin 1; Fin 1; Fin 0];
     edge_index := [(0, 1)];
     cell_offsets := [(0, 0, 0)];
     distances := [Sqrt (Fin 4)];
     neighbors := [1; 0];
     sn_nodes_aggregates := None;
     sn_edges_aggregates := None |}.

(** ** More vocabulary *)

(** The number of edges of [d] whose source lies in the node range
    [[ptr[i], ptr[i+1])] of graph [i]. *)
Definition edges_from (d : Batch) (i : nat) : nat :=
  match nth_error (ptr d) i, nth_error (ptr d) (S i) with
  | Some lo, Some hi =>
      length (filter (fun e => (lo <=? fst e) && (fst e <? hi)) (edge_index d))
  | _, _ => O
  end.

(** The masks behind [sub_nodes] and [non_sub_nodes]. *)
Definition sub_mask (b : Batch) (i : nat) : list bool :=
  Torch.zip_with andb (Torch.eq_scalar (tags b) 0)
    (Torch.eq_scalar (batch b) (Z.of_nat i)).

Definition non_sub_mask (b : Batch) (i : nat) : list bool :=
  Torch.zip_with andb (Torch.ne_scalar (tags b) 0)
    (Torch.eq_scalar (batch b) (Z.of_nat i)).

(** Entry [i] of the pointer array of the input. *)
Definition pt (b : Batch) (i : nat) : Z := nth i (ptr b) 0.

(** The mask of the edges whose source lies in the range of graph [i]. *)
Definition ids (b : Batch) (i : nat) : list bool :=
  map (fun s => (pt b i <=? s) && (s <? pt b (S i))) (map fst (edge_index b)).

(** A batch as the data loader delivers it, with [bs] graphs: every
    per-atom array has one entry per atom, the pointer array cuts the
    atoms into [bs] consecutive ranges, every edge joins atoms of the
    batch and has an offset row, and every graph has a sub-surface
    atom. *)
Definition well_formed (b : Batch) (bs : nat) : Prop :=
  Single.batch_size b = Ok bs /\
  (forall x, In x (batch b) -> 0 <= x) /\
  aligned b /\
  length (pos b) = length (batch b) /\
  length (pos_relaxed b) = length (batch b) /\
  length (force b) = length (batch b) /\
  length (fixed b) = length (batch b) /\
  length (ptr b) = S bs /\
  nth_error (ptr b) 0 = Some 0 /\
  nth_error (ptr b) bs = Some (len (batch b)) /\
  (forall i p q, nth_error (ptr b) i = Some p ->
                 nth_error (ptr b) (S i) = Some q -> p <= q) /\
  length (cell_offsets b) = length (edge_index b) /\
  (forall s t, In (s, t) (edge_index b) ->
               0 <= s < len (batch b) /\ 0 <= t < len (batch b)) /\
  (forall i, (i < bs)%nat -> (0 < sub_count b i)%nat).

(** What the re-indexing makes of an atom [x] of the input: a
    sub-surface atom becomes the sentinel [-1], and the [k]-th kept atom
    of graph [i] becomes the node [ptr[i] + k] of the new batch. *)
Definition relabelled (b data : Batch) (x x' : Z) : Prop :=
  (nth_error (tags b) (Z.to_nat x) = Some 0 /\ x' = -1) \/
  (exists i k ns p,
     Single.non_sub_nodes_of b i = Ok ns /\
     nth_error ns k = Some x /\
     nth_error (ptr data) i = Some p /\
     x' = p + Z.of_nat k).

(** The lexicographic order on the columns of an edge index. *)
Definition col_lt (c d : Z * Z) : Prop :=
  fst c < fst d \/ (fst c = fst d /\ snd c < snd d).

(** The graph number the batch vector gives to atom [x]. *)
Definition graph_of (b : Batch) (x : Z) : Z := nth (Z.to_nat x) (batch b) 0.

(** Atom [x] is a sub-surface atom. *)
Definition tag0 (b : Batch) (x : Z) : bool :=
  match nth_error (tags b) (Z.to_nat x) with
  | Some t => t =? 0
  | None => false
  end.

(** An edge with at least one endpoint that is not a sub-surface atom. *)
Definition survives (b : Batch) (e : Z * Z) : bool :=
  negb (tag0 b (fst e) && tag0 b (snd e)).

(** A batch laid out graph after graph: the batch vector is aligned
    with the tags, not negative and non-decreasing, the pointer array
    has one entry more than there are graphs and its ranges are the
    graphs of the batch vector, every edge joins two atoms of one
    graph, and the edges are listed graph after graph. *)
Definition graphwise (b : Batch) (bs : nat) : Prop :=
  length (tags b) = length (batch b) /\
  (forall x, In x (batch b) -> 0 <= x) /\
  StronglySorted Z.le (batch b) /\
  length (ptr b) = S bs /\
  (forall i j, (i < bs)%nat -> (j < length (batch b))%nat ->
     (nth_error (batch b) j = Some (Z.of_nat i) <->
      pt b i <= Z.of_nat j < pt b (S i))) /\
  (forall s t, In (s, t) (edge_index b) ->
     0 <= s < len (batch b) /\ 0 <= t < len (batch b) /\
     graph_of b s = graph_of b t) /\
  StronglySorted Z.le (map (fun e => graph_of b (fst e)) (edge_index b)).

(** [x] is an endpoint of an edge of [ei]. *)
Definition endpoint (x : Z) (ei : list (Z * Z)) : Prop :=
  exists s t, In (s, t) ei /\ (x = s \/ x = t).

(** The flag [~(~s & ~t)] the block computes for an edge of graph [i]:
    one of its endpoints is among the kept atoms of the graph. *)
Definition kept_flag (b : Batch) (i : nat) (e : Z * Z) : bool :=
  existsb (Z.eqb (fst e)) (Torch.where_ (non_sub_mask b i))
  || existsb (Z.eqb (snd e)) (Torch.where_ (non_sub_mask b i)).

(** ** Outputs of the blocks on the worked batches *)

(** What the single-super-node block builds from [scenario]. *)
Definition scenario_out : Batch :=
  Eval vm_compute in
    match Single.one_supernode_block scenario with
    | Ok d => d
    | Raise _ => scenario
    end.

(** What the single-super-node block builds from [no_sub_graph]. *)
Definition no_sub_graph_out : Batch :=
  Eval vm_compute in
    match Single.one_supernode_block no_sub_graph with
    | Ok d => d
    | Raise _ => no_sub_graph
    end.

(** What the single-super-node block builds from [surface_edges]. *)
Definition surface_edges_out : Batch :=
  Eval vm_compute in
    match Single.one_supernode_block surface_edges with
    | Ok d => d
    | Raise _ => surface_edges
    end.

(** What the several-super-nodes block builds from [scenario]. *)
Definition scenario_several : option Several.Locals :=
  Eval vm_compute in
    match Several.several_supernodes_block scenario with
    | Ok l => Some l
    | Raise _ => None
    end.

(** The local variables the several-super-nodes block ends with on
    [scenario]. *)
Definition scenario_locals : Several.Locals :=
  Eval vm_compute in
    match Several.several_supernodes_block scenario with
    | Ok l => l
    | Raise _ => Several.mkLocals [] [] [] [] [] [] []
    end.

(** What lines 358 to 399 compute on [scenario]. *)
Definition scenario_supernodes
  : list (list Z) * list (list (list Z)) * list (list Z) * list vec3 :=
  ([[29]; [78]], [[[0; 1]]; [[5]]], [[5]; [8]], [p3 0 0 0; p3 10 0 0]).

(** ** Basic facts: the error monad and list comprehensions *)

Lemma bind_Ok {A B : Type} (c : result A) (k : A -> result B) (r : B) :
  bind c k = Ok r -> exists a, c = Ok a /\ k a = Ok r.
Proof.
  destruct c as [a | e]; simpl; intro H.
  - exists a. split; [reflexivity | exact H].
  - discriminate H.
Qed.

(** Splits the first bind of a successful computation. *)
Ltac bind_step H :=
  match type of H with
  | bind ?c _ = Ok _ =>
      let a := fresh "v" in
      let E := fresh "E" in
      let H' := fresh "H" in
      apply bind_Ok in H; destruct H as (a & E & H'); rename H' into H;
      cbv beta zeta in H
  end.

Ltac bind_steps H := repeat bind_step H.

Lemma item_Ok {A : Type} (l : list A) (i : nat) (a : A) :
  item l i = Ok a <-> nth_error l i = Some a.
Proof.
  unfold item. destruct (nth_error l i); split; intro H;
    inversion H; reflexivity.
Qed.

Lemma mapM_length {A B : Type} (f : A -> result B) (l : list A) (r : list B) :
  mapM f l = Ok r -> length r = length l.
Proof.
  revert r. induction l as [| x l IH]; simpl; intros r H.
  - inversion H. reflexivity.
  - bind_steps H. inversion H. simpl. f_equal. apply IH. assumption.
Qed.

Lemma mapM_nth {A B : Type} (f : A -> result B) (l : list A) (r : list B) :
  mapM f l = Ok r ->
  forall i x, nth_error l i = Some x ->
  exists y, nth_error r i = Some y /\ f x = Ok y.
Proof.
  revert r. induction l as [| x0 l IH]; simpl; intros r H i x Hi.
  - destruct i; discriminate Hi.
  - bind_steps H. inversion H; subst r. destruct i as [| i]; simpl in *.
    + inversion Hi; subst x0. eauto.
    + eapply IH; eauto.
Qed.

Lemma mapM_nth_inv {A B : Type} (f : A -> result B) (l : list A) (r : list B) :
  mapM f l = Ok r ->
  forall i y, nth_error r i = Some y ->
  exists x, nth_error l i = Some x /\ f x = Ok y.
Proof.
  revert r. induction l as [| x0 l IH]; simpl; intros r H i y Hi.
  - inversion H; subst r. destruct i; discriminate Hi.
  - bind_steps H. inversion H; subst r. destruct i as [| i]; simpl in *.
    + inversion Hi; subst y. eauto.
    + eapply IH; eauto.
Qed.

Lemma mapM_In {A B : Type} (f : A -> result B) (l : list A) (r : list B) :
  mapM f l = Ok r ->
  forall y, In y r -> exists x, In x l /\ f x = Ok y.
Proof.
  intros H y Hy. apply In_nth_error in Hy. destruct Hy as (i & Hi).
  destruct (mapM_nth_inv _ _ _ H _ _ Hi) as (x & Hx & Hf).
  exists x. split; [eapply nth_error_In; eassumption | assumption].
Qed.

Lemma mapM_ext {A B : Type} (f g : A -> result B) (l : list A) :
  (forall x, In x l -> f x = g x) -> mapM f l = mapM g l.
Proof.
  induction l as [| x l IH]; simpl; intro H.
  - reflexivity.
  - rewrite (H x (or_introl eq_refl)), IH by auto. reflexivity.
Qed.

Lemma range_nth (n i : nat) : (i < n)%nat -> nth_error (range n) i = Some i.
Proof.
  intro H. unfold range. rewrite nth_error_seq.
  destruct (Nat.ltb_spec i n); [reflexivity | lia].
Qed.

Lemma range_nth_inv (n i k : nat) :
  nth_error (range n) i = Some k -> k = i /\ (i < n)%nat.
Proof.
  unfold range. rewrite nth_error_seq.
  destruct (Nat.ltb_spec i n) as [Hlt | Hge]; intro Hk; inversion Hk.
  split; [reflexivity | lia].
Qed.

(** A comprehension over [range(n)] has [n] entries and its [i]-th
    entry is the body at [i]. *)
Lemma mapM_range {B : Type} (f : nat -> result B) (n : nat) (r : list B) :
  mapM f (range n) = Ok r ->
  length r = n /\
  forall i, (i < n)%nat -> exists y, nth_error r i = Some y /\ f i = Ok y.
Proof.
  intro H. split.
  - rewrite (mapM_length _ _ _ H). apply length_seq.
  - intros i Hi. eapply mapM_nth; eauto using range_nth.
Qed.

(** ** Masks, [where] and the node partition *)

Lemma mask_mul_same (m1 m2 : list bool) :
  length m1 = length m2 -> Torch.mask_mul m1 m2 = Ok (Torch.zip_with andb m1 m2).
Proof.
  intro H. unfold Torch.mask_mul. rewrite H, Nat.eqb_refl. reflexivity.
Qed.

Lemma where_from_length (k : Z) (m : list bool) :
  length (Torch.where_from k m) = Torch.count_true m.
Proof.
  revert k. induction m as [| [|] m IH]; intro k; simpl; auto.
Qed.

Lemma zip_with_nth {A B C : Type} (f : A -> B -> C) (l1 : list A) (l2 : list B)
    (i : nat) (x : A) (y : B) :
  nth_error l1 i = Some x -> nth_error l2 i = Some y ->
  nth_error (Torch.zip_with f l1 l2) i = Some (f x y).
Proof.
  revert l2 i. induction l1 as [| a l1 IH]; intros [| c l2] [| i] H1 H2;
    simpl in *; try discriminate.
  - inversion H1. inversion H2. reflexivity.
  - apply IH; assumption.
Qed.

Lemma zip_with_length {A B C : Type} (f : A -> B -> C) (l1 : list A) (l2 : list B) :
  length l1 = length l2 -> length (Torch.zip_with f l1 l2) = length l1.
Proof.
  revert l2. induction l1 as [| a l1 IH]; intros [| c l2] H; simpl in *;
    try discriminate; auto.
Qed.

Lemma count_sub_flags (ts bt : list Z) (i : nat) :
  length ts = length bt ->
  Torch.count_true
    (Torch.zip_with andb (Torch.eq_scalar ts 0) (Torch.eq_scalar bt (Z.of_nat i)))
  = length (filter (sub_flag i) (combine ts bt)).
Proof.
  revert bt. induction ts as [| t ts IH]; intros [| c bt] H; simpl in *;
    try discriminate; auto.
  unfold sub_flag at 1. simpl.
  destruct ((t =? 0) && (c =? Z.of_nat i)); simpl; rewrite IH by lia; reflexivity.
Qed.

Lemma count_non_sub_flags (ts bt : list Z) (i : nat) :
  length ts = length bt ->
  Torch.count_true
    (Torch.zip_with andb (Torch.ne_scalar ts 0) (Torch.eq_scalar bt (Z.of_nat i)))
  = length (filter (non_sub_flag i) (combine ts bt)).
Proof.
  revert bt. induction ts as [| t ts IH]; intros [| c bt] H; simpl in *;
    try discriminate; auto.
  unfold non_sub_flag at 1. simpl.
  destruct (negb (t =? 0) && (c =? Z.of_nat i)); simpl; rewrite IH by lia;
    reflexivity.
Qed.

Lemma sub_nodes_of_aligned (b : Batch) (i : nat) :
  length (tags b) = length (batch b) ->
  Single.sub_nodes_of b i =
  Ok (Torch.where_ (Torch.zip_with andb (Torch.eq_scalar (tags b) 0)
                      (Torch.eq_scalar (batch b) (Z.of_nat i)))).
Proof.
  intro H. unfold Single.sub_nodes_of.
  rewrite mask_mul_same; [reflexivity |].
  unfold Torch.eq_scalar. rewrite !length_map. assumption.
Qed.

Lemma non_sub_nodes_of_aligned (b : Batch) (i : nat) :
  length (tags b) = length (batch b) ->
  Single.non_sub_nodes_of b i =
  Ok (Torch.where_ (Torch.zip_with andb (Torch.ne_scalar (tags b) 0)
                      (Torch.eq_scalar (batch b) (Z.of_nat i)))).
Proof.
  intro H. unfold Single.non_sub_nodes_of.
  rewrite mask_mul_same; [reflexivity |].
  unfold Torch.ne_scalar, Torch.eq_scalar. rewrite !length_map. assumption.
Qed.

Lemma sub_nodes_count (b : Batch) (i : nat) (s : list Z) :
  length (tags b) = length (batch b) ->
  Single.sub_nodes_of b i = Ok s -> length s = sub_count b i.
Proof.
  intros Hal H. rewrite sub_nodes_of_aligned in H by assumption.
  inversion H. unfold Torch.where_. rewrite where_from_length.
  apply count_sub_flags. assumption.
Qed.

Lemma non_sub_nodes_count (b : Batch) (i : nat) (s : list Z) :
  length (tags b) = length (batch b) ->
  Single.non_sub_nodes_of b i = Ok s -> length s = non_sub_count b i.
Proof.
  intros Hal H. rewrite non_sub_nodes_of_aligned in H by assumption.
  inversion H. unfold Torch.where_. rewrite where_from_length.
  apply count_non_sub_flags. assumption.
Qed.

(** ** The new pointer array *)

Lemma fold_add_shift (l : list Z) (a : Z) :
  fold_left Z.add l a = a + fold_left Z.add l 0.
Proof.
  revert a. induction l as [| x l IH]; intro a; simpl.
  - lia.
  - rewrite IH. rewrite (IH x). lia.
Qed.

Lemma sum_list_snoc (l : list Z) (x : Z) : sum_list (l ++ [x]) = sum_list l + x.
Proof.
  unfold sum_list. rewrite fold_left_app. reflexivity.
Qed.

Lemma sum_list_cons (l : list Z) (x : Z) : sum_list (x :: l) = x + sum_list l.
Proof.
  unfold sum_list. simpl. apply fold_add_shift.
Qed.

Lemma firstn_succ_nth {A : Type} (l : list A) (i : nat) (x : A) :
  nth_error l i = Some x -> firstn (S i) l = firstn i l ++ [x].
Proof.
  revert i. induction l as [| a l IH]; intros [| i] H; simpl in *;
    try discriminate.
  - inversion H. reflexivity.
  - f_equal. apply IH. assumption.
Qed.

Lemma prefix_len_succ (ls : list (list Z)) (i : nat) (x : list Z) :
  nth_error ls i = Some x ->
  sum_list (map (@len Z) (firstn (S i) ls))
  = sum_list (map (@len Z) (firstn i ls)) + len x.
Proof.
  intro H. rewrite (firstn_succ_nth _ _ _ H), map_app. simpl.
  apply sum_list_snoc.
Qed.

(** Entry [i] of the new pointer array is the number of kept atoms of
    the graphs before [i] plus one super node for each of them. *)
Lemma new_ptr_nth (ns : list (list Z)) (bs i : nat) :
  (i <= bs)%nat ->
  nth_error (Single.new_ptr (Single.new_sn_ids ns bs)) i
  = Some (sum_list (map (@len Z) (firstn i ns)) + Z.of_nat i).
Proof.
  intro H. destruct i as [| i]; simpl.
  - reflexivity.
  - unfold Single.new_sn_ids. rewrite map_map, nth_error_map.
    rewrite range_nth by lia. simpl. f_equal. lia.
Qed.

Lemma new_ptr_length (ns : list (list Z)) (bs : nat) :
  length (Single.new_ptr (Single.new_sn_ids ns bs)) = S bs.
Proof.
  unfold Single.new_ptr, Single.new_sn_ids, range. simpl.
  rewrite !length_map, length_seq. reflexivity.
Qed.

Lemma removelast_nth {A : Type} (l : list A) (i : nat) :
  (S i < length l)%nat -> nth_error (removelast l) i = nth_error l i.
Proof.
  revert i. induction l as [| a l IH]; intros i H; simpl in *.
  - lia.
  - destruct l as [| c l]; simpl in *; [lia |].
    destruct i as [| i]; [reflexivity |]. simpl. apply IH. lia.
Qed.

Lemma removelast_length {A : Type} (l : list A) :
  length (removelast l) = Nat.pred (length l).
Proof.
  induction l as [| a l IH]; simpl; [reflexivity |].
  destruct l as [| c l]; simpl in *; [reflexivity | lia].
Qed.

Lemma tl_nth {A : Type} (l : list A) (i : nat) :
  nth_error (tl l) i = nth_error l (S i).
Proof.
  destruct l; simpl; [destruct i |]; reflexivity.
Qed.

Lemma diffs_nth (t : list Z) (i : nat) (p q : Z) :
  nth_error t i = Some p -> nth_error t (S i) = Some q ->
  nth_error (Single.diffs t) i = Some (q - p).
Proof.
  intros Hp Hq. unfold Single.diffs. apply zip_with_nth.
  - rewrite tl_nth. assumption.
  - rewrite removelast_nth; [assumption |].
    apply nth_error_Some. rewrite Hq. discriminate.
Qed.

Lemma diffs_length (t : list Z) : length (Single.diffs t) = Nat.pred (length t).
Proof.
  unfold Single.diffs. rewrite zip_with_length.
  - destruct t; reflexivity.
  - rewrite removelast_length. destruct t; reflexivity.
Qed.

(** What the block stores in the attributes that describe the nodes. *)
Lemma block_nodes (b data : Batch) :
  Single.one_supernode_block b = Ok data ->
  exists bs sub_nodes non_sub_nodes,
    Single.batch_size b = Ok bs /\
    mapM (Single.sub_nodes_of b) (range bs) = Ok sub_nodes /\
    mapM (Single.non_sub_nodes_of b) (range bs) = Ok non_sub_nodes /\
    ptr data = Single.new_ptr (Single.new_sn_ids non_sub_nodes bs) /\
    natoms data = Single.diffs (ptr data) /\
    sn_nodes_aggregates data = Some (map (@len Z) sub_nodes).
Proof.
  intro H. unfold Single.one_supernode_block in H. cbv beta zeta in H.
  bind_steps H. inversion H; subst data; clear H. simpl.
  do 3 eexists. repeat split; eassumption.
Qed.

(** ** Node counts *)

(** C7. After the single-super-node block the new pointer array starts
    at 0, every step [ptr[i+1] - ptr[i]] is the number of non-sub-surface
    atoms of graph [i] plus one super node, and [natoms[i]] is that
    step. *)
Theorem node_count_conservation (b data : Batch) (bs : nat) :
  aligned b ->
  Single.one_supernode_block b = Ok data ->
  Single.batch_size b = Ok bs ->
  nth_error (ptr data) 0 = Some 0 /\
  length (ptr data) = S bs /\
  length (natoms data) = bs /\
  forall i, (i < bs)%nat ->
    exists p q,
      nth_error (ptr data) i = Some p /\
      nth_error (ptr data) (S i) = Some q /\
      q = p + Z.of_nat (non_sub_count b i) + 1 /\
      nth_error (natoms data) i = Some (q - p).
Proof.
  intros [Hal _] Hblock Hbs.
  destruct (block_nodes _ _ Hblock)
    as (bs' & sub & non_sub & Hbs' & Hsub & Hnon & Hptr & Hnat & _).
  rewrite Hbs in Hbs'. inversion Hbs'; subst bs'; clear Hbs'.
  rewrite Hnat, Hptr. repeat split.
  - rewrite new_ptr_length. reflexivity.
  - rewrite diffs_length, new_ptr_length. reflexivity.
  - intros i Hi.
    destruct (mapM_range _ _ _ Hnon) as (_ & Hnth).
    destruct (Hnth i Hi) as (ns & Hns & Hof).
    pose proof (non_sub_nodes_count _ _ _ Hal Hof) as Hcount.
    pose proof (new_ptr_nth non_sub bs i ltac:(lia)) as Hp.
    pose proof (new_ptr_nth non_sub bs (S i) ltac:(lia)) as Hq.
    rewrite (prefix_len_succ _ _ _ Hns) in Hq.
    eexists. eexists. split; [exact Hp |]. split; [exact Hq |]. split.
    + unfold len. rewrite Hcount. lia.
    + apply diffs_nth; assumption.
Qed.

Lemma node_count_conservation_witness :
  aligned scenario /\
  Single.one_supernode_block scenario = Ok scenario_out /\
  Single.batch_size scenario = Ok 2%nat /\
  nth_error (ptr scenario_out) 0 = Some 0 /\
  length (ptr scenario_out) = 3%nat /\
  length (natoms scenario_out) = 2%nat /\
  forall i, (i < 2)%nat ->
    exists p q,
      nth_error (ptr scenario_out) i = Some p /\
      nth_error (ptr scenario_out) (S i) = Some q /\
      q = p + Z.of_nat (non_sub_count scenario i) + 1 /\
      nth_error (natoms scenario_out) i = Some (q - p).
Proof.
  assert (Ha : aligned scenario) by (split; reflexivity).
  assert (Hb : Single.one_supernode_block scenario = Ok scenario_out)
    by (vm_compute; reflexivity).
  assert (Hc : Single.batch_size scenario = Ok 2%nat) by reflexivity.
  split; [exact Ha |]. split; [exact Hb |]. split; [exact Hc |].
  exact (node_count_conservation _ _ _ Ha Hb Hc).
Defined.

(** ** The compacted per-atom arrays *)

Lemma concat_block_nth {A : Type} (blocks : list (list A)) (i j : nat)
    (blk : list A) :
  nth_error blocks i = Some blk ->
  (j < length blk)%nat ->
  nth_error (concat blocks) (length (concat (firstn i blocks)) + j)
  = nth_error blk j.
Proof.
  revert i. induction blocks as [| b0 blocks IH]; intros [| i] Hi Hj;
    simpl in *; try discriminate.
  - inversion Hi; subst b0. apply nth_error_app1. assumption.
  - rewrite length_app, <- Nat.add_assoc.
    rewrite nth_error_app2 by lia.
    replace (length b0 + (length (concat (firstn i blocks)) + j) - length b0)%nat
      with (length (concat (firstn i blocks)) + j)%nat by lia.
    apply IH; assumption.
Qed.

Lemma index_select_length {A : Type} (t : list A) (idx : list Z) (rows : list A) :
  Torch.index_select t idx = Ok rows -> length rows = length idx.
Proof.
  apply mapM_length.
Qed.

(** The blocks a compaction concatenates: for every graph the rows of
    its kept atoms, then the extra row. *)
Lemma compact_blocks {A : Type} (bs : nat) (src : list A)
    (non_sub : list (list Z)) (extra : nat -> result A) (v : list A) :
  Single.compact bs src non_sub extra = Ok v ->
  exists blocks,
    v = concat blocks /\
    length blocks = bs /\
    forall i, (i < bs)%nat ->
      exists ns rows x,
        nth_error non_sub i = Some ns /\
        Torch.index_select src ns = Ok rows /\
        extra i = Ok x /\
        nth_error blocks i = Some (rows ++ [x]).
Proof.
  intro H. unfold Single.compact in H. bind_steps H.
  exists v0. split; [| split].
  - destruct v0; simpl in H; inversion H. reflexivity.
  - apply (mapM_range _ _ _ E).
  - intros i Hi. destruct (mapM_range _ _ _ E) as (_ & Hnth).
    destruct (Hnth i Hi) as (blk & Hblk & Hf).
    bind_steps Hf. inversion Hf; subst blk.
    apply item_Ok in E0. eauto 8.
Qed.

Lemma compact_prefix_length {A : Type} (bs : nat) (non_sub : list (list Z))
    (blocks : list (list A)) :
  (forall i, (i < bs)%nat ->
     exists ns rows x,
       nth_error non_sub i = Some ns /\
       length rows = length ns /\
       nth_error blocks i = Some (rows ++ [x])) ->
  forall i, (i <= bs)%nat ->
    Z.of_nat (length (concat (firstn i blocks)))
    = sum_list (map (@len Z) (firstn i non_sub)) + Z.of_nat i.
Proof.
  intros Hblk i. induction i as [| i IH]; intro Hi.
  - reflexivity.
  - destruct (Hblk i ltac:(lia)) as (ns & rows & x & Hns & Hlen & Hb).
    specialize (IH ltac:(lia)).
    rewrite (firstn_succ_nth _ _ _ Hb), concat_app, length_app.
    rewrite (prefix_len_succ _ _ _ Hns). cbn [concat].
    rewrite app_nil_r, length_app. cbn [length]. unfold len at 2. lia.
Qed.

Lemma compact_blocks_lengths {A : Type} (bs : nat) (src : list A)
    (non_sub : list (list Z)) (extra : nat -> result A) (blocks : list (list A)) :
  (forall i, (i < bs)%nat ->
     exists ns rows x,
       nth_error non_sub i = Some ns /\
       Torch.index_select src ns = Ok rows /\
       extra i = Ok x /\
       nth_error blocks i = Some (rows ++ [x])) ->
  forall k, (k < bs)%nat ->
    exists ns rows x,
      nth_error non_sub k = Some ns /\
      length rows = length ns /\
      nth_error blocks k = Some (rows ++ [x]).
Proof.
  intros Hblk k Hk. destruct (Hblk k Hk) as (ns & rows & x & Hns & Hsel & _ & Hb).
  exists ns, rows, x. repeat split; try assumption.
  eapply index_select_length; eassumption.
Qed.

(** A compacted array has one row per kept atom and one per graph. *)
Lemma compact_length {A : Type} (bs : nat) (src : list A)
    (non_sub : list (list Z)) (extra : nat -> result A) (v : list A) :
  Single.compact bs src non_sub extra = Ok v ->
  Z.of_nat (length v)
  = sum_list (map (@len Z) (firstn bs non_sub)) + Z.of_nat bs.
Proof.
  intro H. destruct (compact_blocks _ _ _ _ _ H) as (blocks & Hv & Hlen & Hblk).
  pose proof (compact_blocks_lengths _ _ _ _ _ Hblk) as Hpre.
  rewrite <- (compact_prefix_length bs non_sub blocks Hpre bs (Nat.le_refl bs)).
  rewrite <- Hlen, firstn_all. subst v. reflexivity.
Qed.

(** In a compacted array the extra row of graph [i] sits at the new
    super-node index of graph [i], the last place of its range. *)
Lemma compact_supernode {A : Type} (bs : nat) (src : list A)
    (non_sub : list (list Z)) (extra : nat -> result A) (v : list A) (i : nat) :
  Single.compact bs src non_sub extra = Ok v ->
  (i < bs)%nat ->
  exists x,
    extra i = Ok x /\
    nth_error v
      (Z.to_nat (sum_list (map (@len Z) (firstn (S i) non_sub)) + Z.of_nat i))
    = Some x.
Proof.
  intros H Hi. destruct (compact_blocks _ _ _ _ _ H) as (blocks & Hv & _ & Hblk).
  pose proof (compact_blocks_lengths _ _ _ _ _ Hblk) as Hpre.
  destruct (Hblk i Hi) as (ns & rows & x & Hns & Hsel & Hex & Hb).
  exists x. split; [assumption |].
  pose proof (compact_prefix_length bs non_sub blocks Hpre i ltac:(lia)) as Hlen.
  rewrite (prefix_len_succ _ _ _ Hns).
  apply index_select_length in Hsel.
  replace (Z.to_nat (sum_list (map (@len Z) (firstn i non_sub)) + len ns + Z.of_nat i))
    with (length (concat (firstn i blocks)) + length rows)%nat
    by (unfold len in *; lia).
  subst v. rewrite (concat_block_nth blocks i (length rows) _ Hb).
  - rewrite nth_error_app2 by lia. rewrite Nat.sub_diag. reflexivity.
  - rewrite length_app. simpl. lia.
Qed.

(** ** Gathering the rows of a [where] result *)

Lemma get_app_here {A : Type} (pre : list A) (a : A) (post : list A) :
  Torch.get (pre ++ a :: post) (len pre) = Ok a.
Proof.
  unfold Torch.get, len. rewrite length_app. simpl.
  destruct (Z.ltb_spec (Z.of_nat (length pre)) 0); [lia |].
  destruct (Z.leb_spec 0 (Z.of_nat (length pre))); [| lia].
  destruct (Z.ltb_spec (Z.of_nat (length pre))
              (Z.of_nat (length pre + S (length post)))); [| lia].
  simpl. rewrite Nat2Z.id, nth_error_app2 by lia.
  rewrite Nat.sub_diag. reflexivity.
Qed.

Lemma get_beyond {A : Type} (t : list A) (k : Z) :
  len t <= k -> exists e, Torch.get t k = Raise e.
Proof.
  intro H. unfold Torch.get, len in *.
  destruct (Z.ltb_spec k 0); [lia |].
  destruct (Z.leb_spec 0 k); [| lia].
  destruct (Z.ltb_spec k (Z.of_nat (length t))); [lia |].
  simpl. eauto.
Qed.

Lemma where_from_ge (k : Z) (m : list bool) (x : Z) :
  In x (Torch.where_from k m) -> k <= x.
Proof.
  revert k. induction m as [| [|] m IH]; intros k H; simpl in H.
  - contradiction.
  - destruct H as [H | H]; [lia | apply IH in H; lia].
  - apply IH in H. lia.
Qed.

Lemma gather_beyond {A : Type} (t : list A) (k : Z) (m : list bool) (rows : list A) :
  len t <= k ->
  mapM (Torch.get t) (Torch.where_from k m) = Ok rows -> rows = [].
Proof.
  intros Hk H. destruct (Torch.where_from k m) as [| x l] eqn:Hw.
  - inversion H. reflexivity.
  - assert (Hx : k <= x) by (apply where_from_ge with (m := m); rewrite Hw; left; reflexivity).
    destruct (get_beyond t x ltac:(lia)) as (e & He).
    simpl in H. rewrite He in H. discriminate H.
Qed.

(** Indexing with the result of [where(m)] picks the rows under the
    true entries of [m]. *)
Lemma gather_where_from {A : Type} (m : list bool) :
  forall (pre src rows : list A),
    mapM (Torch.get (pre ++ src)) (Torch.where_from (len pre) m) = Ok rows ->
    rows = Torch.masked src m.
Proof.
  induction m as [| c m IH]; intros pre src rows H.
  - simpl in H. inversion H. destruct src; reflexivity.
  - destruct src as [| a src].
    + rewrite app_nil_r in H. simpl.
      destruct c; simpl in H.
      * destruct (get_beyond pre (len pre) ltac:(lia)) as (e & He).
        rewrite He in H. discriminate H.
      * eapply gather_beyond; [| exact H]. lia.
    + assert (Hpre : len pre + 1 = len (pre ++ [a]))
        by (unfold len; rewrite length_app; simpl; lia).
      assert (Happ : pre ++ a :: src = (pre ++ [a]) ++ src)
        by (rewrite <- app_assoc; reflexivity).
      destruct c; simpl in H.
      * rewrite get_app_here in H. simpl in H. bind_steps H.
        inversion H; subst rows. simpl. f_equal.
        rewrite Hpre, Happ in E. apply IH in E. assumption.
      * simpl. rewrite Hpre, Happ in H. apply IH in H. assumption.
Qed.

Lemma gather_where {A : Type} (m : list bool) (src rows : list A) :
  Torch.index_select src (Torch.where_ m) = Ok rows -> rows = Torch.masked src m.
Proof.
  intro H. apply (gather_where_from m [] src rows). exact H.
Qed.

Lemma masked_sub_rows {A : Type} (ts bt : list Z) (i : nat) (src : list A) :
  Torch.masked src
    (Torch.zip_with andb (Torch.eq_scalar ts 0) (Torch.eq_scalar bt (Z.of_nat i)))
  = map snd (filter (fun r => sub_flag i (fst r)) (combine (combine ts bt) src)).
Proof.
  revert bt src. induction ts as [| t ts IH]; intros [| c bt] [| a src];
    simpl; try reflexivity.
  unfold sub_flag at 1. simpl.
  destruct ((t =? 0) && (c =? Z.of_nat i)); simpl; rewrite IH; reflexivity.
Qed.

(** The rows the block averages for graph [i] are the rows of its
    sub-surface atoms. *)
Lemma sub_nodes_rows {A : Type} (b : Batch) (i : nat) (s : list Z)
    (src rows : list A) :
  length (tags b) = length (batch b) ->
  Single.sub_nodes_of b i = Ok s ->
  Torch.index_select src s = Ok rows ->
  rows = sub_rows b i src.
Proof.
  intros Hal Hs Hsel. rewrite sub_nodes_of_aligned in Hs by assumption.
  inversion Hs; subst s. apply gather_where in Hsel. subst rows.
  apply masked_sub_rows.
Qed.

(** ** The aggregates of a super node *)

(** The entry of [sn_mean] for graph [i] is the mean over the rows of
    the sub-surface atoms of graph [i]. *)
Lemma sn_mean_nth (b : Batch) (bs : nat) (src : list vec3)
    (sub : list (list Z)) (sn : list vec3) (i : nat) (x : vec3) :
  length (tags b) = length (batch b) ->
  mapM (Single.sub_nodes_of b) (range bs) = Ok sub ->
  Single.sn_mean bs src sub = Ok sn ->
  (i < bs)%nat ->
  item sn i = Ok x ->
  x = Torch.mean0 (sub_rows b i src) /\
  length (sub_rows b i src) = sub_count b i.
Proof.
  intros Hal Hsub Hsn Hi Hx. apply item_Ok in Hx.
  destruct (mapM_range _ _ _ Hsn) as (_ & Hnth).
  destruct (Hnth i Hi) as (y & Hy & Hf). rewrite Hx in Hy. inversion Hy; subst y.
  bind_steps Hf. inversion Hf; subst x. apply item_Ok in E.
  destruct (mapM_range _ _ _ Hsub) as (_ & Hnth').
  destruct (Hnth' i Hi) as (s & Hs & Hof). rewrite E in Hs. inversion Hs; subst s.
  pose proof (sub_nodes_rows b i v src v0 Hal Hof E0) as Hrows.
  split.
  - rewrite Hrows. reflexivity.
  - rewrite <- Hrows, (index_select_length _ _ _ E0).
    eapply sub_nodes_count; eassumption.
Qed.

(** What the block stores in the per-atom arrays. *)
Lemma block_arrays (b data : Batch) :
  Single.one_supernode_block b = Ok data ->
  exists bs sub_nodes non_sub_nodes sn_pos sn_pos_relaxed sn_force,
    Single.batch_size b = Ok bs /\
    mapM (Single.sub_nodes_of b) (range bs) = Ok sub_nodes /\
    mapM (Single.non_sub_nodes_of b) (range bs) = Ok non_sub_nodes /\
    Single.sn_mean bs (pos b) sub_nodes = Ok sn_pos /\
    Single.sn_mean bs (pos_relaxed b) sub_nodes = Ok sn_pos_relaxed /\
    Single.sn_mean bs (force b) sub_nodes = Ok sn_force /\
    Single.compact bs (pos b) non_sub_nodes (item sn_pos) = Ok (pos data) /\
    Single.compact bs (pos_relaxed b) non_sub_nodes (item sn_pos_relaxed)
      = Ok (pos_relaxed data) /\
    Single.compact bs (force b) non_sub_nodes (item sn_force) = Ok (force data) /\
    Single.compact bs (atomic_numbers b) non_sub_nodes (fun _ => Ok 84)
      = Ok (atomic_numbers data) /\
    Single.compact bs (fixed b) non_sub_nodes (fun _ => Ok (Fin 1))
      = Ok (fixed data) /\
    Single.compact bs (tags b) non_sub_nodes (fun _ => Ok 0) = Ok (tags data).
Proof.
  intro H. unfold Single.one_supernode_block in H. cbv beta zeta in H.
  bind_steps H. inversion H; subst data; clear H. simpl.
  do 6 eexists. repeat split; eassumption.
Qed.

(** The super node of graph [i] is the last node of its new range, and
    there every compacted array holds the extra row of graph [i]. *)
Lemma supernode_row {A : Type} (b data : Batch) (bs i : nat) (q : Z)
    (src v : list A) (non_sub : list (list Z)) (extra : nat -> result A) :
  ptr data = Single.new_ptr (Single.new_sn_ids non_sub bs) ->
  Single.compact bs src non_sub extra = Ok v ->
  (i < bs)%nat ->
  nth_error (ptr data) (S i) = Some q ->
  exists x, extra i = Ok x /\ nth_error v (Z.to_nat (q - 1)) = Some x.
Proof.
  intros Hptr Hc Hi Hq.
  rewrite Hptr, new_ptr_nth in Hq by lia.
  assert (Hq' : q = sum_list (map (@len Z) (firstn (S i) non_sub)) + Z.of_nat (S i))
    by congruence.
  subst q. clear Hq.
  destruct (compact_supernode _ _ _ _ _ i Hc Hi) as (x & Hx & Hn).
  exists x. split; [assumption |]. rewrite <- Hn. f_equal. lia.
Qed.

(** The rows stored at the super node of graph [i], whatever the number
    of its sub-surface atoms. *)
Lemma supernode_payload (b data : Batch) (bs i : nat) (q : Z) :
  aligned b ->
  Single.one_supernode_block b = Ok data ->
  Single.batch_size b = Ok bs ->
  (i < bs)%nat ->
  nth_error (ptr data) (S i) = Some q ->
  nth_error (pos data) (Z.to_nat (q - 1))
    = Some (Torch.mean0 (sub_rows b i (pos b))) /\
  nth_error (pos_relaxed data) (Z.to_nat (q - 1))
    = Some (Torch.mean0 (sub_rows b i (pos_relaxed b))) /\
  nth_error (force data) (Z.to_nat (q - 1))
    = Some (Torch.mean0 (sub_rows b i (force b))) /\
  length (sub_rows b i (pos b)) = sub_count b i /\
  length (sub_rows b i (pos_relaxed b)) = sub_count b i /\
  length (sub_rows b i (force b)) = sub_count b i /\
  exists counts,
    sn_nodes_aggregates data = Some counts /\
    nth_error counts i = Some (Z.of_nat (sub_count b i)).
Proof.
  intros [Hal _] Hblock Hbs Hi Hq.
  destruct (block_nodes _ _ Hblock)
    as (bs0 & sub0 & non0 & Hbs0 & Hsub0 & Hnon0 & Hptr & _ & Hagg).
  destruct (block_arrays _ _ Hblock)
    as (bs' & sub & non_sub & snp & snr & snf & Hbs' & Hsub & Hnon
        & Hsnp & Hsnr & Hsnf & Hpos & Hrel & Hfor & _).
  rewrite Hbs in Hbs0, Hbs'. inversion Hbs0; subst bs0. inversion Hbs'; subst bs'.
  rewrite Hsub in Hsub0. inversion Hsub0; subst sub0.
  rewrite Hnon in Hnon0. inversion Hnon0; subst non0.
  destruct (supernode_row b data bs i q _ _ _ _ Hptr Hpos Hi Hq) as (xp & Hxp & Hnp).
  destruct (supernode_row b data bs i q _ _ _ _ Hptr Hrel Hi Hq) as (xr & Hxr & Hnr).
  destruct (supernode_row b data bs i q _ _ _ _ Hptr Hfor Hi Hq) as (xf & Hxf & Hnf).
  destruct (sn_mean_nth b bs _ sub snp i xp Hal Hsub Hsnp Hi Hxp) as (-> & Hlp).
  destruct (sn_mean_nth b bs _ sub snr i xr Hal Hsub Hsnr Hi Hxr) as (-> & Hlr).
  destruct (sn_mean_nth b bs _ sub snf i xf Hal Hsub Hsnf Hi Hxf) as (-> & Hlf).
  repeat (split; [assumption |]).
  exists (map (@len Z) sub). split; [assumption |].
  destruct (mapM_range _ _ _ Hsub) as (_ & Hnth).
  destruct (Hnth i Hi) as (s & Hs & Hof).
  rewrite nth_error_map, Hs. simpl. unfold len.
  rewrite (sub_nodes_count b i s Hal Hof). reflexivity.
Qed.

(** C5, as stated, fails: the first graph of [no_sub_graph] has no
    sub-surface atom, yet the block completes, gives that graph a third
    node, and stores NaN rows there. *)
Lemma empty_aggregate_counterexample :
  sub_count no_sub_graph 0 = 0%nat /\
  Single.one_supernode_block no_sub_graph = Ok no_sub_graph_out /\
  natoms no_sub_graph_out = [3; 2] /\
  non_sub_count no_sub_graph 0 = 2%nat /\
  nth_error (pos no_sub_graph_out) 2 = Some vnan /\
  nth_error (pos_relaxed no_sub_graph_out) 2 = Some vnan /\
  nth_error (force no_sub_graph_out) 2 = Some vnan /\
  nth_error (atomic_numbers no_sub_graph_out) 2 = Some 84.
Proof.
  repeat split; vm_compute; reflexivity.
Qed.

(** C5, amended. A graph without sub-surface atoms is neither rejected
    nor skipped: whenever the block completes, that graph has its kept
    atoms plus one super node, and the position, relaxed position and
    force of that super node are the mean over the empty set, NaN in
    every coordinate. *)
Theorem empty_aggregate_policy (b data : Batch) (bs i : nat) (p q : Z) :
  aligned b ->
  Single.one_supernode_block b = Ok data ->
  Single.batch_size b = Ok bs ->
  (i < bs)%nat ->
  sub_count b i = 0%nat ->
  nth_error (ptr data) i = Some p ->
  nth_error (ptr data) (S i) = Some q ->
  q - p = Z.of_nat (non_sub_count b i) + 1 /\
  nth_error (natoms data) i = Some (q - p) /\
  nth_error (pos data) (Z.to_nat (q - 1)) = Some vnan /\
  nth_error (pos_relaxed data) (Z.to_nat (q - 1)) = Some vnan /\
  nth_error (force data) (Z.to_nat (q - 1)) = Some vnan.
Proof.
  intros Hal Hblock Hbs Hi Hzero Hp Hq.
  destruct (supernode_payload b data bs i q Hal Hblock Hbs Hi Hq)
    as (Hpos & Hrel & Hfor & Hlp & Hlr & Hlf & _).
  rewrite Hzero in Hlp, Hlr, Hlf.
  apply length_zero_iff_nil in Hlp, Hlr, Hlf.
  rewrite Hlp in Hpos. rewrite Hlr in Hrel. rewrite Hlf in Hfor.
  destruct Hal as [Hal _].
  destruct (block_nodes _ _ Hblock)
    as (bs' & sub & non_sub & Hbs' & Hsub & Hnon & Hptr & Hnat & _).
  rewrite Hbs in Hbs'. inversion Hbs'; subst bs'; clear Hbs'.
  destruct (mapM_range _ _ _ Hnon) as (_ & Hnth).
  destruct (Hnth i Hi) as (ns & Hns & Hof).
  pose proof (non_sub_nodes_count _ _ _ Hal Hof) as Hcount.
  pose proof (new_ptr_nth non_sub bs i ltac:(lia)) as Hp'.
  pose proof (new_ptr_nth non_sub bs (S i) ltac:(lia)) as Hq'.
  rewrite (prefix_len_succ _ _ _ Hns) in Hq'.
  rewrite <- Hptr, Hp in Hp'. rewrite <- Hptr, Hq in Hq'.
  assert (Hpv : p = sum_list (map (@len Z) (firstn i non_sub)) + Z.of_nat i)
    by congruence.
  assert (Hqv : q = sum_list (map (@len Z) (firstn i non_sub)) + len ns
                    + Z.of_nat (S i)) by congruence.
  split; [unfold len in *; lia |].
  split; [rewrite Hnat; apply diffs_nth; assumption |].
  repeat split; assumption.
Qed.

Lemma empty_aggregate_policy_witness :
  aligned no_sub_graph /\
  Single.one_supernode_block no_sub_graph = Ok no_sub_graph_out /\
  sub_count no_sub_graph 0 = 0%nat /\
  3 - 0 = Z.of_nat (non_sub_count no_sub_graph 0) + 1 /\
  nth_error (natoms no_sub_graph_out) 0 = Some (3 - 0) /\
  nth_error (pos no_sub_graph_out) (Z.to_nat (3 - 1)) = Some vnan /\
  nth_error (pos_relaxed no_sub_graph_out) (Z.to_nat (3 - 1)) = Some vnan /\
  nth_error (force no_sub_graph_out) (Z.to_nat (3 - 1)) = Some vnan.
Proof.
  assert (Ha : aligned no_sub_graph) by (split; reflexivity).
  assert (Hb : Single.one_supernode_block no_sub_graph = Ok no_sub_graph_out)
    by (vm_compute; reflexivity).
  assert (Hc : Single.batch_size no_sub_graph = Ok 2%nat) by reflexivity.
  assert (Hd : sub_count no_sub_graph 0 = 0%nat) by reflexivity.
  assert (Hp : nth_error (ptr no_sub_graph_out) 0 = Some 0) by reflexivity.
  assert (Hq : nth_error (ptr no_sub_graph_out) 1 = Some 3) by reflexivity.
  split; [exact Ha |]. split; [exact Hb |]. split; [exact Hd |].
  exact (empty_aggregate_policy no_sub_graph no_sub_graph_out 2 0 0 3
           Ha Hb Hc ltac:(lia) Hd Hp Hq).
Defined.

(** X23. For a graph with at least one sub-surface atom, the rows
    stored at its super node (the last node of its new range) in the
    position, relaxed position and force arrays are the float means,
    column by column, over the rows of the sub-surface atoms of that
    graph in atom order, and the recorded aggregate count is the number
    of these atoms. *)
Theorem supernode_aggregates (b data : Batch) (bs i : nat) (q : Z) :
  aligned b ->
  Single.one_supernode_block b = Ok data ->
  Single.batch_size b = Ok bs ->
  (i < bs)%nat ->
  (0 < sub_count b i)%nat ->
  nth_error (ptr data) (S i) = Some q ->
  nth_error (pos data) (Z.to_nat (q - 1))
    = Some (column_means (sub_rows b i (pos b))) /\
  nth_error (pos_relaxed data) (Z.to_nat (q - 1))
    = Some (column_means (sub_rows b i (pos_relaxed b))) /\
  nth_error (force data) (Z.to_nat (q - 1))
    = Some (column_means (sub_rows b i (force b))) /\
  length (sub_rows b i (pos b)) = sub_count b i /\
  length (sub_rows b i (pos_relaxed b)) = sub_count b i /\
  length (sub_rows b i (force b)) = sub_count b i /\
  exists counts,
    sn_nodes_aggregates data = Some counts /\
    nth_error counts i = Some (Z.of_nat (sub_count b i)).
Proof.
  intros Hal Hblock Hbs Hi Hsub Hq.
  destruct (supernode_payload b data bs i q Hal Hblock Hbs Hi Hq)
    as (Hpos & Hrel & Hfor & Hlp & Hlr & Hlf & Hagg).
  assert (Hm : forall rows, length rows = sub_count b i ->
                            Torch.mean0 rows = column_means rows).
  { intros rows Hl. destruct rows as [| r rows]; [simpl in Hl; lia |].
    reflexivity. }
  rewrite (Hm _ Hlp) in Hpos. rewrite (Hm _ Hlr) in Hrel.
  rewrite (Hm _ Hlf) in Hfor.
  repeat (split; [assumption |]). exact Hagg.
Qed.

Lemma supernode_aggregates_witness :
  aligned scenario /\
  Single.one_supernode_block scenario = Ok scenario_out /\
  Single.batch_size scenario = Ok 2%nat /\
  (0 < sub_count scenario 0)%nat /\
  nth_error (pos scenario_out) 3
    = Some (column_means (sub_rows scenario 0 (pos scenario))) /\
  nth_error (pos_relaxed scenario_out) 3
    = Some (column_means (sub_rows scenario 0 (pos_relaxed scenario))) /\
  nth_error (force scenario_out) 3
    = Some (column_means (sub_rows scenario 0 (force scenario))) /\
  sub_count scenario 0 = 2%nat.
Proof.
  assert (Ha : aligned scenario) by (split; reflexivity).
  assert (Hb : Single.one_supernode_block scenario = Ok scenario_out)
    by (vm_compute; reflexivity).
  assert (Hc : Single.batch_size scenario = Ok 2%nat) by reflexivity.
  assert (Hd : (0 < sub_count scenario 0)%nat) by (vm_compute; lia).
  assert (He : nth_error (ptr scenario_out) 1 = Some 4) by reflexivity.
  destruct (supernode_aggregates scenario scenario_out 2 0 4 Ha Hb Hc
              ltac:(lia) Hd He) as (Hp & Hr & Hf & _).
  repeat (split; [assumption |]). reflexivity.
Defined.

(** ** The re-indexed edges *)

(** Reduces field reads of a batch built by attribute assignments. *)
Ltac fields :=
  cbn [ptr batch natoms tags atomic_numbers pos pos_relaxed force fixed
       edge_index cell_offsets distances neighbors sn_nodes_aggregates
       sn_edges_aggregates set_ptr set_batch set_natoms set_tags
       set_atomic_numbers set_pos set_pos_relaxed set_force set_fixed
       set_edge_index set_cell_offsets set_distances set_neighbors
       set_sn_nodes_aggregates set_sn_edges_aggregates] in *.

Lemma get_In {A : Type} (t : list A) (k : Z) (a : A) :
  Torch.get t k = Ok a -> In a t.
Proof.
  unfold Torch.get. intro H.
  destruct ((0 <=? (if k <? 0 then Z.of_nat (length t) + k else k)) &&
            ((if k <? 0 then Z.of_nat (length t) + k else k) <? Z.of_nat (length t)));
    [| discriminate H].
  destruct (nth_error t _) as [x |] eqn:E; inversion H; subst x.
  eapply nth_error_In; eassumption.
Qed.

Lemma get_nat {A : Type} (t : list A) (k : Z) (a : A) :
  0 <= k -> Torch.get t k = Ok a -> nth_error t (Z.to_nat k) = Some a.
Proof.
  unfold Torch.get. intros Hk H.
  destruct (Z.ltb_spec k 0); [lia |].
  destruct ((0 <=? k) && (k <? Z.of_nat (length t))); [| discriminate H].
  destruct (nth_error t (Z.to_nat k)) as [x |]; inversion H. reflexivity.
Qed.

Lemma get_last {A : Type} (t : list A) (n : nat) (a : A) :
  length t = S n -> Torch.get t (-1) = Ok a -> nth_error t n = Some a.
Proof.
  unfold Torch.get. intros Hlen H. rewrite Hlen in H.
  destruct (Z.ltb_spec (-1) 0); [| lia].
  replace (Z.of_nat (S n) + -1) with (Z.of_nat n) in H by lia.
  destruct ((0 <=? Z.of_nat n) && (Z.of_nat n <? Z.of_nat (S n)));
    [| discriminate H].
  rewrite Nat2Z.id in H.
  destruct (nth_error t n) as [x |]; inversion H. reflexivity.
Qed.

Lemma full_In {A : Type} (n : Z) (v x : A) (t : list A) :
  Torch.full n v = Ok t -> In x t -> x = v.
Proof.
  unfold Torch.full. destruct (n <? 0); intro H; inversion H; subst t.
  intro Hx. apply repeat_spec in Hx. assumption.
Qed.

Lemma scatter_In {A : Type} (t : list A) (m : list bool) (vals : list A) (x : A) :
  In x (Torch.scatter t m vals) -> In x t \/ In x vals.
Proof.
  revert m vals. induction t as [| a t IH]; intros m vals H.
  - simpl in H. destruct m; contradiction.
  - destruct m as [| [|] m]; simpl in H.
    + left. assumption.
    + destruct vals as [| v vals]; simpl in H.
      * destruct H as [H | H]; [left; left; assumption |].
        apply IH in H. destruct H as [H | H]; [left; right; assumption | contradiction].
      * destruct H as [H | H]; [right; left; assumption |].
        apply IH in H. destruct H as [H | H]; [left | right]; right; assumption.
    + destruct H as [H | H]; [left; left; assumption |].
      apply IH in H. destruct H as [H | H]; [left; right; assumption | right; assumption].
Qed.

Lemma mask_put_In {A : Type} (t : list A) (m : list bool) (vals r : list A) (x : A) :
  Torch.mask_put t m vals = Ok r -> In x r -> In x t \/ In x vals.
Proof.
  unfold Torch.mask_put. intros H Hx.
  destruct (Nat.eqb (length t) (length m)); [| discriminate H].
  destruct (Nat.eqb (length vals) (Torch.count_true m)).
  - inversion H; subst r. apply scatter_In in Hx. assumption.
  - destruct vals as [| v [| w vals]]; try discriminate H.
    inversion H; subst r. apply scatter_In in Hx.
    destruct Hx as [Hx | Hx]; [left; assumption |].
    apply repeat_spec in Hx. right. left. symmetry. assumption.
Qed.

Lemma arange_In (a c x : Z) : In x (Torch.arange a c) -> a <= x < c.
Proof.
  unfold Torch.arange. intro H. apply in_map_iff in H.
  destruct H as (k & Hk & Hin). apply in_seq in Hin. lia.
Qed.

Lemma sum_lens_nonneg (l : list (list Z)) : 0 <= sum_list (map (@len Z) l).
Proof.
  induction l as [| a l IH]; simpl.
  - reflexivity.
  - rewrite sum_list_cons. unfold len at 1. lia.
Qed.

Lemma prefix_len_mono (l : list (list Z)) (i j : nat) :
  (i <= j)%nat ->
  sum_list (map (@len Z) (firstn i l)) <= sum_list (map (@len Z) (firstn j l)).
Proof.
  revert i j. induction l as [| a l IH]; intros i j H.
  - rewrite !firstn_nil. reflexivity.
  - destruct i as [| i].
    + apply sum_lens_nonneg.
    + destruct j as [| j]; [lia |]. simpl. rewrite !sum_list_cons.
      specialize (IH i j ltac:(lia)). lia.
Qed.

(** The new indices handed to the kept atoms are nodes of the new
    batch. *)
Lemma new_ids_In (non_sub : list (list Z)) (bs : nat) (vals : list Z) (x : Z) :
  Single.new_ids bs (Single.new_ptr (Single.new_sn_ids non_sub bs)) = Ok vals ->
  In x vals ->
  0 <= x < sum_list (map (@len Z) (firstn bs non_sub)) + Z.of_nat bs.
Proof.
  intros H Hx. unfold Single.new_ids in H. bind_steps H.
  assert (Hv : vals = concat v) by (destruct v; simpl in H; inversion H; reflexivity).
  subst vals. apply in_concat in Hx. destruct Hx as (r & Hr & Hxr).
  destruct (mapM_In _ _ _ E _ Hr) as (e & He & Hf).
  apply in_seq in He. bind_steps Hf. inversion Hf; subst r.
  apply arange_In in Hxr.
  apply get_nat in E0; [| lia]. apply get_nat in E1; [| lia].
  rewrite Nat2Z.id in E0.
  replace (Z.to_nat (Z.of_nat e + 1)) with (S e) in E1 by lia.
  rewrite new_ptr_nth in E0, E1 by lia.
  assert (H0 : v0 = sum_list (map (@len Z) (firstn e non_sub)) + Z.of_nat e)
    by congruence.
  assert (H1 : v1 = sum_list (map (@len Z) (firstn (S e) non_sub)) + Z.of_nat (S e))
    by congruence.
  pose proof (sum_lens_nonneg (firstn e non_sub)).
  pose proof (prefix_len_mono non_sub (S e) bs ltac:(lia)).
  lia.
Qed.

Lemma reindex_In (assoc : list Z) (ei r : list (Z * Z)) (s t : Z) :
  Single.reindex assoc ei = Ok r -> In (s, t) r -> In s assoc /\ In t assoc.
Proof.
  intros H Hin. destruct (mapM_In _ _ _ H _ Hin) as (c & _ & Hf).
  bind_steps Hf. inversion Hf; subst.
  split; eapply get_In; eassumption.
Qed.

(** What the block stores in the edge index. *)
Lemma block_edges (b data : Batch) :
  Single.one_supernode_block b = Ok data ->
  exists bs non_sub_nodes num_nodes mask assoc0 vals assoc ei_not_both,
    Single.batch_size b = Ok bs /\
    mapM (Single.non_sub_nodes_of b) (range bs) = Ok non_sub_nodes /\
    ptr data = Single.new_ptr (Single.new_sn_ids non_sub_nodes bs) /\
    Torch.full num_nodes (-1) = Ok assoc0 /\
    Single.new_ids bs (ptr data) = Ok vals /\
    Torch.mask_put assoc0 mask vals = Ok assoc /\
    Single.reindex assoc ei_not_both = Ok (edge_index data).
Proof.
  intro H. unfold Single.one_supernode_block in H. cbv beta zeta in H.
  bind_steps H. inversion H; subst data; clear H. fields.
  do 8 eexists. repeat split; eassumption.
Qed.

(** C1 at [scenario]. The single-super-node block completes without
    any error; the new batch has seven nodes (the last entry of the new
    pointer array, and the length of the new per-atom arrays), yet both
    edges of the new edge index have the sentinel [-1] of the lookup
    table as their source, which is no index in [[0, 7)]. On the same
    batch the several-super-nodes block leaves every endpoint in
    [[0, 7)]. *)
Theorem sentinel_reaches_output :
  Single.one_supernode_block scenario = Ok scenario_out /\
  nth_error (ptr scenario_out) 2 = Some 7 /\
  length (pos scenario_out) = 7%nat /\
  length (atomic_numbers scenario_out) = 7%nat /\
  edge_index scenario_out = [(-1, 0); (-1, 4)] /\
  (forall e, In e (edge_index scenario_out) -> ~ (0 <= fst e < 7)) /\
  Several.several_supernodes_block scenario = Ok scenario_locals /\
  (forall e, In e (Several.concat_reindexed_clean_edge_index scenario_locals) ->
             0 <= fst e < 7 /\ 0 <= snd e < 7).
Proof.
  split; [vm_compute; reflexivity |].
  repeat (split; [reflexivity |]).
  split.
  - intros e [<- | [<- | []]]; simpl; lia.
  - split; [vm_compute; reflexivity |].
    intros e [<- | [<- | []]]; simpl; lia.
Qed.

(** ** Edges and their bookkeeping at the worked batches *)

(** C2 at its input. The node counts are the expected 4 and 3, with the
    super nodes at the indices 3 and 6, but the sub-surface endpoint of
    each kept edge is left at the sentinel [-1]: the edges come out as
    [(-1,0)] and [(-1,4)], not [(3,0)] and [(6,4)]. The
    several-super-nodes block does rewire them to [(3,0)] and [(6,4)]. *)
Theorem scenario_rewiring :
  Single.one_supernode_block scenario = Ok scenario_out /\
  natoms scenario_out = [4; 3] /\
  ptr scenario_out = [0; 4; 7] /\
  atomic_numbers scenario_out = [29; 29; 1; 84; 78; 8; 84] /\
  edge_index scenario_out = [(-1, 0); (-1, 4)] /\
  edge_index scenario_out <> [(3, 0); (6, 4)] /\
  exists l,
    Several.several_supernodes_block scenario = Ok l /\
    Several.concat_reindexed_clean_edge_index l = [(3, 0); (6, 4)].
Proof.
  split; [vm_compute; reflexivity |].
  repeat (split; [reflexivity |]).
  split; [discriminate |].
  destruct scenario_several as [l |] eqn:E; [| discriminate E].
  exists l. unfold scenario_several in E. inversion E; subst l.
  split; vm_compute; reflexivity.
Qed.

(** Under the literal reading of the second edge the outcome is no
    different: the edge [(0,1)] joins two sub-surface atoms and is
    dropped, and the edge [(0,2)] again comes out as [(-1,0)]. *)
Lemma scenario_literal_rewiring :
  exists d,
    Single.one_supernode_block scenario_literal = Ok d /\
    natoms d = [4; 3] /\
    edge_index d = [(-1, 0)].
Proof.
  eexists. split; [vm_compute; reflexivity |]. split; reflexivity.
Qed.

(** C3 at [scenario]: the new edge index has the two kept edges and no
    super-node self-loop, while the new offsets hold four rows, the two
    kept ones and one appended zero row per graph. *)
Theorem scenario_offsets_misaligned :
  Single.one_supernode_block scenario = Ok scenario_out /\
  edge_index scenario_out = [(-1, 0); (-1, 4)] /\
  cell_offsets scenario_out = [(0, 0, 0); (0, 0, 0); (0, 1, 0); (0, 0, 0)] /\
  length (cell_offsets scenario_out) <> length (edge_index scenario_out).
Proof.
  split; [vm_compute; reflexivity |].
  repeat (split; [reflexivity |]). discriminate.
Qed.

(** C4 at [surface_edges]: each graph is the source of one new edge,
    but the counts are taken through the batch vector of the input, in
    which the nodes 0 and 3 both belong to graph 0, so [neighbors] has
    the single entry 2. *)
Theorem stale_batch_neighbors :
  Single.one_supernode_block surface_edges = Ok surface_edges_out /\
  ptr surface_edges_out = [0; 3; 6] /\
  batch surface_edges_out = [0; 0; 0; 1; 1; 1] /\
  edge_index surface_edges_out = [(0, 1); (3, 4)] /\
  edges_from surface_edges_out 0 = 1%nat /\
  edges_from surface_edges_out 1 = 1%nat /\
  Torch.index_select (batch surface_edges) (map fst (edge_index surface_edges_out))
    = Ok [0; 0] /\
  neighbors surface_edges_out = [2].
Proof.
  split; [vm_compute; reflexivity |].
  repeat split; reflexivity.
Qed.

(** ** The offsets against the edges, for every batch *)

Lemma masked_length {A : Type} (t : list A) (m : list bool) :
  length t = length m -> length (Torch.masked t m) = Torch.count_true m.
Proof.
  revert m. induction t as [| a t IH]; intros [| [|] m] H; simpl in *;
    try discriminate; auto.
Qed.

Lemma mask_select_length {A : Type} (t : list A) (m : list bool) (rows : list A) :
  Torch.mask_select t m = Ok rows -> length rows = Torch.count_true m.
Proof.
  unfold Torch.mask_select. destruct (Nat.eqb_spec (length t) (length m)) as [E | E];
    intro H; inversion H. apply masked_length. assumption.
Qed.

Lemma count_true_app (m1 m2 : list bool) :
  Torch.count_true (m1 ++ m2) = (Torch.count_true m1 + Torch.count_true m2)%nat.
Proof.
  induction m1 as [| [|] m1 IH]; simpl; auto.
Qed.

Lemma count_true_concat (ms : list (list bool)) :
  Torch.count_true (concat ms) = list_sum (map Torch.count_true ms).
Proof.
  induction ms as [| m ms IH]; simpl.
  - reflexivity.
  - rewrite count_true_app, IH. reflexivity.
Qed.

Lemma list_sum_pointwise {A B : Type} (f : A -> nat) (g : B -> nat)
    (l1 : list A) (l2 : list B) :
  length l1 = length l2 ->
  (forall i x y, nth_error l1 i = Some x -> nth_error l2 i = Some y ->
                 f x = S (g y)) ->
  list_sum (map f l1) = (list_sum (map g l2) + length l1)%nat.
Proof.
  revert l2. induction l1 as [| a l1 IH]; intros [| c l2] Hlen H;
    simpl in *; try discriminate.
  - reflexivity.
  - rewrite (H 0%nat a c eq_refl eq_refl).
    rewrite (IH l2); [lia | lia |].
    intros i x y Hx Hy. apply (H (S i)); assumption.
Qed.

Lemma cat_concat {A : Type} (ts : list (list A)) (v : list A) :
  Torch.cat ts = Ok v -> v = concat ts.
Proof.
  destruct ts; simpl; intro H; inversion H. reflexivity.
Qed.

(** The offsets keep one row per kept edge and gain one zero row per
    graph. *)
Lemma kept_offsets_length (bs : nat) (co_batch : list (list (Z * Z * Z)))
    (nb : list (list bool)) (v : list (Z * Z * Z)) :
  Single.kept_offsets bs co_batch nb = Ok v ->
  length nb = bs ->
  length v = (list_sum (map Torch.count_true nb) + bs)%nat.
Proof.
  intros H Hlen. unfold Single.kept_offsets in H. bind_steps H.
  apply cat_concat in H. subst v. rewrite length_concat.
  destruct (mapM_range _ _ _ E) as (Hl & Hnth).
  rewrite (list_sum_pointwise (@length (Z * Z * Z)) Torch.count_true v0 nb);
    [lia | lia |].
  intros i x y Hx Hy.
  assert (Hi : (i < bs)%nat).
  { rewrite <- Hl. apply nth_error_Some. rewrite Hx. discriminate. }
  destruct (Hnth i Hi) as (blk & Hblk & Hf). rewrite Hx in Hblk.
  inversion Hblk; subst blk. bind_steps Hf. inversion Hf; subst x.
  apply item_Ok in E1. rewrite Hy in E1. inversion E1; subst v1.
  rewrite length_app, (mask_select_length _ _ _ E2). simpl. lia.
Qed.

Lemma enumerate_length {A : Type} (l : list A) : length (enumerate l) = length l.
Proof.
  unfold enumerate. rewrite length_combine, length_seq. lia.
Qed.

(** What the block stores in the offsets and in the edge index. *)
Lemma block_offsets (b data : Batch) :
  Single.one_supernode_block b = Ok data ->
  exists bs non_sub ids co_batch s t both all_nb ei_nb assoc,
    Single.batch_size b = Ok bs /\
    mapM (Single.non_sub_nodes_of b) (range bs) = Ok non_sub /\
    Single.is_not_sub (map fst (edge_index b)) ids non_sub = Ok s /\
    Single.is_not_sub (map snd (edge_index b)) ids non_sub = Ok t /\
    Single.both_sub s t = Ok both /\
    Single.kept_offsets bs co_batch (map (map negb) both) = Ok (cell_offsets data) /\
    Torch.cat (map (map negb) both) = Ok all_nb /\
    Torch.mask_select (edge_index b) all_nb = Ok ei_nb /\
    Single.reindex assoc ei_nb = Ok (edge_index data).
Proof.
  intro H. unfold Single.one_supernode_block in H. cbv beta zeta in H.
  bind_steps H. inversion H; subst data; clear H. fields.
  do 10 eexists. repeat split; eassumption.
Qed.

(** For every batch on which the block completes, the new offsets have
    exactly [batch_size] more rows than the new edge index has
    columns. *)
Lemma offsets_exceed_edges (b data : Batch) (bs : nat) :
  Single.one_supernode_block b = Ok data ->
  Single.batch_size b = Ok bs ->
  length (cell_offsets data) = (length (edge_index data) + bs)%nat.
Proof.
  intros Hblock Hbs.
  destruct (block_offsets _ _ Hblock)
    as (bs' & non_sub & ids & co & s & t & both & all_nb & ei_nb & assoc
        & Hbs' & Hnon & Hs & Ht & Hboth & Hco & Hcat & Hsel & Hre).
  rewrite Hbs in Hbs'. inversion Hbs'; subst bs'; clear Hbs'.
  assert (Hlen : length (map (map negb) both) = bs).
  { rewrite length_map, (mapM_length _ _ _ Hboth), length_combine.
    unfold Single.is_not_sub in Hs, Ht.
    rewrite (mapM_length _ _ _ Hs), (mapM_length _ _ _ Ht), enumerate_length.
    rewrite (mapM_length _ _ _ Hnon). unfold range. rewrite length_seq. lia. }
  rewrite (kept_offsets_length _ _ _ _ Hco Hlen).
  unfold Single.reindex in Hre. rewrite (mapM_length _ _ _ Hre).
  rewrite (mask_select_length _ _ _ Hsel).
  apply cat_concat in Hcat. subst all_nb. rewrite count_true_concat. reflexivity.
Qed.

(** ** The several-super-nodes block: one super node per atom type *)

Lemma eq_scalar_true (l : list Z) (v : Z) (j : nat) :
  nth_error (Torch.eq_scalar l v) j = Some true <-> nth_error l j = Some v.
Proof.
  unfold Torch.eq_scalar. rewrite nth_error_map.
  destruct (nth_error l j) as [x |]; simpl; split; intro H; try discriminate.
  - inversion H as [E]. apply Z.eqb_eq in E. subst x. reflexivity.
  - inversion H; subst x. rewrite Z.eqb_refl. reflexivity.
Qed.

Lemma zip_and_true (m1 m2 : list bool) (j : nat) :
  nth_error (Torch.zip_with andb m1 m2) j = Some true <->
  nth_error m1 j = Some true /\ nth_error m2 j = Some true.
Proof.
  revert m2 j. induction m1 as [| a m1 IH]; intros [| c m2] [| j]; simpl;
    try (split; [discriminate | intros [H1 H2]; discriminate]).
  - destruct a, c; simpl; split; try discriminate; try tauto;
      intros [H1 H2]; discriminate.
  - apply IH.
Qed.

Lemma where_from_In (k : Z) (m : list bool) (x : Z) :
  In x (Torch.where_from k m) <->
  exists j, x = k + Z.of_nat j /\ nth_error m j = Some true.
Proof.
  revert k. induction m as [| c m IH]; intro k.
  - simpl. split; [contradiction | intros (j & _ & H); destruct j; discriminate].
  - assert (Hshift : In x (Torch.where_from (k + 1) m) <->
                     exists j, x = k + Z.of_nat (S j) /\ nth_error m j = Some true).
    { rewrite IH. split; intros (j & Hx & Hj); exists j; split; try assumption; lia. }
    destruct c; simpl.
    + split.
      * intros [H | H].
        -- exists 0%nat. split; [simpl; lia | reflexivity].
        -- apply Hshift in H. destruct H as (j & Hx & Hj). exists (S j). auto.
      * intros ([| j] & Hx & Hj).
        -- left. simpl in Hx. lia.
        -- right. apply Hshift. eauto.
    + split.
      * intro H. apply Hshift in H. destruct H as (j & Hx & Hj). exists (S j). auto.
      * intros ([| j] & Hx & Hj); [discriminate |]. apply Hshift. eauto.
Qed.

Lemma where_In (m : list bool) (j : nat) :
  In (Z.of_nat j) (Torch.where_ m) <-> nth_error m j = Some true.
Proof.
  unfold Torch.where_. rewrite where_from_In. split.
  - intros (j' & Hx & Hj). assert (j' = j) by lia. subst j'. assumption.
  - intro H. exists j. split; [lia | assumption].
Qed.

(** [where] lists its indices in increasing order, so the first one is
    the lowest. *)
Lemma where_from_head_min (k : Z) (m : list bool) (h : Z) (rest : list Z) :
  Torch.where_from k m = h :: rest ->
  k <= h /\ forall x, In x (Torch.where_from k m) -> h <= x.
Proof.
  revert k. induction m as [| c m IH]; intros k H.
  - discriminate H.
  - destruct c; simpl in *.
    + inversion H; subst h rest. split; [lia |].
      intros x [Hx | Hx]; [lia | apply where_from_ge in Hx; lia].
    + destruct (IH _ H) as (Hk & Hmin). split; [lia | assumption].
Qed.

Lemma masked_In {A : Type} (t : list A) (m : list bool) (a : A) :
  In a (Torch.masked t m) ->
  exists j, nth_error t j = Some a /\ nth_error m j = Some true.
Proof.
  revert m. induction t as [| x t IH]; intros [| c m] H; simpl in H;
    try contradiction.
  destruct c; simpl in H.
  - destruct H as [H | H].
    + exists 0%nat. subst x. split; reflexivity.
    + destruct (IH _ H) as (j & H1 & H2). exists (S j). split; assumption.
  - destruct (IH _ H) as (j & H1 & H2). exists (S j). split; assumption.
Qed.

Lemma count_insert_In (x y : Z) (tbl : list (Z * Z)) :
  In y (map fst (Torch.count_insert x tbl)) -> y = x \/ In y (map fst tbl).
Proof.
  induction tbl as [| [z c] tbl IH]; simpl; intro H.
  - destruct H as [H | H]; [left; symmetry; assumption | contradiction].
  - destruct (x <? z).
    + simpl in H. destruct H as [H | H]; [left; symmetry; assumption | right; assumption].
    + destruct (x =? z); simpl in H.
      * right. assumption.
      * destruct H as [H | H]; [right; left; assumption |].
        destruct (IH H) as [E | E]; [left; assumption | right; right; assumption].
Qed.

Lemma count_fold_In (l : list Z) (acc : list (Z * Z)) (y : Z) :
  In y (map fst (fold_left (fun a x => Torch.count_insert x a) l acc)) ->
  In y l \/ In y (map fst acc).
Proof.
  revert acc. induction l as [| x l IH]; simpl; intros acc H.
  - right. assumption.
  - destruct (IH _ H) as [E | E]; [left; right; assumption |].
    destruct (count_insert_In _ _ _ E) as [E' | E'];
      [left; left; symmetry; assumption | right; assumption].
Qed.

(** Every value [unique] returns occurs in its argument. *)
Lemma unique_In (l : list Z) (y : Z) : In y (Torch.unique l) -> In y l.
Proof.
  unfold Torch.unique, Torch.unique_counts. simpl. intro H.
  destruct (count_fold_In _ _ _ H) as [E | E]; [assumption | contradiction].
Qed.

(** The mask of the sub-surface atoms of graph [i]. *)
Lemma sub_mask_true (b : Batch) (i j : nat) :
  nth_error (Torch.zip_with andb (Torch.eq_scalar (tags b) 0)
               (Torch.eq_scalar (batch b) (Z.of_nat i))) j = Some true
  <-> is_sub b i j.
Proof.
  unfold is_sub. rewrite zip_and_true, !eq_scalar_true. reflexivity.
Qed.

(** The atom types found for graph [i] are atomic numbers of its
    sub-surface atoms. *)
Lemma atom_types_of_member (b : Batch) (i : nat) (ts : list Z) (an : Z) :
  aligned b ->
  Several.atom_types_of b i = Ok ts ->
  In an ts ->
  exists j, is_member b i an j.
Proof.
  intros [Hal _] H Hin. unfold Several.atom_types_of in H.
  rewrite mask_mul_same in H
    by (unfold Torch.eq_scalar; rewrite !length_map; assumption).
  simpl in H. bind_steps H. inversion H; subst ts.
  apply unique_In in Hin. unfold Torch.mask_select in E.
  destruct (Nat.eqb _ _); inversion E; subst v.
  apply masked_In in Hin. destruct Hin as (j & Han & Hm).
  exists j. split; [assumption | apply sub_mask_true; assumption].
Qed.

(** The composition of the super node of type [an] in graph [i] lists
    exactly the sub-surface atoms of graph [i] with that atomic
    number. *)
Lemma members_of_spec (b : Batch) (i : nat) (an : Z) (members : list Z) :
  aligned b ->
  Several.members_of b i an = Ok members ->
  exists m, members = Torch.where_ m /\
            forall j, nth_error m j = Some true <-> is_member b i an j.
Proof.
  intros [Hal Han] H. unfold Several.members_of in H.
  rewrite mask_mul_same in H
    by (unfold Torch.eq_scalar; rewrite !length_map; congruence).
  simpl in H.
  rewrite mask_mul_same in H
    by (rewrite zip_with_length; unfold Torch.eq_scalar; rewrite !length_map;
        congruence).
  simpl in H. inversion H. eexists. split; [reflexivity |].
  intro j. unfold is_member, is_sub.
  rewrite !zip_and_true, !eq_scalar_true. tauto.
Qed.

Lemma composition_lengths (b : Batch) (bs : nat) (types : list (list Z))
    (comp : list (list (list Z))) :
  Several.composition b bs types = Ok comp ->
  length types = bs ->
  length comp = length types /\
  forall i c ts, nth_error comp i = Some c -> nth_error types i = Some ts ->
                 mapM (Several.members_of b i) ts = Ok c.
Proof.
  intros H Hlen. unfold Several.composition in H.
  destruct (mapM_range _ _ _ H) as (Hl & Hnth). split; [congruence |].
  intros i c ts Hc Hts.
  assert (Hi : (i < bs)%nat).
  { rewrite <- Hlen. apply nth_error_Some. rewrite Hts. discriminate. }
  destruct (Hnth i Hi) as (y & Hy & Hf). rewrite Hc in Hy. inversion Hy; subst y.
  bind_steps Hf. apply item_Ok in E. rewrite Hts in E. inversion E; subst v.
  assumption.
Qed.

Lemma concat_prefix_same_lengths {A B : Type} (l1 : list (list A))
    (l2 : list (list B)) (i : nat) :
  length l1 = length l2 ->
  (forall k x y, nth_error l1 k = Some x -> nth_error l2 k = Some y ->
                 length x = length y) ->
  length (concat (firstn i l1)) = length (concat (firstn i l2)).
Proof.
  revert l2 i. induction l1 as [| a l1 IH]; intros [| c l2] i Hlen H;
    simpl in Hlen; try discriminate.
  - rewrite !firstn_nil. reflexivity.
  - destruct i as [| i]; simpl; [reflexivity |].
    rewrite !length_app, (H 0%nat a c eq_refl eq_refl).
    rewrite (IH l2 i); [reflexivity | lia |].
    intros k x y Hx Hy. apply (H (S k)); assumption.
Qed.

Lemma index_select_head {A : Type} (t : list A) (h : Z) (rest : list Z)
    (rows : list A) (v : A) :
  Torch.index_select t (h :: rest) = Ok rows ->
  Torch.get rows 0 = Ok v ->
  Torch.get t h = Ok v.
Proof.
  unfold Torch.index_select. simpl. intros H Hv.
  destruct (Torch.get t h) as [a | e]; simpl in H; [| discriminate H].
  destruct (mapM (Torch.get t) rest) as [r | e]; simpl in H; [| discriminate H].
  inversion H; subst rows. unfold Torch.get in Hv.
  cbn [length] in Hv. rewrite Z.ltb_irrefl in Hv.
  destruct ((0 <=? 0) && (0 <? Z.of_nat (S (length r)))); [| discriminate Hv].
  simpl in Hv. inversion Hv. reflexivity.
Qed.

(** The super node of atom type [an] in graph [i] -- the [k]-th type of
    that graph, at the place [offset + k] of [supernodes_pos] -- is made
    of exactly the sub-surface atoms of graph [i] whose atomic number is
    [an], and its position is the position of the member with the
    lowest index. *)
Lemma first_member_of_partition (b : Batch) (bs : nat)
    (types : list (list Z)) (comp : list (list (list Z)))
    (idx : list (list Z)) (sn_pos : list vec3)
    (i k : nat) (ts : list Z) (an : Z) :
  aligned b ->
  Several.supernodes b bs = Ok (types, comp, idx, sn_pos) ->
  nth_error types i = Some ts ->
  nth_error ts k = Some an ->
  exists (members : list Z) (first : nat) (v : vec3),
    (exists c, nth_error comp i = Some c /\ nth_error c k = Some members) /\
    (forall j, In (Z.of_nat j) members <-> is_member b i an j) /\
    is_member b i an first /\
    (forall j, is_member b i an j -> (first <= j)%nat) /\
    nth_error (pos b) first = Some v /\
    nth_error sn_pos (length (concat (firstn i types)) + k) = Some v.
Proof.
  intros Hal H Hts Han. unfold Several.supernodes in H. bind_steps H.
  inversion H; subst v v0 v1 v2; clear H.
  destruct (mapM_range _ _ _ E) as (Hlen & Hnth).
  assert (Hi : (i < bs)%nat).
  { rewrite <- Hlen. apply nth_error_Some. rewrite Hts. discriminate. }
  destruct (Hnth i Hi) as (ts' & Hts' & Hof). rewrite Hts in Hts'.
  inversion Hts'; subst ts'; clear Hts'.
  destruct (composition_lengths _ _ _ _ E0 Hlen) as (Hclen & Hcomp).
  destruct (nth_error comp i) as [c |] eqn:Hc.
  2:{ apply nth_error_None in Hc. lia. }
  specialize (Hcomp i c ts Hc Hts).
  destruct (mapM_nth _ _ _ Hcomp k an Han) as (members & Hmem & Hmof).
  destruct (members_of_spec b i an members Hal Hmof) as (m & Hm & Hspec).
  assert (Hin : forall j, In (Z.of_nat j) members <-> is_member b i an j).
  { intro j. rewrite Hm, where_In. apply Hspec. }
  destruct (atom_types_of_member b i ts an Hal Hof
              (nth_error_In _ _ Han)) as (j0 & Hj0).
  destruct members as [| h rest] eqn:Hmembers.
  { apply Hin in Hj0. contradiction. }
  unfold Torch.where_ in Hm. symmetry in Hm.
  destruct (where_from_head_min _ _ _ _ Hm) as (Hh & Hmin).
  rewrite Hm in Hmin.
  assert (Hpos : exists v, nth_error sn_pos (length (concat (firstn i types)) + k)
                           = Some v /\ nth_error (pos b) (Z.to_nat h) = Some v).
  { unfold Several.first_positions in E2.
    assert (Hflat : nth_error (concat comp) (length (concat (firstn i comp)) + k)
                    = Some (h :: rest)).
    { rewrite (concat_block_nth comp i k c Hc); [assumption |].
      apply nth_error_Some. rewrite Hmem. discriminate. }
    rewrite (concat_prefix_same_lengths comp types i Hclen) in Hflat.
    - destruct (mapM_nth _ _ _ E2 _ _ Hflat) as (v & Hv & Hf).
      exists v. split; [assumption |]. bind_steps Hf.
      apply get_nat; [assumption |].
      eapply index_select_head; eassumption.
    - intros k' x y Hx Hy.
      assert (Hk' : (k' < bs)%nat).
      { rewrite <- Hlen. apply nth_error_Some. rewrite Hy. discriminate. }
      pose proof (composition_lengths _ _ _ _ E0 Hlen) as (_ & Hc').
      apply (mapM_length _ _ _ (Hc' k' x y Hx Hy)). }
  destruct Hpos as (v & Hsn & Hv).
  exists (h :: rest), (Z.to_nat h), v.
  assert (Hfirst : is_member b i an (Z.to_nat h)).
  { apply Hin. rewrite Z2Nat.id by assumption. left. reflexivity. }
  split; [exists c; split; [reflexivity | assumption] |].
  split; [assumption |]. split; [assumption |].
  split; [| split; assumption].
  intros j Hj. apply Hin in Hj. apply Hmin in Hj. lia.
Qed.

(** *** The partition stage never raises on an aligned batch *)

Lemma mapM_intro {A B : Type} (f : A -> result B) (l : list A) :
  (forall x, In x l -> exists y, f x = Ok y) -> exists r, mapM f l = Ok r.
Proof.
  induction l as [| x l IH]; intro H; simpl.
  - exists []. reflexivity.
  - destruct (H x (or_introl eq_refl)) as (y & Hy).
    destruct IH as (r & Hr); [intros z Hz; apply H; right; assumption |].
    exists (y :: r). rewrite Hy, Hr. reflexivity.
Qed.

Lemma get_in_range {A : Type} (t : list A) (k : Z) :
  0 <= k < len t -> exists a, Torch.get t k = Ok a.
Proof.
  unfold Torch.get, len. intro H.
  destruct (Z.ltb_spec k 0); [lia |].
  destruct (Z.leb_spec 0 k); [| lia].
  destruct (Z.ltb_spec k (Z.of_nat (length t))); [| lia].
  simpl. destruct (nth_error t (Z.to_nat k)) as [a |] eqn:E.
  - exists a. reflexivity.
  - apply nth_error_None in E. lia.
Qed.

Lemma where_bound (m : list bool) (x : Z) :
  In x (Torch.where_ m) -> 0 <= x < len m.
Proof.
  unfold Torch.where_. intro H. apply where_from_In in H.
  destruct H as (j & Hx & Hj).
  assert (j < length m)%nat by (apply nth_error_Some; rewrite Hj; discriminate).
  unfold len. lia.
Qed.

Lemma members_of_aligned (b : Batch) (i : nat) (an : Z) :
  aligned b ->
  exists m, Several.members_of b i an = Ok (Torch.where_ m) /\
            length m = length (batch b).
Proof.
  intros [Hal Han]. unfold Several.members_of.
  assert (H1 : length (Torch.eq_scalar (atomic_numbers b) an)
               = length (Torch.eq_scalar (tags b) 0))
    by (unfold Torch.eq_scalar; rewrite !length_map; congruence).
  assert (H2 : length (Torch.zip_with andb (Torch.eq_scalar (atomic_numbers b) an)
                         (Torch.eq_scalar (tags b) 0))
               = length (Torch.eq_scalar (batch b) (Z.of_nat i))).
  { rewrite zip_with_length by exact H1.
    unfold Torch.eq_scalar. rewrite !length_map. congruence. }
  rewrite (mask_mul_same _ _ H1). simpl.
  rewrite (mask_mul_same _ _ H2). simpl.
  eexists. split; [reflexivity |].
  rewrite zip_with_length by exact H2. rewrite H2.
  unfold Torch.eq_scalar. rewrite length_map. reflexivity.
Qed.

Lemma atom_types_of_aligned (b : Batch) (i : nat) :
  aligned b -> exists ts, Several.atom_types_of b i = Ok ts.
Proof.
  intros [Hal Han]. unfold Several.atom_types_of.
  rewrite mask_mul_same
    by (unfold Torch.eq_scalar; rewrite !length_map; assumption).
  simpl. unfold Torch.mask_select.
  rewrite zip_with_length by (unfold Torch.eq_scalar; rewrite !length_map; assumption).
  unfold Torch.eq_scalar. rewrite length_map.
  replace (length (atomic_numbers b)) with (length (tags b)) by congruence.
  rewrite Nat.eqb_refl. simpl. eexists. reflexivity.
Qed.

(** On a batch whose per-atom arrays have one entry per atom and whose
    pointer array has an entry for every graph, lines 358 to 399 run to
    their end: in particular no partition is empty when its first
    position is read. *)
Lemma supernodes_complete (b : Batch) (bs : nat) :
  aligned b ->
  length (pos b) = length (batch b) ->
  (bs < length (ptr b))%nat ->
  exists r, Several.supernodes b bs = Ok r.
Proof.
  intros Hal Hpos Hptr. unfold Several.supernodes.
  destruct (mapM_intro (Several.atom_types_of b) (range bs)) as (types & Ht).
  { intros i _. apply atom_types_of_aligned. assumption. }
  rewrite Ht. simpl.
  destruct (mapM_range _ _ _ Ht) as (Hlen & Hnth).
  assert (Hc : exists comp, Several.composition b bs types = Ok comp).
  { unfold Several.composition. apply mapM_intro. intros i Hi.
    apply in_seq in Hi. destruct (Hnth i ltac:(lia)) as (ts & Hts & _).
    unfold item. rewrite Hts. simpl. apply mapM_intro. intros an _.
    destruct (members_of_aligned b i an Hal) as (m & Hm & _). eauto. }
  destruct Hc as (comp & Hc). rewrite Hc. simpl.
  assert (Hi : exists idx, Several.supernode_indexes b (map (@length Z) types)
                           = Ok idx).
  { unfold Several.supernode_indexes. apply mapM_intro. intros i Hi.
    apply in_seq in Hi. rewrite length_map in Hi.
    destruct (nth_error (map (@length Z) types) i) as [n |] eqn:En.
    2:{ apply nth_error_None in En. rewrite length_map in En. lia. }
    unfold item. rewrite En. simpl. apply mapM_intro. intros sn _.
    destruct (get_in_range (tl (ptr b)) (Z.of_nat i)) as (p & Hp).
    { unfold len. destruct (ptr b); simpl in *; lia. }
    rewrite Hp. simpl. eauto. }
  destruct Hi as (idx & Hi). rewrite Hi. simpl.
  assert (Hp : exists sn_pos, Several.first_positions b comp = Ok sn_pos).
  { unfold Several.first_positions. apply mapM_intro. intros sn Hsn.
    apply in_concat in Hsn. destruct Hsn as (c & Hcin & Hsnc).
    apply In_nth_error in Hcin. destruct Hcin as (i & Hci).
    destruct (composition_lengths _ _ _ _ Hc Hlen) as (Hclen & Hcomp).
    destruct (nth_error types i) as [ts |] eqn:Hts.
    2:{ apply nth_error_None in Hts.
        assert (i < length comp)%nat by (apply nth_error_Some; rewrite Hci; discriminate).
        lia. }
    specialize (Hcomp i c ts Hci Hts).
    apply In_nth_error in Hsnc. destruct Hsnc as (k & Hk).
    destruct (mapM_nth_inv _ _ _ Hcomp _ _ Hk) as (an & Han & Hmof).
    assert (Hi' : (i < bs)%nat).
    { rewrite <- Hlen. apply nth_error_Some. rewrite Hts. discriminate. }
    destruct (Hnth i Hi') as (ts' & Hts' & Hof). rewrite Hts in Hts'.
    inversion Hts'; subst ts'.
    destruct (atom_types_of_member b i ts an Hal Hof (nth_error_In _ _ Han))
      as (j0 & Hj0).
    destruct (members_of_spec b i an sn Hal Hmof) as (m & Hm & Hspec).
    destruct (members_of_aligned b i an Hal) as (m' & Hm' & Hlm).
    assert (Hsn' : sn = Torch.where_ m') by congruence.
    destruct (mapM_intro (Torch.get (pos b)) sn) as (rows & Hrows).
    { intros x Hx. apply get_in_range. rewrite Hsn' in Hx.
      apply where_bound in Hx. unfold len in *. lia. }
    unfold Torch.index_select. rewrite Hrows. simpl.
    apply get_in_range.
    assert (Hne : In (Z.of_nat j0) sn) by (rewrite Hm; apply where_In, Hspec; assumption).
    apply mapM_length in Hrows. unfold len.
    destruct sn; [contradiction | simpl in Hrows; lia]. }
  destruct Hp as (sn_pos & Hp). rewrite Hp. simpl. eauto.
Qed.


(** Case analysis on the index of a lookup in a literal list. *)
Ltac idx_cases H :=
  repeat match type of H with
         | nth_error _ ?j = _ =>
             is_var j; destruct j; simpl in *; try discriminate
         end.

(** ** The single-super-node block runs to its end on a well-formed batch *)

Lemma get_ok {A : Type} (t : list A) (k : Z) :
  - len t <= k < len t -> exists a, Torch.get t k = Ok a.
Proof.
  unfold Torch.get, len. intro H.
  set (k' := if k <? 0 then Z.of_nat (length t) + k else k).
  assert (Hk' : 0 <= k' < Z.of_nat (length t)).
  { subst k'. destruct (Z.ltb_spec k 0); lia. }
  destruct (Z.leb_spec 0 k'); [| lia].
  destruct (Z.ltb_spec k' (Z.of_nat (length t))); [| lia].
  simpl. destruct (nth_error t (Z.to_nat k')) as [a |] eqn:E.
  - exists a. reflexivity.
  - apply nth_error_None in E. lia.
Qed.

Lemma get_nth {A : Type} (t : list A) (i : nat) (a : A) :
  nth_error t i = Some a -> Torch.get t (Z.of_nat i) = Ok a.
Proof.
  intro H. unfold Torch.get.
  assert (Hi : (i < length t)%nat) by (apply nth_error_Some; rewrite H; discriminate).
  destruct (Z.ltb_spec (Z.of_nat i) 0); [lia |].
  destruct (Z.leb_spec 0 (Z.of_nat i)); [| lia].
  destruct (Z.ltb_spec (Z.of_nat i) (Z.of_nat (length t))); [| lia].
  simpl. rewrite Nat2Z.id, H. reflexivity.
Qed.

Lemma get_last_ok {A : Type} (t : list A) (n : nat) (a : A) :
  length t = S n -> nth_error t n = Some a -> Torch.get t (-1) = Ok a.
Proof.
  intros Hlen H. unfold Torch.get. rewrite Hlen.
  destruct (Z.ltb_spec (-1) 0); [| lia].
  replace (Z.of_nat (S n) + -1) with (Z.of_nat n) by lia.
  destruct (Z.leb_spec 0 (Z.of_nat n)); [| lia].
  destruct (Z.ltb_spec (Z.of_nat n) (Z.of_nat (S n))); [| lia].
  simpl. rewrite Nat2Z.id, H. reflexivity.
Qed.

Lemma index_select_ok {A : Type} (t : list A) (idx : list Z) :
  (forall x, In x idx -> - len t <= x < len t) ->
  exists rows, Torch.index_select t idx = Ok rows.
Proof.
  intro H. apply mapM_intro. intros x Hx. apply get_ok. auto.
Qed.

Lemma mask_select_ok {A : Type} (t : list A) (m : list bool) :
  length t = length m -> Torch.mask_select t m = Ok (Torch.masked t m).
Proof.
  intro H. unfold Torch.mask_select. rewrite H, Nat.eqb_refl. reflexivity.
Qed.

Lemma cat_ok {A : Type} (ts : list (list A)) :
  (0 < length ts)%nat -> Torch.cat ts = Ok (concat ts).
Proof.
  destruct ts; simpl; intro H; [lia | reflexivity].
Qed.

Lemma full_ok {A : Type} (n : Z) (v : A) :
  0 <= n -> Torch.full n v = Ok (repeat v (Z.to_nat n)).
Proof.
  intro H. unfold Torch.full. destruct (Z.ltb_spec n 0); [lia | reflexivity].
Qed.

Lemma set_nth_length {A : Type} (t : list A) (k : nat) (v : A) :
  length (Torch.set_nth t k v) = length t.
Proof.
  revert k. induction t as [| a t IH]; intros [| k]; simpl; auto.
Qed.

Lemma set_nth_other {A : Type} (t : list A) (k j : nat) (v : A) :
  j <> k -> nth_error (Torch.set_nth t k v) j = nth_error t j.
Proof.
  revert k j. induction t as [| a t IH]; intros [| k] [| j] H; simpl;
    try reflexivity; try congruence.
  apply IH. congruence.
Qed.

Lemma count_set_nth (t : list bool) (k : nat) :
  nth_error t k = Some false ->
  Torch.count_true (Torch.set_nth t k true) = S (Torch.count_true t).
Proof.
  revert k. induction t as [| a t IH]; intros [| k] H; simpl in *;
    try discriminate.
  - inversion H; subst a. reflexivity.
  - destruct a; rewrite IH by assumption; reflexivity.
Qed.

(** Marking distinct positions of a mask, all of them false before,
    raises the number of true entries by the number of positions. *)
Lemma index_put_count (idx : list Z) :
  forall t : list bool,
    NoDup idx ->
    (forall x, In x idx -> 0 <= x /\ nth_error t (Z.to_nat x) = Some false) ->
    exists t',
      Torch.index_put t idx true = Ok t' /\
      length t' = length t /\
      Torch.count_true t' = (Torch.count_true t + length idx)%nat.
Proof.
  induction idx as [| k idx IH]; intros t Hnd H; simpl.
  - exists t. repeat split. lia.
  - inversion Hnd as [| k' idx' Hnotin Hnd']; subst.
    destruct (H k (or_introl eq_refl)) as (Hk & Hf).
    assert (Hlt : (Z.to_nat k < length t)%nat)
      by (apply nth_error_Some; rewrite Hf; discriminate).
    unfold Torch.put.
    destruct (Z.ltb_spec k 0); [lia |].
    destruct (Z.leb_spec 0 k); [| lia].
    destruct (Z.ltb_spec k (Z.of_nat (length t))); [| lia].
    simpl.
    destruct (IH (Torch.set_nth t (Z.to_nat k) true) Hnd') as (t' & Ht' & Hl & Hc).
    { intros x Hx. destruct (H x (or_intror Hx)) as (Hx0 & Hxf).
      split; [assumption |]. rewrite set_nth_other; [assumption |].
      intro E. apply Hnotin. replace k with x by lia. assumption. }
    exists t'. split; [assumption |]. split.
    + rewrite Hl. apply set_nth_length.
    + rewrite Hc, count_set_nth by assumption. lia.
Qed.

Lemma index_put_ok {A : Type} (idx : list Z) (v : A) :
  forall t : list A,
    (forall x, In x idx -> 0 <= x < len t) ->
    exists t', Torch.index_put t idx v = Ok t' /\ length t' = length t.
Proof.
  induction idx as [| k idx IH]; intros t H; simpl.
  - exists t. split; reflexivity.
  - destruct (H k (or_introl eq_refl)) as (Hk0 & Hk1). unfold len in Hk1.
    unfold Torch.put.
    destruct (Z.ltb_spec k 0); [lia |].
    destruct (Z.leb_spec 0 k); [| lia].
    destruct (Z.ltb_spec k (Z.of_nat (length t))); [| lia].
    simpl.
    destruct (IH (Torch.set_nth t (Z.to_nat k) v)) as (t' & Ht' & Hl).
    { intros x Hx. unfold len. rewrite set_nth_length. apply H. right. assumption. }
    exists t'. split; [assumption |]. rewrite Hl. apply set_nth_length.
Qed.

Lemma where_from_NoDup (k : Z) (m : list bool) : NoDup (Torch.where_from k m).
Proof.
  revert k. induction m as [| c m IH]; intro k; simpl.
  - constructor.
  - destruct c; [| apply IH]. constructor; [| apply IH].
    intro H. apply where_from_ge in H. lia.
Qed.

Lemma NoDup_concat_disjoint {A : Type} (ls : list (list A)) :
  (forall l, In l ls -> NoDup l) ->
  (forall i j l1 l2 x, nth_error ls i = Some l1 -> nth_error ls j = Some l2 ->
                       In x l1 -> In x l2 -> i = j) ->
  NoDup (concat ls).
Proof.
  induction ls as [| l ls IH]; intros Hnd Hdis; simpl.
  - constructor.
  - apply NoDup_app.
    + apply Hnd. left. reflexivity.
    + apply IH.
      * intros l' Hl'. apply Hnd. right. assumption.
      * intros i j l1 l2 x H1 H2 Hx1 Hx2.
        assert (S i = S j) by (eapply (Hdis (S i) (S j)); eassumption). lia.
    + intros x Hx Hc. apply in_concat in Hc. destruct Hc as (l' & Hl' & Hxl').
      apply In_nth_error in Hl'. destruct Hl' as (j & Hj).
      assert (0%nat = S j) by (eapply (Hdis 0%nat (S j) l l' x); try eassumption; reflexivity).
      discriminate.
Qed.

(** *** Counting over the graphs *)

Lemma fold_max_ge (l : list Z) (a : Z) :
  a <= fold_left Z.max l a /\ forall x, In x l -> x <= fold_left Z.max l a.
Proof.
  revert a. induction l as [| y l IH]; intro a; simpl.
  - split; [lia | contradiction].
  - destruct (IH (Z.max a y)) as (H1 & H2). split; [lia |].
    intros x [Hx | Hx]; [subst; lia | auto].
Qed.

(** With non-negative graph ids the batch size is at least one and
    bounds every id. *)
Lemma batch_size_bounds (b : Batch) (bs : nat) :
  Single.batch_size b = Ok bs ->
  (forall x, In x (batch b) -> 0 <= x) ->
  (0 < bs)%nat /\ forall x, In x (batch b) -> 0 <= x < Z.of_nat bs.
Proof.
  unfold Single.batch_size, Torch.max_list. intros H Hpos.
  destruct (batch b) as [| x0 l]; simpl in H; [discriminate H |].
  inversion H; subst bs; clear H.
  destruct (fold_max_ge l x0) as (H0 & Hl).
  pose proof (Hpos x0 (or_introl eq_refl)) as Hx0.
  split; [lia |]. intros x [Hx | Hx].
  - subst x. lia.
  - pose proof (Hl x Hx). pose proof (Hpos x (or_intror Hx)). lia.
Qed.

Lemma list_sum_add {A : Type} (f g : A -> nat) (l : list A) :
  list_sum (map (fun x => f x + g x)%nat l)
  = (list_sum (map f l) + list_sum (map g l))%nat.
Proof.
  induction l as [| x l IH]; simpl; [reflexivity | rewrite IH; lia].
Qed.

Lemma list_sum_ext {A : Type} (f g : A -> nat) (l : list A) :
  (forall x, In x l -> f x = g x) -> list_sum (map f l) = list_sum (map g l).
Proof.
  intro H. rewrite (map_ext_in f g l H). reflexivity.
Qed.

Lemma list_sum_le {A : Type} (f g : A -> nat) (l : list A) :
  (forall x, In x l -> (f x <= g x)%nat) ->
  (list_sum (map f l) <= list_sum (map g l))%nat.
Proof.
  induction l as [| x l IH]; simpl; intro H; [lia |].
  pose proof (H x (or_introl eq_refl)).
  specialize (IH (fun y Hy => H y (or_intror Hy))). lia.
Qed.

Lemma list_sum_const {A : Type} (c : nat) (l : list A) :
  list_sum (map (fun _ => c) l) = (c * length l)%nat.
Proof.
  induction l as [| x l IH]; simpl; [lia | rewrite IH; lia].
Qed.

(** A list of per-graph values, summed through any measure, is the sum
    of that measure over the graph indices. *)
Lemma list_sum_range {A : Type} (g : A -> nat) (f : nat -> nat) (l : list A)
    (n : nat) :
  length l = n ->
  (forall i x, nth_error l i = Some x -> g x = f i) ->
  list_sum (map g l) = list_sum (map f (range n)).
Proof.
  intros Hlen H. f_equal. apply nth_error_ext. intro i.
  rewrite !nth_error_map. unfold range. rewrite nth_error_seq.
  destruct (nth_error l i) as [x |] eqn:E; simpl.
  - assert (Hi : (i < n)%nat) by (rewrite <- Hlen; apply nth_error_Some; rewrite E; discriminate).
    destruct (Nat.ltb_spec i n); [| lia]. simpl. rewrite (H i x E). reflexivity.
  - apply nth_error_None in E. destruct (Nat.ltb_spec i n); [lia | reflexivity].
Qed.

Lemma sum_list_len (ls : list (list Z)) :
  sum_list (map (@len Z) ls) = Z.of_nat (list_sum (map (@length Z) ls)).
Proof.
  induction ls as [| l ls IH]; simpl; [reflexivity |].
  rewrite sum_list_cons, IH. unfold len. lia.
Qed.

(** Exactly one graph index below [n] equals a graph id in [[0, n)]. *)
Lemma indicator_sum (c : Z) (n : nat) :
  0 <= c < Z.of_nat n ->
  list_sum (map (fun i => if Z.eqb c (Z.of_nat i) then 1%nat else 0%nat) (range n)) = 1%nat.
Proof.
  unfold range. revert c. induction n as [| n IH]; intros c H; [lia |].
  rewrite seq_S, map_app, list_sum_app. simpl.
  destruct (Z.eqb_spec c (Z.of_nat n)) as [E | E].
  - rewrite (list_sum_ext _ (fun _ => 0%nat)).
    + rewrite list_sum_const. lia.
    + intros i Hi. apply in_seq in Hi.
      destruct (Z.eqb_spec c (Z.of_nat i)); [lia | reflexivity].
  - rewrite IH by lia. reflexivity.
Qed.

(** Every atom is a sub-surface or another atom of exactly one graph. *)
Lemma node_partition (L : list (Z * Z)) (n : nat) :
  (forall tb, In tb L -> 0 <= snd tb < Z.of_nat n) ->
  list_sum (map (fun i => length (filter (sub_flag i) L)
                          + length (filter (non_sub_flag i) L))%nat (range n))
  = length L.
Proof.
  induction L as [| tb L IH]; intro H.
  - simpl. rewrite list_sum_const. lia.
  - rewrite (list_sum_ext _
      (fun i => ((if Z.eqb (snd tb) (Z.of_nat i) then 1 else 0)
                 + (length (filter (sub_flag i) L)
                    + length (filter (non_sub_flag i) L)))%nat)).
    + rewrite list_sum_add, IH, indicator_sum.
      * reflexivity.
      * apply H. left. reflexivity.
      * intros x Hx. apply H. right. assumption.
    + intros i _. simpl. unfold sub_flag at 1, non_sub_flag at 1.
      destruct (fst tb =? 0), (snd tb =? Z.of_nat i); simpl; lia.
Qed.

(** A source index inside the whole pointer range lies in exactly one
    of its consecutive ranges. *)
Lemma range_indicator_sum (p : nat -> Z) (s : Z) (n : nat) :
  (forall i, (i < n)%nat -> p i <= p (S i)) ->
  list_sum (map (fun i => if Z.leb (p i) s && Z.ltb s (p (S i))
                          then 1%nat else 0%nat)
                (range n))
  = (if Z.leb (p 0%nat) s && Z.ltb s (p n) then 1%nat else 0%nat).
Proof.
  unfold range. induction n as [| n IH]; intro Hmono.
  - simpl. destruct (Z.leb_spec (p 0%nat) s), (Z.ltb_spec s (p 0%nat));
      simpl; try reflexivity; lia.
  - rewrite seq_S, map_app, list_sum_app, IH by (intros; apply Hmono; lia).
    simpl.
    assert (H0n : p 0%nat <= p n).
    { clear IH. induction n as [| m IHm]; [lia |].
      specialize (IHm ltac:(intros; apply Hmono; lia)).
      pose proof (Hmono m ltac:(lia)). lia. }
    pose proof (Hmono n ltac:(lia)).
    destruct (Z.leb_spec (p 0%nat) s), (Z.ltb_spec s (p n)),
             (Z.leb_spec (p n) s), (Z.ltb_spec s (p (S n)));
      simpl; try reflexivity; lia.
Qed.

Lemma edge_partition (p : nat -> Z) (srcs : list Z) (n : nat) :
  (forall i, (i < n)%nat -> p i <= p (S i)) ->
  (forall s, In s srcs -> p 0%nat <= s < p n) ->
  list_sum (map (fun i => length (filter (fun s => (p i <=? s) && (s <? p (S i)))
                                         srcs)) (range n))
  = length srcs.
Proof.
  intros Hmono. induction srcs as [| s srcs IH]; intro H.
  - simpl. rewrite list_sum_const. lia.
  - rewrite (list_sum_ext _
      (fun i => ((if Z.leb (p i) s && Z.ltb s (p (S i)) then 1 else 0)
                 + length (filter (fun s => Z.leb (p i) s && Z.ltb s (p (S i)))
                                  srcs))%nat)).
    + rewrite list_sum_add, IH, range_indicator_sum by auto using in_cons.
      pose proof (H s (or_introl eq_refl)).
      destruct (Z.leb_spec (p 0%nat) s), (Z.ltb_spec s (p n)); simpl; lia.
    + intros i _. simpl.
      destruct ((p i <=? s) && (s <? p (S i))); reflexivity.
Qed.

(** *** Comprehensions that cannot raise *)

Lemma mapM_nth_intro {A B : Type} (f : A -> result B) (l : list A)
    (P : nat -> B -> Prop) :
  (forall i x, nth_error l i = Some x -> exists y, f x = Ok y /\ P i y) ->
  exists r, mapM f l = Ok r /\ length r = length l /\
            forall i y, nth_error r i = Some y -> P i y.
Proof.
  intro H. destruct (mapM_intro f l) as (r & Hr).
  { intros x Hx. apply In_nth_error in Hx. destruct Hx as (i & Hi).
    destruct (H i x Hi) as (y & Hy & _). eauto. }
  exists r. split; [assumption |]. split; [eapply mapM_length; eassumption |].
  intros i y Hy. destruct (mapM_nth_inv _ _ _ Hr _ _ Hy) as (x & Hx & Hfx).
  destruct (H i x Hx) as (y' & Hy' & HP). congruence.
Qed.

Lemma mapM_range_intro {B : Type} (f : nat -> result B) (n : nat)
    (P : nat -> B -> Prop) :
  (forall i, (i < n)%nat -> exists y, f i = Ok y /\ P i y) ->
  exists r, mapM f (range n) = Ok r /\ length r = n /\
            forall i y, nth_error r i = Some y -> P i y.
Proof.
  intro H. destruct (mapM_nth_intro f (range n) P) as (r & Hr & Hl & HP).
  { intros i x Hx. apply range_nth_inv in Hx. destruct Hx as (-> & Hi). auto. }
  exists r. split; [assumption |]. split; [| assumption].
  rewrite Hl. apply length_seq.
Qed.

Lemma combine_nth_error {A B : Type} (l1 : list A) (l2 : list B) (i : nat)
    (x : A) (y : B) :
  nth_error (combine l1 l2) i = Some (x, y) ->
  nth_error l1 i = Some x /\ nth_error l2 i = Some y.
Proof.
  revert l2 i. induction l1 as [| a l1 IH]; intros [| c l2] [| i] H;
    simpl in *; try discriminate.
  - inversion H. split; reflexivity.
  - apply IH. assumption.
Qed.

Lemma enumerate_nth {A : Type} (l : list A) (i j : nat) (x : A) :
  nth_error (enumerate l) i = Some (j, x) -> j = i /\ nth_error l i = Some x.
Proof.
  unfold enumerate. intro H. apply combine_nth_error in H.
  destruct H as (H1 & H2). rewrite nth_error_seq in H1.
  destruct (Nat.ltb_spec i (length l)); inversion H1; subst.
  split; [reflexivity | exact H2].
Qed.

Lemma item_nth {A : Type} (l : list A) (i : nat) (a : A) :
  nth_error l i = Some a -> item l i = Ok a.
Proof.
  intro H. apply item_Ok. assumption.
Qed.

Lemma nth_error_lt {A : Type} (l : list A) (i : nat) :
  (i < length l)%nat -> exists a, nth_error l i = Some a.
Proof.
  intro H. destruct (nth_error l i) as [a |] eqn:E; [eauto |].
  apply nth_error_None in E. lia.
Qed.

Lemma scatter_length {A : Type} (t : list A) (m : list bool) (vals : list A) :
  length (Torch.scatter t m vals) = length t.
Proof.
  revert m vals. induction t as [| a t IH]; intros [| [|] m] vals; simpl;
    try reflexivity.
  - destruct vals; simpl; rewrite IH; reflexivity.
  - rewrite IH. reflexivity.
Qed.

Lemma masked_subset {A : Type} (t : list A) (m : list bool) (a : A) :
  In a (Torch.masked t m) -> In a t.
Proof.
  intro H. apply masked_In in H. destruct H as (j & Hj & _).
  eapply nth_error_In. eassumption.
Qed.

Lemma zip_and_map {A : Type} (f g : A -> bool) (l : list A) :
  Torch.zip_with andb (map f l) (map g l) = map (fun x => f x && g x) l.
Proof.
  induction l as [| x l IH]; simpl; [reflexivity | rewrite IH; reflexivity].
Qed.

Lemma count_true_map {A : Type} (f : A -> bool) (l : list A) :
  Torch.count_true (map f l) = length (filter f l).
Proof.
  induction l as [| x l IH]; simpl; [reflexivity |].
  destruct (f x); simpl; rewrite IH; reflexivity.
Qed.

(** Gathering the rows under a mask no longer than the array cannot
    raise. *)
Lemma gather_where_ok {A : Type} (src : list A) (m : list bool) :
  (length m <= length src)%nat ->
  exists rows, Torch.index_select src (Torch.where_ m) = Ok rows.
Proof.
  intro H. apply index_select_ok. intros x Hx. apply where_bound in Hx.
  unfold len in *. lia.
Qed.

(** *** The node part *)

Lemma mapM_map_ok {A B : Type} (f : A -> result B) (g : A -> B) (l : list A) :
  (forall x, In x l -> f x = Ok (g x)) -> mapM f l = Ok (map g l).
Proof.
  induction l as [| x l IH]; simpl; intro H; [reflexivity |].
  rewrite (H x (or_introl eq_refl)), IH by auto. reflexivity.
Qed.

Lemma sub_mask_length (b : Batch) (i : nat) :
  length (tags b) = length (batch b) -> length (sub_mask b i) = length (batch b).
Proof.
  intro H. unfold sub_mask. rewrite zip_with_length;
    unfold Torch.eq_scalar; rewrite !length_map; congruence.
Qed.

Lemma non_sub_mask_length (b : Batch) (i : nat) :
  length (tags b) = length (batch b) ->
  length (non_sub_mask b i) = length (batch b).
Proof.
  intro H. unfold non_sub_mask. rewrite zip_with_length;
    unfold Torch.ne_scalar, Torch.eq_scalar; rewrite !length_map; congruence.
Qed.

Lemma partition_complete (b : Batch) (bs : nat) :
  length (tags b) = length (batch b) ->
  mapM (Single.sub_nodes_of b) (range bs)
    = Ok (map (fun i => Torch.where_ (sub_mask b i)) (range bs)) /\
  mapM (Single.non_sub_nodes_of b) (range bs)
    = Ok (map (fun i => Torch.where_ (non_sub_mask b i)) (range bs)).
Proof.
  intro H. split; apply mapM_map_ok; intros i _.
  - apply sub_nodes_of_aligned. assumption.
  - apply non_sub_nodes_of_aligned. assumption.
Qed.

Lemma map_range_nth {B : Type} (g : nat -> B) (n i : nat) (y : B) :
  nth_error (map g (range n)) i = Some y -> (i < n)%nat /\ y = g i.
Proof.
  rewrite nth_error_map. destruct (nth_error (range n) i) as [k |] eqn:E;
    simpl; intro H; inversion H.
  apply range_nth_inv in E. destruct E as (-> & Hi). split; [assumption | reflexivity].
Qed.

Lemma map_range_length {B : Type} (g : nat -> B) (n : nat) :
  length (map g (range n)) = n.
Proof.
  unfold range. rewrite length_map, length_seq. reflexivity.
Qed.

Lemma non_sub_mask_true (b : Batch) (i j : nat) :
  nth_error (non_sub_mask b i) j = Some true ->
  nth_error (batch b) j = Some (Z.of_nat i).
Proof.
  unfold non_sub_mask. rewrite zip_and_true, eq_scalar_true. tauto.
Qed.

(** The kept atoms of all graphs are distinct atoms of the batch. *)
Lemma non_sub_nodes_distinct (b : Batch) (bs : nat) :
  length (tags b) = length (batch b) ->
  NoDup (concat (map (fun i => Torch.where_ (non_sub_mask b i)) (range bs))) /\
  forall x,
    In x (concat (map (fun i => Torch.where_ (non_sub_mask b i)) (range bs))) ->
    0 <= x < len (batch b).
Proof.
  intro Hal. split.
  - apply NoDup_concat_disjoint.
    + intros l Hl. apply in_map_iff in Hl. destruct Hl as (i & <- & _).
      apply where_from_NoDup.
    + intros i j l1 l2 x H1 H2 Hx1 Hx2.
      apply map_range_nth in H1, H2. destruct H1 as (_ & ->), H2 as (_ & ->).
      unfold Torch.where_ in Hx1, Hx2. apply where_from_In in Hx1, Hx2.
      destruct Hx1 as (j1 & E1 & T1), Hx2 as (j2 & E2 & T2).
      assert (j1 = j2) by lia. subst j2.
      apply non_sub_mask_true in T1, T2. rewrite T1 in T2. inversion T2. lia.
  - intros x Hx. apply in_concat in Hx. destruct Hx as (l & Hl & Hxl).
    apply in_map_iff in Hl. destruct Hl as (i & <- & _).
    apply where_bound in Hxl. unfold len in *.
    rewrite non_sub_mask_length in Hxl by assumption. assumption.
Qed.

Lemma sn_mean_complete (b : Batch) (bs : nat) (src : list vec3) :
  length (tags b) = length (batch b) ->
  length src = length (batch b) ->
  exists sn,
    Single.sn_mean bs src (map (fun i => Torch.where_ (sub_mask b i)) (range bs))
      = Ok sn /\
    length sn = bs.
Proof.
  intros Hal Hsrc. unfold Single.sn_mean.
  destruct (mapM_range_intro
              (fun i => s <- item (map (fun i => Torch.where_ (sub_mask b i))
                                       (range bs)) i ;;
                        rows <- Torch.index_select src s ;;
                        Ok (Torch.mean0 rows))
              bs (fun _ _ => True)) as (sn & Hsn & Hl & _).
  - intros i Hi.
    rewrite (item_nth _ i (Torch.where_ (sub_mask b i)))
      by (rewrite nth_error_map, range_nth by assumption; reflexivity).
    simpl.
    destruct (gather_where_ok src (sub_mask b i)) as (rows & Hrows).
    { rewrite sub_mask_length by assumption. lia. }
    rewrite Hrows. simpl. eauto.
  - exists sn. split; assumption.
Qed.

Lemma compact_complete {A : Type} (b : Batch) (bs : nat) (src : list A)
    (extra : nat -> result A) :
  length (tags b) = length (batch b) ->
  length src = length (batch b) ->
  (0 < bs)%nat ->
  (forall i, (i < bs)%nat -> exists x, extra i = Ok x) ->
  exists v,
    Single.compact bs src
      (map (fun i => Torch.where_ (non_sub_mask b i)) (range bs)) extra = Ok v.
Proof.
  intros Hal Hsrc Hbs Hextra. unfold Single.compact.
  destruct (mapM_range_intro
              (fun i => ns <- item (map (fun i => Torch.where_ (non_sub_mask b i))
                                        (range bs)) i ;;
                        rows <- Torch.index_select src ns ;;
                        x <- extra i ;;
                        Ok (rows ++ [x]))
              bs (fun _ _ => True)) as (blocks & Hb & Hl & _).
  - intros i Hi.
    rewrite (item_nth _ i (Torch.where_ (non_sub_mask b i)))
      by (rewrite nth_error_map, range_nth by assumption; reflexivity).
    simpl.
    destruct (gather_where_ok src (non_sub_mask b i)) as (rows & Hrows).
    { rewrite non_sub_mask_length by assumption. lia. }
    rewrite Hrows. simpl. destruct (Hextra i Hi) as (x & Hx). rewrite Hx.
    simpl. eauto.
  - rewrite Hb. simpl. rewrite cat_ok by lia. eauto.
Qed.

(** *** The edge part *)

Lemma ids_length (b : Batch) (i : nat) : length (ids b i) = length (edge_index b).
Proof.
  unfold ids. rewrite !length_map. reflexivity.
Qed.

Lemma get_pt (b : Batch) (i : nat) :
  (i < length (ptr b))%nat -> Torch.get (ptr b) (Z.of_nat i) = Ok (pt b i).
Proof.
  intro H. apply get_nth. unfold pt. apply nth_error_nth'. assumption.
Qed.

Lemma ei_batch_ids_complete (b : Batch) (bs : nat) :
  length (ptr b) = S bs ->
  mapM (Single.ei_batch_ids_of b) (range bs) = Ok (map (ids b) (range bs)).
Proof.
  intro Hptr. apply mapM_map_ok. intros i Hi. apply in_seq in Hi.
  unfold Single.ei_batch_ids_of.
  rewrite get_pt by lia. simpl.
  replace (Z.of_nat i + 1) with (Z.of_nat (S i)) by lia.
  rewrite get_pt by lia. simpl.
  rewrite mask_mul_same by (rewrite !length_map; reflexivity).
  rewrite zip_and_map. reflexivity.
Qed.

Lemma per_batch_complete {A : Type} (b : Batch) (bs : nat) (src : list A) :
  length src = length (edge_index b) ->
  exists r,
    Single.per_batch bs src (map (ids b) (range bs)) = Ok r /\
    length r = bs /\
    forall i x, nth_error r i = Some x ->
                length x = Torch.count_true (ids b i).
Proof.
  intro Hsrc. unfold Single.per_batch. apply mapM_range_intro. intros i Hi.
  rewrite (item_nth _ i (ids b i))
    by (rewrite nth_error_map, range_nth by assumption; reflexivity).
  simpl. rewrite mask_select_ok by (rewrite ids_length; assumption).
  eexists. split; [reflexivity |].
  apply masked_length. rewrite ids_length. assumption.
Qed.

Lemma is_not_sub_complete (b : Batch) (bs : nat) (row : list Z)
    (non_sub : list (list Z)) :
  length row = length (edge_index b) ->
  length non_sub = bs ->
  exists r,
    Single.is_not_sub row (map (ids b) (range bs)) non_sub = Ok r /\
    length r = bs /\
    forall i x, nth_error r i = Some x ->
                length x = Torch.count_true (ids b i).
Proof.
  intros Hrow Hns. unfold Single.is_not_sub.
  destruct (mapM_nth_intro
              (fun ins => m <- item (map (ids b) (range bs)) (fst ins) ;;
                          r <- Torch.mask_select row m ;;
                          Ok (Torch.isin r (snd ins)))
              (enumerate non_sub)
              (fun i x => length x = Torch.count_true (ids b i)))
    as (r & Hr & Hl & HP).
  - intros i [j ns] Hi. apply enumerate_nth in Hi. destruct Hi as (-> & Hi).
    assert (Hlt : (i < bs)%nat)
      by (rewrite <- Hns; apply nth_error_Some; rewrite Hi; discriminate).
    simpl.
    rewrite (item_nth _ i (ids b i))
      by (rewrite nth_error_map, range_nth by assumption; reflexivity).
    simpl. rewrite mask_select_ok by (rewrite ids_length; assumption).
    simpl. eexists. split; [reflexivity |].
    unfold Torch.isin. rewrite length_map.
    apply masked_length. rewrite ids_length. assumption.
  - exists r. split; [assumption |]. split; [| assumption].
    rewrite Hl, enumerate_length. assumption.
Qed.

Lemma both_sub_complete (b : Batch) (bs : nat) (srcs tgts : list (list bool)) :
  length srcs = bs -> length tgts = bs ->
  (forall i x, nth_error srcs i = Some x -> length x = Torch.count_true (ids b i)) ->
  (forall i x, nth_error tgts i = Some x -> length x = Torch.count_true (ids b i)) ->
  exists r,
    Single.both_sub srcs tgts = Ok r /\
    length r = bs /\
    forall i x, nth_error r i = Some x ->
                length x = Torch.count_true (ids b i).
Proof.
  intros HS HT HSl HTl. unfold Single.both_sub.
  destruct (mapM_nth_intro
              (fun st => Torch.mask_mul (map negb (fst st)) (map negb (snd st)))
              (combine srcs tgts)
              (fun i x => length x = Torch.count_true (ids b i)))
    as (r & Hr & Hl & HP).
  - intros i [s t] Hi. apply combine_nth_error in Hi. destruct Hi as (Hs & Ht).
    simpl. pose proof (HSl i s Hs) as Hls. pose proof (HTl i t Ht) as Hlt.
    rewrite mask_mul_same by (rewrite !length_map; congruence).
    eexists. split; [reflexivity |].
    rewrite zip_with_length by (rewrite !length_map; congruence).
    rewrite length_map. assumption.
  - exists r. split; [assumption |]. split; [| assumption].
    rewrite Hl, length_combine. lia.
Qed.

Lemma kept_offsets_complete (b : Batch) (bs : nat)
    (co : list (list (Z * Z * Z))) (nb : list (list bool)) :
  (0 < bs)%nat ->
  length co = bs -> length nb = bs ->
  (forall i x, nth_error co i = Some x -> length x = Torch.count_true (ids b i)) ->
  (forall i x, nth_error nb i = Some x -> length x = Torch.count_true (ids b i)) ->
  exists v, Single.kept_offsets bs co nb = Ok v.
Proof.
  intros Hbs Hco Hnb Hcol Hnbl. unfold Single.kept_offsets.
  destruct (mapM_range_intro
              (fun i => c <- item co i ;;
                        n <- item nb i ;;
                        rows <- Torch.mask_select c n ;;
                        Ok (rows ++ [(0, 0, 0)]))
              bs (fun _ _ => True)) as (blocks & Hb & Hl & _).
  - intros i Hi.
    destruct (nth_error_lt co i ltac:(lia)) as (c & Hc).
    destruct (nth_error_lt nb i ltac:(lia)) as (n & Hn).
    rewrite (item_nth _ _ _ Hc). simpl. rewrite (item_nth _ _ _ Hn). simpl.
    rewrite mask_select_ok by (rewrite (Hcol i c Hc), (Hnbl i n Hn); reflexivity).
    simpl. eauto.
  - rewrite Hb. simpl. rewrite cat_ok by lia. eauto.
Qed.

(** On a well-formed batch every edge falls into the range of exactly
    one graph, so the per-graph masks together have one entry per
    edge. *)
Lemma all_not_both_length (b : Batch) (bs : nat) (nb : list (list bool)) :
  length (ptr b) = S bs ->
  nth_error (ptr b) 0 = Some 0 ->
  nth_error (ptr b) bs = Some (len (batch b)) ->
  (forall i p q, nth_error (ptr b) i = Some p ->
                 nth_error (ptr b) (S i) = Some q -> p <= q) ->
  (forall s t, In (s, t) (edge_index b) ->
               0 <= s < len (batch b) /\ 0 <= t < len (batch b)) ->
  length nb = bs ->
  (forall i x, nth_error nb i = Some x -> length x = Torch.count_true (ids b i)) ->
  length (concat nb) = length (edge_index b).
Proof.
  intros Hlen H0 Hn Hmono Hedges Hnb Hnbl.
  rewrite length_concat.
  rewrite (list_sum_range (@length bool)
             (fun i => length (filter (fun s => (pt b i <=? s) && (s <? pt b (S i)))
                                      (map fst (edge_index b)))) nb bs Hnb).
  - rewrite (edge_partition (pt b) (map fst (edge_index b)) bs).
    + apply length_map.
    + intros i Hi. apply (Hmono i); unfold pt; apply nth_error_nth'; lia.
    + intros s Hs. apply in_map_iff in Hs. destruct Hs as ([s' t] & <- & Hin).
      unfold pt. rewrite (nth_error_nth _ _ _ H0), (nth_error_nth _ _ _ Hn).
      simpl. apply (Hedges s' t Hin).
  - intros i x Hx. rewrite (Hnbl i x Hx). unfold ids. apply count_true_map.
Qed.

(** *** The lookup table and the last steps *)

Lemma count_true_repeat_false (n : nat) : Torch.count_true (repeat false n) = 0%nat.
Proof.
  induction n as [| n IH]; simpl; auto.
Qed.

Lemma arange_length (a c : Z) : length (Torch.arange a c) = Z.to_nat (c - a).
Proof.
  unfold Torch.arange. rewrite length_map, length_seq. reflexivity.
Qed.

(** The lookup table gets as many new indices as there are kept
    atoms. *)
Lemma new_ids_complete (non_sub : list (list Z)) (bs : nat) :
  length non_sub = bs ->
  (0 < bs)%nat ->
  exists vals,
    Single.new_ids bs (Single.new_ptr (Single.new_sn_ids non_sub bs)) = Ok vals /\
    length vals = length (concat non_sub).
Proof.
  intros Hlen Hbs. unfold Single.new_ids.
  destruct (mapM_range_intro
              (fun e =>
                 lo <- Torch.get (Single.new_ptr (Single.new_sn_ids non_sub bs))
                         (Z.of_nat e) ;;
                 hi <- Torch.get (Single.new_ptr (Single.new_sn_ids non_sub bs))
                         (Z.of_nat e + 1) ;;
                 Ok (Torch.arange lo (hi - 1)))
              bs
              (fun e r => forall ns, nth_error non_sub e = Some ns ->
                                     length r = length ns))
    as (rs & Hrs & Hl & HP).
  - intros e He.
    rewrite (get_nth _ e _ (new_ptr_nth non_sub bs e ltac:(lia))). cbn [bind].
    replace (Z.of_nat e + 1) with (Z.of_nat (S e)) by lia.
    rewrite (get_nth _ (S e) _ (new_ptr_nth non_sub bs (S e) ltac:(lia))).
    cbn [bind].
    eexists. split; [reflexivity |]. intros ns Hns.
    rewrite arange_length, (prefix_len_succ _ _ _ Hns). unfold len at 2. lia.
  - rewrite Hrs. simpl. rewrite cat_ok by lia.
    eexists. split; [reflexivity |]. rewrite !length_concat.
    rewrite (list_sum_range (@length Z) (fun i => length (nth i non_sub [])) rs bs Hl).
    + symmetry. apply list_sum_range; [assumption |].
      intros i x Hx. rewrite (nth_error_nth _ _ [] Hx). reflexivity.
    + intros i x Hx.
      assert (Hi : (i < bs)%nat)
        by (rewrite <- Hl; apply nth_error_Some; rewrite Hx; discriminate).
      destruct (nth_error_lt non_sub i ltac:(lia)) as (ns & Hns).
      rewrite (HP i x Hx ns Hns), (nth_error_nth _ _ [] Hns). reflexivity.
Qed.

Lemma reindex_complete (assoc : list Z) (ei : list (Z * Z)) :
  (forall s t, In (s, t) ei -> 0 <= s < len assoc /\ 0 <= t < len assoc) ->
  exists r, Single.reindex assoc ei = Ok r.
Proof.
  intro H. unfold Single.reindex. apply mapM_intro. intros [s t] Hin.
  destruct (H s t Hin) as (Hs & Ht). simpl.
  destruct (get_ok assoc s ltac:(lia)) as (s' & Hs').
  destruct (get_ok assoc t ltac:(lia)) as (t' & Ht').
  rewrite Hs', Ht'. simpl. eauto.
Qed.

Lemma edge_lengths_complete (p : list vec3) (ei : list (Z * Z)) :
  (forall s t, In (s, t) ei -> - len p <= s < len p /\ - len p <= t < len p) ->
  exists d, Single.edge_lengths p ei = Ok d.
Proof.
  intro H. unfold Single.edge_lengths.
  destruct (index_select_ok p (map fst ei)) as (ps & Hps).
  { intros x Hx. apply in_map_iff in Hx. destruct Hx as ([s t] & <- & Hin).
    apply (H s t Hin). }
  destruct (index_select_ok p (map snd ei)) as (pt' & Hpt).
  { intros x Hx. apply in_map_iff in Hx. destruct Hx as ([s t] & <- & Hin).
    apply (H s t Hin). }
  rewrite Hps, Hpt. simpl. eauto.
Qed.

Lemma fill_batch_complete (data_ptr : list Z) (todo : list (nat * Z)) :
  forall acc : list Z,
    (forall i p, In (i, p) todo ->
       exists hi, Torch.get data_ptr (Z.of_nat i + 1) = Ok hi /\
                  0 <= p /\ hi <= len acc) ->
    exists v, Single.fill_batch data_ptr todo acc = Ok v.
Proof.
  induction todo as [| [i p] todo IH]; intros acc H; simpl.
  - eauto.
  - destruct (H i p (or_introl eq_refl)) as (hi & Hhi & Hp & Hle).
    rewrite Hhi. simpl.
    destruct (index_put_ok (Torch.arange p hi) (Z.of_nat i) acc) as (acc' & Ha & Hl).
    { intros x Hx. apply arange_In in Hx. lia. }
    rewrite Ha. simpl. apply IH. intros j q Hin.
    destruct (H j q (or_intror Hin)) as (hj & Hhj & Hq & Hlj).
    exists hj. unfold len in *. rewrite Hl. auto.
Qed.

(** On a well-formed batch the new batch has no more nodes than the
    input, every graph trading at least one sub-surface atom for its
    super node. *)
Lemma new_total_le (b : Batch) (bs : nat) :
  length (tags b) = length (batch b) ->
  (forall x, In x (batch b) -> 0 <= x < Z.of_nat bs) ->
  (forall i, (i < bs)%nat -> (0 < sub_count b i)%nat) ->
  sum_list (map (@len Z)
              (map (fun i => Torch.where_ (non_sub_mask b i)) (range bs)))
  + Z.of_nat bs <= len (batch b).
Proof.
  intros Hal Hb Hsub. rewrite sum_list_len.
  rewrite (list_sum_range (@length Z) (non_sub_count b) _ bs
             (map_range_length _ bs)).
  2:{ intros i x Hx. apply map_range_nth in Hx. destruct Hx as (_ & ->).
      unfold Torch.where_. rewrite where_from_length.
      apply count_non_sub_flags. assumption. }
  assert (Hpart := node_partition (combine (tags b) (batch b)) bs).
  assert (Hin : forall tb, In tb (combine (tags b) (batch b)) ->
                           0 <= snd tb < Z.of_nat bs).
  { intros [t c] Hin. apply in_combine_r in Hin. simpl. apply Hb. assumption. }
  specialize (Hpart Hin).
  rewrite list_sum_add, length_combine, Hal, Nat.min_id in Hpart.
  assert (Hone : (list_sum (map (fun _ => 1%nat) (range bs))
                  <= list_sum (map (fun i => length (filter (sub_flag i)
                                                       (combine (tags b) (batch b))))
                                   (range bs)))%nat).
  { apply list_sum_le. intros i Hi. apply in_seq in Hi.
    apply (Hsub i). lia. }
  rewrite list_sum_const in Hone. unfold range in Hone at 1.
  rewrite length_seq in Hone.
  unfold non_sub_count, len. lia.
Qed.

Lemma mask_put_ok {A : Type} (t : list A) (m : list bool) (vals : list A) :
  length t = length m ->
  length vals = Torch.count_true m ->
  Torch.mask_put t m vals = Ok (Torch.scatter t m vals).
Proof.
  intros H1 H2. unfold Torch.mask_put. rewrite H1, H2, !Nat.eqb_refl. reflexivity.
Qed.

(** X1. The single-super-node block raises nothing on a well-formed
    batch: aligned per-atom arrays, a pointer array that cuts the atoms
    into consecutive ranges, edges between atoms of the batch with one
    offset row each, and a sub-surface atom in every graph. *)
Lemma block_completes (b : Batch) (bs : nat) :
  well_formed b bs -> exists data, Single.one_supernode_block b = Ok data.
Proof.
  intros (Hbs & Hnonneg & [Hal Han] & Hpos & Hrel & Hfor & Hfix & Hptr & Hp0
          & Hpn & Hmono & Hco & Hedges & Hsub).
  destruct (batch_size_bounds b bs Hbs Hnonneg) as (Hbs1 & Hbound).
  destruct (partition_complete b bs Hal) as (Hsubn & Hnonn).
  assert (Hnsl : length (map (fun i => Torch.where_ (non_sub_mask b i)) (range bs))
                 = bs) by apply map_range_length.
  destruct (non_sub_nodes_distinct b bs Hal) as (Hnd & Hnsb).
  pose proof (new_total_le b bs Hal Hbound Hsub) as Htotal.
  pose proof (sum_lens_nonneg
                (map (fun i => Torch.where_ (non_sub_mask b i)) (range bs)))
    as Hsum0.
  unfold Single.one_supernode_block. cbv beta zeta.
  rewrite Hbs. cbn [bind]. rewrite Hsubn. cbn [bind]. rewrite Hnonn. cbn [bind].
  (* aggregates and per-atom arrays *)
  destruct (sn_mean_complete b bs (pos b) Hal Hpos) as (snp & Hsnp & Hsnpl).
  destruct (sn_mean_complete b bs (pos_relaxed b) Hal Hrel) as (snr & Hsnr & Hsnrl).
  destruct (sn_mean_complete b bs (force b) Hal Hfor) as (snf & Hsnf & Hsnfl).
  rewrite Hsnp. cbn [bind]. rewrite Hsnr. cbn [bind]. rewrite Hsnf. cbn [bind].
  assert (Hitem : forall (l : list vec3), length l = bs ->
            forall i, (i < bs)%nat -> exists x, item l i = Ok x).
  { intros l Hl i Hi. destruct (nth_error_lt l i ltac:(lia)) as (x & Hx).
    exists x. apply item_nth. assumption. }
  destruct (compact_complete b bs (atomic_numbers b) (fun _ => Ok 84)
              Hal Han Hbs1 ltac:(eauto)) as (van & Hvan).
  destruct (compact_complete b bs (pos b) (item snp) Hal Hpos Hbs1
              (Hitem snp Hsnpl)) as (vpos & Hvpos).
  destruct (compact_complete b bs (pos_relaxed b) (item snr) Hal Hrel Hbs1
              (Hitem snr Hsnrl)) as (vrel & Hvrel).
  destruct (compact_complete b bs (force b) (item snf) Hal Hfor Hbs1
              (Hitem snf Hsnfl)) as (vfor & Hvfor).
  destruct (compact_complete b bs (fixed b) (fun _ => Ok (Fin 1))
              Hal Hfix Hbs1 ltac:(eauto)) as (vfix & Hvfix).
  destruct (compact_complete b bs (tags b) (fun _ => Ok 0)
              Hal Hal Hbs1 ltac:(eauto)) as (vtag & Hvtag).
  rewrite Hvan. cbn [bind]. rewrite Hvpos. cbn [bind]. rewrite Hvrel. cbn [bind].
  rewrite Hvfor. cbn [bind]. rewrite Hvfix. cbn [bind]. rewrite Hvtag. cbn [bind].
  (* edges per graph *)
  rewrite (ei_batch_ids_complete b bs Hptr). cbn [bind].
  destruct (per_batch_complete b bs (edge_index b) eq_refl) as (eib & Heib & _).
  destruct (per_batch_complete b bs (cell_offsets b) Hco) as (co & Hcob & Hcol & Hcon).
  rewrite Heib. cbn [bind]. rewrite Hcob. cbn [bind].
  destruct (is_not_sub_complete b bs (map fst (edge_index b)) _
              (length_map _ _) Hnsl) as (srcs & HS & HSl & HSn).
  destruct (is_not_sub_complete b bs (map snd (edge_index b)) _
              (length_map _ _) Hnsl) as (tgts & HT & HTl & HTn).
  rewrite HS. cbn [bind]. rewrite HT. cbn [bind].
  destruct (both_sub_complete b bs srcs tgts HSl HTl HSn HTn)
    as (both & Hboth & Hbl & Hbn).
  rewrite Hboth. cbn [bind].
  assert (Hnbl : length (map (map negb) both) = bs) by (rewrite length_map; assumption).
  assert (Hnbn : forall i x, nth_error (map (map negb) both) i = Some x ->
                             length x = Torch.count_true (ids b i)).
  { intros i x Hx. rewrite nth_error_map in Hx.
    destruct (nth_error both i) as [y |] eqn:Ey; inversion Hx.
    rewrite length_map. apply (Hbn i y Ey). }
  destruct (kept_offsets_complete b bs co _ Hbs1 Hcol Hnbl Hcon Hnbn) as (vco & Hvco).
  rewrite Hvco. cbn [bind].
  rewrite (cat_ok (map (map negb) both)) by lia. cbn [bind].
  rewrite (cat_ok (map (fun i => Torch.where_ (non_sub_mask b i)) (range bs))) by lia.
  cbn [bind].
  rewrite (cat_ok (map (fun i => Torch.where_ (sub_mask b i)) (range bs)))
    by (rewrite map_range_length; lia).
  cbn [bind].
  (* the lookup table *)
  rewrite mask_select_ok
    by (symmetry; apply (all_not_both_length b bs _ Hptr Hp0 Hpn Hmono Hedges
                           Hnbl Hnbn)).
  cbn [bind].
  rewrite (get_last_ok (ptr b) bs _ Hptr Hpn). cbn [bind].
  rewrite (full_ok (len (batch b) + Z.of_nat bs) false) by (unfold len; lia).
  cbn [bind].
  destruct (index_put_count
              (concat (map (fun i => Torch.where_ (non_sub_mask b i)) (range bs)))
              (repeat false (Z.to_nat (len (batch b) + Z.of_nat bs))) Hnd)
    as (mask & Hmask & Hmaskl & Hmaskc).
  { intros x Hx. apply Hnsb in Hx. split; [lia |].
    apply nth_error_repeat. unfold len in *. lia. }
  rewrite Hmask. cbn [bind].
  rewrite (full_ok (len (batch b) + Z.of_nat bs) (-1)) by (unfold len; lia).
  cbn [bind]. fields.
  destruct (new_ids_complete _ bs Hnsl Hbs1) as (vals & Hvals & Hvalsl).
  rewrite Hvals. cbn [bind].
  rewrite count_true_repeat_false in Hmaskc. simpl in Hmaskc.
  rewrite repeat_length in Hmaskl.
  rewrite mask_put_ok by (rewrite ?repeat_length; congruence).
  cbn [bind].
  set (assoc := Torch.scatter (repeat (-1) (Z.to_nat (len (batch b) + Z.of_nat bs)))
                  mask vals).
  assert (Hassocl : len assoc = len (batch b) + Z.of_nat bs).
  { unfold assoc, len. rewrite scatter_length, repeat_length. unfold len. lia. }
  set (total := sum_list
                  (map (@len Z)
                     (map (fun i => Torch.where_ (non_sub_mask b i)) (range bs)))
                + Z.of_nat bs) in *.
  assert (Hassoc : forall x, In x assoc -> x = -1 \/ 0 <= x < total).
  { intros x Hx. unfold assoc in Hx. apply scatter_In in Hx.
    destruct Hx as [Hx | Hx].
    - left. apply repeat_spec in Hx. assumption.
    - right. pose proof (new_ids_In _ bs vals x Hvals Hx) as Hb.
      rewrite firstn_all2 in Hb by lia. exact Hb. }
  destruct (reindex_complete assoc
              (Torch.masked (edge_index b) (concat (map (map negb) both))))
    as (ei_sn & Hre).
  { intros s t Hin. apply masked_subset in Hin. apply Hedges in Hin. lia. }
  rewrite Hre. cbn [bind].
  assert (Hsn : forall s t, In (s, t) ei_sn ->
                  (s = -1 \/ 0 <= s < total) /\ (t = -1 \/ 0 <= t < total)).
  { intros s t Hin. destruct (reindex_In _ _ _ _ _ Hre Hin) as (Hs & Ht).
    split; apply Hassoc; assumption. }
  assert (Hvposl : len vpos = total).
  { unfold len. rewrite (compact_length _ _ _ _ _ Hvpos).
    rewrite firstn_all2 by lia. reflexivity. }
  destruct (edge_lengths_complete vpos ei_sn) as (dist & Hdist).
  { intros s t Hin. destruct (Hsn s t Hin) as (Hs & Ht). rewrite Hvposl.
    subst total. lia. }
  rewrite Hdist. cbn [bind].
  destruct (index_select_ok (batch b) (map fst ei_sn)) as (srcb & Hsrcb).
  { intros x Hx. apply in_map_iff in Hx. destruct Hx as ([s t] & <- & Hin).
    destruct (Hsn s t Hin) as (Hs & _). simpl. subst total. lia. }
  rewrite Hsrcb. cbn [bind].
  (* the new batch vector *)
  assert (Hlast : nth_error (Single.new_ptr (Single.new_sn_ids
                    (map (fun i => Torch.where_ (non_sub_mask b i)) (range bs)) bs))
                    bs = Some total).
  { rewrite new_ptr_nth by lia. rewrite firstn_all2 by lia. reflexivity. }
  rewrite (get_last_ok _ bs _ (new_ptr_length _ bs) Hlast). cbn [bind].
  rewrite (full_ok total 0) by (subst total; lia). cbn [bind]. fields.
  destruct (fill_batch_complete
              (Single.new_ptr (Single.new_sn_ids
                 (map (fun i => Torch.where_ (non_sub_mask b i)) (range bs)) bs))
              (enumerate (removelast (Single.new_ptr (Single.new_sn_ids
                 (map (fun i => Torch.where_ (non_sub_mask b i)) (range bs)) bs))))
              (repeat 0 (Z.to_nat total))) as (vb & Hvb).
  { intros i p Hin. apply In_nth_error in Hin. destruct Hin as (k & Hk).
    apply enumerate_nth in Hk. destruct Hk as (Hik & Hk). subst k.
    assert (Hi : (i < bs)%nat).
    { assert (i < length (removelast (Single.new_ptr (Single.new_sn_ids
                 (map (fun i => Torch.where_ (non_sub_mask b i)) (range bs)) bs))))%nat
        by (apply nth_error_Some; rewrite Hk; discriminate).
      rewrite removelast_length, new_ptr_length in H. simpl in H. assumption. }
    rewrite removelast_nth in Hk by (rewrite new_ptr_length; lia).
    rewrite new_ptr_nth in Hk by lia.
    exists (sum_list (map (@len Z) (firstn (S i)
              (map (fun i => Torch.where_ (non_sub_mask b i)) (range bs))))
            + Z.of_nat (S i)).
    split; [| split].
    - replace (Z.of_nat i + 1) with (Z.of_nat (S i)) by lia.
      apply get_nth. apply new_ptr_nth. lia.
    - pose proof (sum_lens_nonneg (firstn i
              (map (fun i => Torch.where_ (non_sub_mask b i)) (range bs)))).
      assert (p = sum_list (map (@len Z) (firstn i
              (map (fun i => Torch.where_ (non_sub_mask b i)) (range bs))))
                  + Z.of_nat i) by congruence.
      lia.
    - pose proof (prefix_len_mono
                    (map (fun i => Torch.where_ (non_sub_mask b i)) (range bs))
                    (S i) bs ltac:(lia)) as Hm.
      rewrite (firstn_all2 (n := bs)) in Hm by lia.
      unfold len at 2. rewrite repeat_length. subst total. lia. }
  rewrite Hvb. cbn [bind]. eauto.
Qed.

(** The worked batch [scenario] is well formed. *)
Lemma scenario_well_formed : well_formed scenario 2.
Proof.
  unfold well_formed.
  split; [reflexivity |].
  split; [intros x Hx; simpl in Hx; intuition lia |].
  split; [split; reflexivity |].
  do 5 (split; [reflexivity |]).
  split; [reflexivity |]. split; [reflexivity |].
  split; [intros i p q Hp Hq; idx_cases Hp; inversion Hp; inversion Hq; lia |].
  split; [reflexivity |].
  split.
  - intros s t Hin. unfold len. simpl in *.
    destruct Hin as [Hin | [Hin | []]]; inversion Hin; lia.
  - intros i Hi. destruct i as [| [| i]]; [vm_compute; lia | vm_compute; lia | lia].
Qed.

Lemma block_completes_witness :
  well_formed scenario 2 /\
  exists data, Single.one_supernode_block scenario = Ok data.
Proof.
  split; [exact scenario_well_formed |].
  exact (block_completes scenario 2 scenario_well_formed).
Defined.

(** ** Further properties of the single-super-node block *)

Lemma sum_list_app (l1 l2 : list Z) :
  sum_list (l1 ++ l2) = sum_list l1 + sum_list l2.
Proof.
  induction l1 as [| x l1 IH]; simpl.
  - change (sum_list []) with 0. lia.
  - rewrite !sum_list_cons, IH. lia.
Qed.

Lemma count_true_le (m : list bool) : (Torch.count_true m <= length m)%nat.
Proof.
  induction m as [| [|] m IH]; simpl; lia.
Qed.

(** The removed edges of all graphs: their number is the number of
    mask entries minus the number of kept ones. *)
Lemma edges_aggregates_sum (nb : list (list bool)) :
  sum_list (Single.edges_aggregates nb)
  = len (concat nb) - Z.of_nat (Torch.count_true (concat nb)).
Proof.
  unfold Single.edges_aggregates. induction nb as [| n nb IH]; simpl.
  - reflexivity.
  - rewrite sum_list_cons, IH. unfold len.
    rewrite length_app, count_true_app. lia.
Qed.

(** What the block stores about the filtered edges. *)
Lemma block_filter (b data : Batch) :
  Single.one_supernode_block b = Ok data ->
  exists both all_nb ei_nb assoc src_batch,
    sn_edges_aggregates data
      = Some (Single.edges_aggregates (map (map negb) both)) /\
    Torch.cat (map (map negb) both) = Ok all_nb /\
    Torch.mask_select (edge_index b) all_nb = Ok ei_nb /\
    Single.reindex assoc ei_nb = Ok (edge_index data) /\
    Single.edge_lengths (pos data) (edge_index data) = Ok (distances data) /\
    Torch.index_select (batch b) (map fst (edge_index data)) = Ok src_batch /\
    neighbors data = snd (Torch.unique_counts src_batch).
Proof.
  intro H. unfold Single.one_supernode_block in H. cbv beta zeta in H.
  bind_steps H. inversion H; subst data; clear H. fields.
  do 5 eexists. repeat split; eassumption.
Qed.

(** X2. Edge conservation. Whenever the block completes, the numbers of
    removed edges it records per graph in [sn_edges_aggregates] and the
    number of edges it keeps add up to the number of edges of the
    input. *)
Theorem edge_conservation (b data : Batch) :
  Single.one_supernode_block b = Ok data ->
  exists removed,
    sn_edges_aggregates data = Some removed /\
    sum_list removed + len (edge_index data) = len (edge_index b).
Proof.
  intro Hblock.
  destruct (block_filter _ _ Hblock)
    as (both & all_nb & ei_nb & assoc & sb & Hagg & Hcat & Hsel & Hre & _).
  eexists. split; [exact Hagg |].
  rewrite edges_aggregates_sum. apply cat_concat in Hcat. subst all_nb.
  unfold Single.reindex in Hre. unfold len.
  rewrite (mapM_length _ _ _ Hre), (mask_select_length _ _ _ Hsel).
  unfold Torch.mask_select in Hsel.
  destruct (Nat.eqb_spec (length (edge_index b))
              (length (concat (map (map negb) both)))) as [E | E];
    [| discriminate Hsel].
  pose proof (count_true_le (concat (map (map negb) both))). lia.
Qed.

Lemma edge_conservation_witness :
  Single.one_supernode_block scenario = Ok scenario_out /\
  exists removed,
    sn_edges_aggregates scenario_out = Some removed /\
    sum_list removed + len (edge_index scenario_out) = len (edge_index scenario).
Proof.
  assert (Hb : Single.one_supernode_block scenario = Ok scenario_out)
    by (vm_compute; reflexivity).
  split; [exact Hb |]. exact (edge_conservation scenario scenario_out Hb).
Defined.

Lemma count_insert_sum (x : Z) (tbl : list (Z * Z)) :
  sum_list (map snd (Torch.count_insert x tbl)) = sum_list (map snd tbl) + 1.
Proof.
  induction tbl as [| [y c] tbl IH]; cbn [Torch.count_insert].
  - reflexivity.
  - destruct (x <? y); [| destruct (x =? y)]; cbn [map snd];
      rewrite ?sum_list_cons; cbn [map snd]; rewrite ?sum_list_cons, ?IH; lia.
Qed.

Lemma count_fold_sum (l : list Z) (acc : list (Z * Z)) :
  sum_list (map snd (fold_left (fun a x => Torch.count_insert x a) l acc))
  = sum_list (map snd acc) + len l.
Proof.
  revert acc. induction l as [| x l IH]; intro acc; simpl.
  - unfold len. simpl. lia.
  - rewrite IH, count_insert_sum. unfold len. simpl length. lia.
Qed.

(** The counts [unique] returns add up to the number of elements. *)
Lemma unique_counts_sum (l : list Z) :
  sum_list (snd (Torch.unique_counts l)) = len l.
Proof.
  unfold Torch.unique_counts. simpl. rewrite count_fold_sum. reflexivity.
Qed.

(** X3. Whenever the block completes, the entries of the new
    [neighbors] add up to the number of edges of the new edge index:
    the total the script prints as kept is right, whatever graph each
    edge was counted for. *)
Theorem neighbors_total (b data : Batch) :
  Single.one_supernode_block b = Ok data ->
  sum_list (neighbors data) = len (edge_index data).
Proof.
  intro Hblock.
  destruct (block_filter _ _ Hblock)
    as (both & all_nb & ei_nb & assoc & sb & _ & _ & _ & _ & _ & Hsb & Hnb).
  rewrite Hnb, unique_counts_sum. unfold len.
  rewrite (index_select_length _ _ _ Hsb), length_map. reflexivity.
Qed.

Lemma neighbors_total_witness :
  Single.one_supernode_block surface_edges = Ok surface_edges_out /\
  sum_list (neighbors surface_edges_out) = len (edge_index surface_edges_out).
Proof.
  assert (Hb : Single.one_supernode_block surface_edges = Ok surface_edges_out)
    by (vm_compute; reflexivity).
  split; [exact Hb |]. exact (neighbors_total surface_edges surface_edges_out Hb).
Defined.

(** X4. Whenever the block completes, the node at the last place of
    the new range of every graph carries the marks of a super node:
    atomic number 84, tag 0 and the fixed flag 1. *)
Theorem supernode_attributes (b data : Batch) (bs i : nat) (q : Z) :
  Single.one_supernode_block b = Ok data ->
  Single.batch_size b = Ok bs ->
  (i < bs)%nat ->
  nth_error (ptr data) (S i) = Some q ->
  nth_error (atomic_numbers data) (Z.to_nat (q - 1)) = Some 84 /\
  nth_error (tags data) (Z.to_nat (q - 1)) = Some 0 /\
  nth_error (fixed data) (Z.to_nat (q - 1)) = Some (Fin 1).
Proof.
  intros Hblock Hbs Hi Hq.
  destruct (block_nodes _ _ Hblock)
    as (bs0 & sub0 & non0 & Hbs0 & _ & Hnon0 & Hptr & _).
  destruct (block_arrays _ _ Hblock)
    as (bs1 & sub1 & non1 & snp & snr & snf & Hbs1 & _ & Hnon1
        & _ & _ & _ & _ & _ & _ & Han & Hfix & Htag).
  rewrite Hbs in Hbs0, Hbs1. inversion Hbs0; subst bs0. inversion Hbs1; subst bs1.
  rewrite Hnon0 in Hnon1. inversion Hnon1; subst non1.
  destruct (supernode_row b data bs i q _ _ _ _ Hptr Han Hi Hq) as (x1 & E1 & N1).
  destruct (supernode_row b data bs i q _ _ _ _ Hptr Hfix Hi Hq) as (x2 & E2 & N2).
  destruct (supernode_row b data bs i q _ _ _ _ Hptr Htag Hi Hq) as (x3 & E3 & N3).
  inversion E1; inversion E2; inversion E3; subst. repeat split; assumption.
Qed.

Lemma supernode_attributes_witness :
  Single.one_supernode_block scenario = Ok scenario_out /\
  nth_error (atomic_numbers scenario_out) (Z.to_nat (7 - 1)) = Some 84 /\
  nth_error (tags scenario_out) (Z.to_nat (7 - 1)) = Some 0 /\
  nth_error (fixed scenario_out) (Z.to_nat (7 - 1)) = Some (Fin 1).
Proof.
  assert (Hb : Single.one_supernode_block scenario = Ok scenario_out)
    by (vm_compute; reflexivity).
  assert (Hc : Single.batch_size scenario = Ok 2%nat) by reflexivity.
  assert (Hq : nth_error (ptr scenario_out) 2 = Some 7) by reflexivity.
  split; [exact Hb |].
  exact (supernode_attributes scenario scenario_out 2 1 7 Hb Hc ltac:(lia) Hq).
Defined.

(** *** The rebuilt batch vector *)

Lemma set_nth_same {A : Type} (t : list A) (k : nat) (v : A) :
  (k < length t)%nat -> nth_error (Torch.set_nth t k v) k = Some v.
Proof.
  revert k. induction t as [| a t IH]; intros [| k] H; simpl in *;
    try lia; [reflexivity | apply IH; lia].
Qed.

Lemma put_nonneg {A : Type} (t t' : list A) (k : Z) (v : A) :
  0 <= k -> Torch.put t k v = Ok t' ->
  (Z.to_nat k < length t)%nat /\ t' = Torch.set_nth t (Z.to_nat k) v.
Proof.
  unfold Torch.put. intros Hk H.
  destruct (Z.ltb_spec k 0); [lia |].
  destruct (Z.leb_spec 0 k); [| lia].
  destruct (Z.ltb_spec k (Z.of_nat (length t))); simpl in H; inversion H.
  split; [lia | reflexivity].
Qed.

(** Assigning one value at non-negative indices changes exactly the
    entries at these indices. *)
Lemma index_put_nth {A : Type} (idx : list Z) (v : A) :
  forall t t' : list A,
    (forall x, In x idx -> 0 <= x) ->
    Torch.index_put t idx v = Ok t' ->
    length t' = length t /\
    (forall j, In (Z.of_nat j) idx -> nth_error t' j = Some v) /\
    (forall j, ~ In (Z.of_nat j) idx -> nth_error t' j = nth_error t j).
Proof.
  induction idx as [| k idx IH]; intros t t' Hpos H; simpl in H.
  - inversion H; subst t'. split; [reflexivity |].
    split; intros j Hj; [contradiction | reflexivity].
  - bind_steps H.
    destruct (put_nonneg _ _ _ _ (Hpos k (or_introl eq_refl)) E) as (Hk & ->).
    destruct (IH _ _ (fun x Hx => Hpos x (or_intror Hx)) H) as (Hl & Hin & Hout).
    split; [rewrite Hl; apply set_nth_length |]. split.
    + intros j Hj. destruct (in_dec Z.eq_dec (Z.of_nat j) idx) as [Hi | Hn].
      * apply Hin. assumption.
      * rewrite (Hout j Hn). destruct Hj as [Hj | Hj]; [| contradiction].
        replace j with (Z.to_nat k) by lia. apply set_nth_same. assumption.
    + intros j Hj. rewrite Hout by (intro Hc; apply Hj; right; assumption).
      apply set_nth_other. intro Hc. apply Hj. left.
      pose proof (Hpos k (or_introl eq_refl)). lia.
Qed.

Lemma arange_In_iff (a c x : Z) : In x (Torch.arange a c) <-> a <= x < c.
Proof.
  split; [apply arange_In |]. intro H. unfold Torch.arange.
  apply in_map_iff. exists (Z.to_nat (x - a)). split; [lia |].
  apply in_seq. lia.
Qed.

(** The loop over ranges that follow one another gives every index of
    a range the number of that range, and leaves the rest alone. *)
Lemma fill_batch_nth (data_ptr : list Z) (todo : list (nat * Z)) :
  forall acc v : list Z,
    (forall i p, In (i, p) todo -> 0 <= p) ->
    (forall k1 k2 i1 p1 i2 p2 h1,
       (k1 < k2)%nat ->
       nth_error todo k1 = Some (i1, p1) -> nth_error todo k2 = Some (i2, p2) ->
       Torch.get data_ptr (Z.of_nat i1 + 1) = Ok h1 -> h1 <= p2) ->
    Single.fill_batch data_ptr todo acc = Ok v ->
    length v = length acc /\
    (forall j,
       (forall i p h, In (i, p) todo ->
                      Torch.get data_ptr (Z.of_nat i + 1) = Ok h ->
                      ~ (p <= Z.of_nat j < h)) ->
       nth_error v j = nth_error acc j) /\
    (forall i p h j,
       In (i, p) todo -> Torch.get data_ptr (Z.of_nat i + 1) = Ok h ->
       p <= Z.of_nat j < h -> nth_error v j = Some (Z.of_nat i)).
Proof.
  induction todo as [| [i0 p0] todo IH]; intros acc v Hpos Hord H; simpl in H.
  - inversion H; subst v. split; [reflexivity |].
    split; [reflexivity |]. intros i p h j Hin. contradiction.
  - bind_steps H.
    assert (Hp0 : 0 <= p0) by (apply (Hpos i0 p0); left; reflexivity).
    destruct (index_put_nth (Torch.arange p0 v0) (Z.of_nat i0) acc v1) as (Hl & Hin & Hout).
    { intros x Hx. apply arange_In in Hx. lia. }
    { assumption. }
    destruct (IH v1 v) as (Hl' & Hrest & Hhit).
    { intros i p Hi. apply (Hpos i p). right. assumption. }
    { intros k1 k2 i1 p1 i2 p2 h1 Hk H1 H2 Hg.
      apply (Hord (S k1) (S k2) i1 p1 i2 p2 h1); try assumption. lia. }
    { assumption. }
    split; [congruence |]. split.
    + intros j Hj. rewrite Hrest.
      * apply Hout. intro Hc. apply arange_In in Hc.
        apply (Hj i0 p0 v0 (or_introl eq_refl) E). assumption.
      * intros i p h Hi Hg. apply (Hj i p h); [right |]; assumption.
    + intros i p h j [Hi | Hi] Hg Hr.
      * inversion Hi; subst i0 p0. rewrite Hg in E. inversion E; subst v0.
        rewrite Hrest.
        -- apply Hin. apply arange_In_iff. assumption.
        -- intros i' p' h' Hi' Hg' Hr'. apply In_nth_error in Hi'.
           destruct Hi' as (k & Hk).
           pose proof (Hord 0%nat (S k) i p i' p' h ltac:(lia) eq_refl Hk Hg). lia.
      * apply (Hhit i p h j); assumption.
Qed.

Lemma combine_seq_nth {A : Type} (l : list A) :
  forall (k i : nat) (x : A),
    nth_error l i = Some x ->
    nth_error (combine (seq k (length l)) l) i = Some ((k + i)%nat, x).
Proof.
  induction l as [| a l IH]; intros k [| i] x Hi; simpl in *; try discriminate.
  - inversion Hi. rewrite Nat.add_0_r. reflexivity.
  - rewrite (IH (S k) i x Hi). f_equal. f_equal. lia.
Qed.

Lemma enumerate_nth_intro {A : Type} (l : list A) (i : nat) (x : A) :
  nth_error l i = Some x -> nth_error (enumerate l) i = Some (i, x).
Proof.
  intro H. unfold enumerate. rewrite (combine_seq_nth l 0 i x H). reflexivity.
Qed.

(** What the block stores in the new batch vector. *)
Lemma block_batch (b data : Batch) :
  Single.one_supernode_block b = Ok data ->
  exists last z,
    Torch.get (ptr data) (-1) = Ok last /\
    Torch.full last 0 = Ok z /\
    Single.fill_batch (ptr data) (enumerate (removelast (ptr data))) z
      = Ok (batch data).
Proof.
  intro H. unfold Single.one_supernode_block in H. cbv beta zeta in H.
  bind_steps H. inversion H; subst data; clear H. fields.
  do 2 eexists. repeat split; eassumption.
Qed.

(** X5. Whenever the block completes, the new batch vector has one
    entry per node of the new batch and agrees with the new pointer
    array: every node of the range [[ptr[i], ptr[i+1])] is assigned to
    graph [i]. *)
Theorem batch_vector_rebuilt (b data : Batch) (bs : nat) (total : Z) :
  Single.one_supernode_block b = Ok data ->
  Single.batch_size b = Ok bs ->
  nth_error (ptr data) bs = Some total ->
  len (batch data) = total /\
  forall i p q j,
    nth_error (ptr data) i = Some p ->
    nth_error (ptr data) (S i) = Some q ->
    p <= Z.of_nat j < q ->
    nth_error (batch data) j = Some (Z.of_nat i).
Proof.
  intros Hblock Hbs Htot.
  destruct (block_nodes _ _ Hblock)
    as (bs0 & sub & non_sub & Hbs0 & _ & _ & Hptr & _).
  rewrite Hbs in Hbs0. inversion Hbs0; subst bs0; clear Hbs0.
  destruct (block_batch _ _ Hblock) as (last & z & Hlast & Hz & Hfill).
  assert (Hplen : length (ptr data) = S bs) by (rewrite Hptr; apply new_ptr_length).
  pose proof (get_last _ _ _ Hplen Hlast) as Hl. rewrite Htot in Hl.
  inversion Hl; subst last; clear Hl.
  assert (Hnth : forall i, (i <= bs)%nat ->
            nth_error (ptr data) i
            = Some (sum_list (map (@len Z) (firstn i non_sub)) + Z.of_nat i))
    by (intros i Hi; rewrite Hptr; apply new_ptr_nth; assumption).
  assert (Htodo : forall k i p,
            nth_error (enumerate (removelast (ptr data))) k = Some (i, p) ->
            i = k /\ (i < bs)%nat /\ nth_error (ptr data) i = Some p).
  { intros k i p Hk. apply enumerate_nth in Hk. destruct Hk as (-> & Hk).
    assert (Hi : (k < bs)%nat).
    { assert (k < length (removelast (ptr data)))%nat
        by (apply nth_error_Some; rewrite Hk; discriminate).
      rewrite removelast_length, Hplen in H. simpl in H. assumption. }
    rewrite removelast_nth in Hk by lia. auto. }
  unfold Torch.full in Hz. destruct (Z.ltb_spec total 0); inversion Hz; subst z.
  assert (Hpos : forall i p, In (i, p) (enumerate (removelast (ptr data))) -> 0 <= p).
  { intros i p Hin. apply In_nth_error in Hin. destruct Hin as (k & Hk).
    destruct (Htodo k i p Hk) as (_ & Hi & Hp). rewrite Hnth in Hp by lia.
    pose proof (sum_lens_nonneg (firstn i non_sub)).
    assert (p = sum_list (map (@len Z) (firstn i non_sub)) + Z.of_nat i)
      by congruence.
    lia. }
  assert (Hord : forall k1 k2 i1 p1 i2 p2 h1,
            (k1 < k2)%nat ->
            nth_error (enumerate (removelast (ptr data))) k1 = Some (i1, p1) ->
            nth_error (enumerate (removelast (ptr data))) k2 = Some (i2, p2) ->
            Torch.get (ptr data) (Z.of_nat i1 + 1) = Ok h1 -> h1 <= p2).
  { intros k1 k2 i1 p1 i2 p2 h1 Hk H1 H2 Hg.
    destruct (Htodo k1 i1 p1 H1) as (-> & Hi1 & _).
    destruct (Htodo k2 i2 p2 H2) as (-> & Hi2 & Hp2).
    apply get_nat in Hg; [| lia].
    replace (Z.to_nat (Z.of_nat k1 + 1)) with (S k1) in Hg by lia.
    rewrite Hnth in Hg, Hp2 by lia.
    pose proof (prefix_len_mono non_sub (S k1) k2 ltac:(lia)).
    assert (h1 = sum_list (map (@len Z) (firstn (S k1) non_sub)) + Z.of_nat (S k1))
      by congruence.
    assert (p2 = sum_list (map (@len Z) (firstn k2 non_sub)) + Z.of_nat k2)
      by congruence.
    lia. }
  destruct (fill_batch_nth _ _ _ _ Hpos Hord Hfill) as (Hlen & _ & Hhit).
  split.
  - unfold len. rewrite Hlen, repeat_length. lia.
  - intros i p q j Hp Hq Hr.
    assert (Hi : (i < bs)%nat).
    { assert (S i < length (ptr data))%nat
        by (apply nth_error_Some; rewrite Hq; discriminate). lia. }
    apply (Hhit i p q j); try assumption.
    + apply (nth_error_In _ i). apply enumerate_nth_intro.
      rewrite removelast_nth by lia. assumption.
    + replace (Z.of_nat i + 1) with (Z.of_nat (S i)) by lia.
      apply get_nth. assumption.
Qed.

Lemma batch_vector_rebuilt_witness :
  Single.one_supernode_block scenario = Ok scenario_out /\
  len (batch scenario_out) = 7 /\
  forall i p q j,
    nth_error (ptr scenario_out) i = Some p ->
    nth_error (ptr scenario_out) (S i) = Some q ->
    p <= Z.of_nat j < q ->
    nth_error (batch scenario_out) j = Some (Z.of_nat i).
Proof.
  assert (Hb : Single.one_supernode_block scenario = Ok scenario_out)
    by (vm_compute; reflexivity).
  assert (Hc : Single.batch_size scenario = Ok 2%nat) by reflexivity.
  assert (Hq : nth_error (ptr scenario_out) 2 = Some 7) by reflexivity.
  split; [exact Hb |].
  exact (batch_vector_rebuilt scenario scenario_out 2 7 Hb Hc Hq).
Defined.

(** *** The kept atoms *)

Lemma non_sub_nodes_nonneg (b : Batch) (i : nat) (ns : list Z) (x : Z) :
  Single.non_sub_nodes_of b i = Ok ns -> In x ns -> 0 <= x.
Proof.
  unfold Single.non_sub_nodes_of. intros H Hx. bind_steps H.
  inversion H; subst ns. apply where_bound in Hx. lia.
Qed.

(** In a compacted array the row of the [k]-th kept atom of graph [i]
    sits [k] places after the start of the new range of graph [i]. *)
Lemma compact_kept {A : Type} (bs : nat) (src : list A)
    (non_sub : list (list Z)) (extra : nat -> result A) (v : list A)
    (i k : nat) (ns : list Z) (x : Z) :
  Single.compact bs src non_sub extra = Ok v ->
  (i < bs)%nat ->
  nth_error non_sub i = Some ns ->
  nth_error ns k = Some x ->
  0 <= x ->
  exists a,
    nth_error src (Z.to_nat x) = Some a /\
    nth_error v (Z.to_nat (sum_list (map (@len Z) (firstn i non_sub)) + Z.of_nat i) + k)
    = Some a.
Proof.
  intros H Hi Hns Hk Hx.
  destruct (compact_blocks _ _ _ _ _ H) as (blocks & Hv & _ & Hblk).
  pose proof (compact_blocks_lengths _ _ _ _ _ Hblk) as Hpre.
  destruct (Hblk i Hi) as (ns' & rows & e & Hns' & Hsel & _ & Hb).
  rewrite Hns in Hns'. inversion Hns'; subst ns'; clear Hns'.
  destruct (mapM_nth _ _ _ Hsel k x Hk) as (a & Ha & Hget).
  exists a. split; [apply get_nat; assumption |].
  pose proof (compact_prefix_length bs non_sub blocks Hpre i ltac:(lia)) as Hlen.
  rewrite <- Hlen, Nat2Z.id. subst v.
  rewrite (concat_block_nth blocks i k _ Hb).
  - rewrite nth_error_app1; [assumption |].
    apply nth_error_Some. rewrite Ha. discriminate.
  - rewrite length_app.
    assert (k < length rows)%nat by (apply nth_error_Some; rewrite Ha; discriminate).
    lia.
Qed.

(** X6. Whenever the block completes, the kept atoms of a graph keep
    their order and their rows: the [k]-th non-sub-surface atom of graph
    [i] is the node [ptr[i] + k] of the new batch, with the position,
    relaxed position, force, fixed flag, tag and atomic number it had
    in the input. *)
Theorem kept_atoms_in_order (b data : Batch) (bs i k : nat) (ns : list Z)
    (p x : Z) :
  Single.one_supernode_block b = Ok data ->
  Single.batch_size b = Ok bs ->
  (i < bs)%nat ->
  Single.non_sub_nodes_of b i = Ok ns ->
  nth_error (ptr data) i = Some p ->
  nth_error ns k = Some x ->
  let old := Z.to_nat x in
  let new := (Z.to_nat p + k)%nat in
  0 <= x /\
  (old < length (pos b))%nat /\
  nth_error (pos data) new = nth_error (pos b) old /\
  nth_error (pos_relaxed data) new = nth_error (pos_relaxed b) old /\
  nth_error (force data) new = nth_error (force b) old /\
  nth_error (fixed data) new = nth_error (fixed b) old /\
  nth_error (tags data) new = nth_error (tags b) old /\
  nth_error (atomic_numbers data) new = nth_error (atomic_numbers b) old.
Proof.
  intros Hblock Hbs Hi Hof Hp Hk old new.
  destruct (block_nodes _ _ Hblock)
    as (bs0 & sub0 & non0 & Hbs0 & _ & Hnon0 & Hptr & _).
  destruct (block_arrays _ _ Hblock)
    as (bs1 & sub1 & non_sub & snp & snr & snf & Hbs1 & _ & Hnon
        & _ & _ & _ & Hpos & Hrel & Hfor & Han & Hfix & Htag).
  rewrite Hbs in Hbs0, Hbs1. inversion Hbs0; subst bs0. inversion Hbs1; subst bs1.
  rewrite Hnon0 in Hnon. inversion Hnon; subst non0.
  destruct (mapM_range _ _ _ Hnon0) as (_ & Hnth).
  destruct (Hnth i Hi) as (ns' & Hns & Hof'). rewrite Hof in Hof'.
  inversion Hof'; subst ns'; clear Hof'.
  pose proof (non_sub_nodes_nonneg b i ns x Hof (nth_error_In _ _ Hk)) as Hx.
  rewrite Hptr, new_ptr_nth in Hp by lia.
  assert (Hpv : p = sum_list (map (@len Z) (firstn i non_sub)) + Z.of_nat i)
    by congruence.
  subst new old. rewrite Hpv.
  destruct (compact_kept _ _ _ _ _ i k ns x Hpos Hi Hns Hk Hx) as (a1 & S1 & N1).
  destruct (compact_kept _ _ _ _ _ i k ns x Hrel Hi Hns Hk Hx) as (a2 & S2 & N2).
  destruct (compact_kept _ _ _ _ _ i k ns x Hfor Hi Hns Hk Hx) as (a3 & S3 & N3).
  destruct (compact_kept _ _ _ _ _ i k ns x Hfix Hi Hns Hk Hx) as (a4 & S4 & N4).
  destruct (compact_kept _ _ _ _ _ i k ns x Htag Hi Hns Hk Hx) as (a5 & S5 & N5).
  destruct (compact_kept _ _ _ _ _ i k ns x Han Hi Hns Hk Hx) as (a6 & S6 & N6).
  split; [assumption |].
  split; [apply nth_error_Some; rewrite S1; discriminate |].
  repeat split; congruence.
Qed.

Lemma kept_atoms_in_order_witness :
  Single.one_supernode_block scenario = Ok scenario_out /\
  Single.non_sub_nodes_of scenario 1 = Ok [6; 7] /\
  0 <= 7 /\
  (Z.to_nat 7 < length (pos scenario))%nat /\
  nth_error (pos scenario_out) (Z.to_nat 4 + 1) = nth_error (pos scenario) (Z.to_nat 7) /\
  nth_error (pos_relaxed scenario_out) (Z.to_nat 4 + 1)
    = nth_error (pos_relaxed scenario) (Z.to_nat 7) /\
  nth_error (force scenario_out) (Z.to_nat 4 + 1)
    = nth_error (force scenario) (Z.to_nat 7) /\
  nth_error (fixed scenario_out) (Z.to_nat 4 + 1)
    = nth_error (fixed scenario) (Z.to_nat 7) /\
  nth_error (tags scenario_out) (Z.to_nat 4 + 1)
    = nth_error (tags scenario) (Z.to_nat 7) /\
  nth_error (atomic_numbers scenario_out) (Z.to_nat 4 + 1)
    = nth_error (atomic_numbers scenario) (Z.to_nat 7).
Proof.
  assert (Hb : Single.one_supernode_block scenario = Ok scenario_out)
    by (vm_compute; reflexivity).
  assert (Hc : Single.batch_size scenario = Ok 2%nat) by reflexivity.
  assert (Hn : Single.non_sub_nodes_of scenario 1 = Ok [6; 7]) by reflexivity.
  assert (Hp : nth_error (ptr scenario_out) 1 = Some 4) by reflexivity.
  assert (Hk : nth_error [6; 7] 1 = Some 7) by reflexivity.
  split; [exact Hb |]. split; [exact Hn |].
  exact (kept_atoms_in_order scenario scenario_out 2 1 1 [6; 7] 4 7
           Hb Hc ltac:(lia) Hn Hp Hk).
Defined.

Lemma edge_lengths_length (p : list vec3) (ei : list (Z * Z)) (d : list root) :
  Single.edge_lengths p ei = Ok d -> length d = length ei.
Proof.
  unfold Single.edge_lengths. intro H. bind_steps H. inversion H; subst d.
  apply index_select_length in E, E0. rewrite length_map in E, E0.
  rewrite zip_with_length; congruence.
Qed.

(** X7. Whenever the block completes, every compacted per-node array
    of the new batch (positions, relaxed positions, forces, fixed
    flags, tags, atomic numbers) has exactly [ptr[N]] rows, the new
    distances have one entry per edge of the new edge index, and
    [natoms] has one entry per graph. *)
Theorem output_arrays_aligned (b data : Batch) (bs : nat) (total : Z) :
  Single.one_supernode_block b = Ok data ->
  Single.batch_size b = Ok bs ->
  nth_error (ptr data) bs = Some total ->
  len (pos data) = total /\
  len (pos_relaxed data) = total /\
  len (force data) = total /\
  len (fixed data) = total /\
  len (tags data) = total /\
  len (atomic_numbers data) = total /\
  length (distances data) = length (edge_index data) /\
  len (natoms data) = Z.of_nat bs.
Proof.
  intros Hblock Hbs Htot.
  destruct (block_nodes _ _ Hblock)
    as (bs0 & sub0 & non0 & Hbs0 & _ & Hnon0 & Hptr & Hnat & _).
  destruct (block_arrays _ _ Hblock)
    as (bs1 & sub1 & non_sub & snp & snr & snf & Hbs1 & _ & Hnon
        & _ & _ & _ & Hpos & Hrel & Hfor & Han & Hfix & Htag).
  destruct (block_filter _ _ Hblock)
    as (both & all_nb & ei_nb & assoc & sb & _ & _ & _ & _ & Hd & _).
  rewrite Hbs in Hbs0, Hbs1. inversion Hbs0; subst bs0. inversion Hbs1; subst bs1.
  rewrite Hnon0 in Hnon. inversion Hnon; subst non0.
  rewrite Hptr, new_ptr_nth in Htot by lia.
  assert (Ht : total = sum_list (map (@len Z) (firstn bs non_sub)) + Z.of_nat bs)
    by congruence.
  unfold len.
  rewrite (compact_length _ _ _ _ _ Hpos), (compact_length _ _ _ _ _ Hrel),
    (compact_length _ _ _ _ _ Hfor), (compact_length _ _ _ _ _ Hfix),
    (compact_length _ _ _ _ _ Htag), (compact_length _ _ _ _ _ Han).
  repeat (split; [congruence |]).
  split; [eapply edge_lengths_length; eassumption |].
  rewrite Hnat, diffs_length, Hptr, new_ptr_length. reflexivity.
Qed.

Lemma output_arrays_aligned_witness :
  Single.one_supernode_block scenario = Ok scenario_out /\
  len (pos scenario_out) = 7 /\
  len (pos_relaxed scenario_out) = 7 /\
  len (force scenario_out) = 7 /\
  len (fixed scenario_out) = 7 /\
  len (tags scenario_out) = 7 /\
  len (atomic_numbers scenario_out) = 7 /\
  length (distances scenario_out) = length (edge_index scenario_out) /\
  len (natoms scenario_out) = Z.of_nat 2.
Proof.
  assert (Hb : Single.one_supernode_block scenario = Ok scenario_out)
    by (vm_compute; reflexivity).
  assert (Hc : Single.batch_size scenario = Ok 2%nat) by reflexivity.
  assert (Hq : nth_error (ptr scenario_out) 2 = Some 7) by reflexivity.
  split; [exact Hb |].
  exact (output_arrays_aligned scenario scenario_out 2 7 Hb Hc Hq).
Defined.

(** *** The two node lists of a graph *)

Lemma where_from_sorted (k : Z) (m : list bool) :
  StronglySorted Z.lt (Torch.where_from k m).
Proof.
  revert k. induction m as [| c m IH]; intro k; simpl.
  - constructor.
  - destruct c; [| apply IH]. constructor; [apply IH |].
    apply Forall_forall. intros x Hx. apply where_from_ge in Hx. lia.
Qed.

Lemma ne_scalar_true (l : list Z) (v : Z) (j : nat) :
  nth_error (Torch.ne_scalar l v) j = Some true <->
  exists t, nth_error l j = Some t /\ t <> v.
Proof.
  unfold Torch.ne_scalar. rewrite nth_error_map.
  destruct (nth_error l j) as [x |]; simpl; split.
  - intro H. inversion H as [E]. apply negb_true_iff, Z.eqb_neq in E.
    exists x. split; [reflexivity | assumption].
  - intros (t & Ht & Hne). inversion Ht; subst t.
    apply Z.eqb_neq in Hne. rewrite Hne. reflexivity.
  - discriminate.
  - intros (t & Ht & _). discriminate.
Qed.

Lemma partition_counts (ts bt : list Z) (i : nat) :
  length ts = length bt ->
  (Torch.count_true (Torch.zip_with andb (Torch.eq_scalar ts 0)
                       (Torch.eq_scalar bt (Z.of_nat i)))
   + Torch.count_true (Torch.zip_with andb (Torch.ne_scalar ts 0)
                         (Torch.eq_scalar bt (Z.of_nat i))))%nat
  = length (filter (fun x => x =? Z.of_nat i) bt).
Proof.
  revert bt. induction ts as [| t ts IH]; intros [| x bt] H; simpl in *;
    try discriminate; [reflexivity |].
  specialize (IH bt ltac:(lia)).
  destruct (t =? 0), (x =? Z.of_nat i); simpl; lia.
Qed.

(** X8. When tags and batch vector have one entry per atom, the two
    node lists of graph [i] are computed without error and split the
    atoms of the graph: [sub_nodes[i]] holds exactly the atoms of graph
    [i] with tag 0, [non_sub_nodes[i]] exactly those with another tag,
    both in increasing order, no atom is in both, and together they
    are as many as the atoms of the graph. *)
Theorem graph_atoms_partition (b : Batch) (i : nat) :
  length (tags b) = length (batch b) ->
  exists s ns,
    Single.sub_nodes_of b i = Ok s /\
    Single.non_sub_nodes_of b i = Ok ns /\
    StronglySorted Z.lt s /\
    StronglySorted Z.lt ns /\
    (forall x, In x s -> 0 <= x < len (batch b)) /\
    (forall x, In x ns -> 0 <= x < len (batch b)) /\
    (forall j, In (Z.of_nat j) s <-> is_sub b i j) /\
    (forall j, In (Z.of_nat j) ns <->
               (exists t, nth_error (tags b) j = Some t /\ t <> 0) /\
               nth_error (batch b) j = Some (Z.of_nat i)) /\
    (forall x, In x s -> ~ In x ns) /\
    (length s + length ns)%nat
    = length (filter (fun x => x =? Z.of_nat i) (batch b)).
Proof.
  intro Hal.
  exists (Torch.where_ (sub_mask b i)), (Torch.where_ (non_sub_mask b i)).
  split; [apply sub_nodes_of_aligned; assumption |].
  split; [apply non_sub_nodes_of_aligned; assumption |].
  split; [apply where_from_sorted |].
  split; [apply where_from_sorted |].
  assert (Hs : forall j, In (Z.of_nat j) (Torch.where_ (sub_mask b i)) <-> is_sub b i j).
  { intro j. rewrite where_In. apply sub_mask_true. }
  assert (Hn : forall j, In (Z.of_nat j) (Torch.where_ (non_sub_mask b i)) <->
                         (exists t, nth_error (tags b) j = Some t /\ t <> 0) /\
                         nth_error (batch b) j = Some (Z.of_nat i)).
  { intro j. rewrite where_In. unfold non_sub_mask.
    rewrite zip_and_true, ne_scalar_true, eq_scalar_true. reflexivity. }
  split.
  { intros x Hx. apply where_bound in Hx. unfold len in *.
    rewrite sub_mask_length in Hx by assumption. assumption. }
  split.
  { intros x Hx. apply where_bound in Hx. unfold len in *.
    rewrite non_sub_mask_length in Hx by assumption. assumption. }
  split; [exact Hs |]. split; [exact Hn |]. split.
  - intros x Hx Hx'. pose proof (where_bound _ _ Hx) as Hb.
    replace x with (Z.of_nat (Z.to_nat x)) in Hx, Hx' by lia.
    apply Hs in Hx. apply Hn in Hx'.
    destruct Hx as (Ht & _), Hx' as ((t & Ht' & Hne) & _). congruence.
  - unfold Torch.where_. rewrite !where_from_length.
    apply partition_counts. assumption.
Qed.

Lemma graph_atoms_partition_witness :
  exists s ns,
    Single.sub_nodes_of scenario 0 = Ok s /\
    Single.non_sub_nodes_of scenario 0 = Ok ns /\
    StronglySorted Z.lt s /\
    StronglySorted Z.lt ns /\
    (forall x, In x s -> 0 <= x < len (batch scenario)) /\
    (forall x, In x ns -> 0 <= x < len (batch scenario)) /\
    (forall j, In (Z.of_nat j) s <-> is_sub scenario 0 j) /\
    (forall j, In (Z.of_nat j) ns <->
               (exists t, nth_error (tags scenario) j = Some t /\ t <> 0) /\
               nth_error (batch scenario) j = Some (Z.of_nat 0)) /\
    (forall x, In x s -> ~ In x ns) /\
    (length s + length ns)%nat
    = length (filter (fun x => x =? Z.of_nat 0) (batch scenario)).
Proof.
  apply (graph_atoms_partition scenario 0). reflexivity.
Defined.

(** *** Batches the blocks reject *)

Lemma mask_mul_mismatch (m1 m2 : list bool) :
  length m1 <> length m2 -> length m1 <> 1%nat -> length m2 <> 1%nat ->
  Torch.mask_mul m1 m2 = Raise RuntimeError.
Proof.
  intros H H1 H2. unfold Torch.mask_mul.
  destruct (Nat.eqb_spec (length m1) (length m2)) as [E | _]; [contradiction |].
  destruct m1 as [| x [| x' m1]]; destruct m2 as [| y [| y' m2]];
    simpl in *; try congruence; reflexivity.
Qed.

Lemma sub_nodes_of_mismatch (b : Batch) (i : nat) :
  length (tags b) <> length (batch b) ->
  length (tags b) <> 1%nat -> length (batch b) <> 1%nat ->
  Single.sub_nodes_of b i = Raise RuntimeError.
Proof.
  intros H H1 H2. unfold Single.sub_nodes_of.
  rewrite mask_mul_mismatch; [reflexivity | | |];
    unfold Torch.eq_scalar; rewrite ?length_map; assumption.
Qed.

(** X9. A batch whose batch vector is empty is rejected by both
    blocks with the [ValueError] of [max] over an empty sequence. *)
Theorem empty_batch_rejected (b : Batch) :
  batch b = [] ->
  Single.one_supernode_block b = Raise ValueError /\
  Several.several_supernodes_block b = Raise ValueError.
Proof.
  intro H.
  assert (Hbs : Single.batch_size b = Raise ValueError)
    by (unfold Single.batch_size; rewrite H; reflexivity).
  unfold Single.one_supernode_block, Several.several_supernodes_block.
  rewrite Hbs. split; reflexivity.
Qed.

Lemma empty_batch_rejected_witness :
  Single.one_supernode_block (set_batch [] scenario) = Raise ValueError /\
  Several.several_supernodes_block (set_batch [] scenario) = Raise ValueError.
Proof.
  apply (empty_batch_rejected (set_batch [] scenario)). reflexivity.
Defined.

(** X11. When the batch holds at least one graph (some graph number
    is [0] or more) while [tags] and the batch vector differ in length
    and neither has a single entry (which would be broadcast), both
    blocks stop with a [RuntimeError], whatever else the batch holds:
    the first mask product [(tags == 0) * (batch == 0)] fails. *)
Theorem shape_mismatch_rejected (b : Batch) :
  (exists x, In x (batch b) /\ 0 <= x) ->
  length (tags b) <> length (batch b) ->
  length (tags b) <> 1%nat ->
  length (batch b) <> 1%nat ->
  Single.one_supernode_block b = Raise RuntimeError /\
  Several.several_supernodes_block b = Raise RuntimeError.
Proof.
  intros (x & Hin & Hx) H H1 H2.
  assert (Hbs : exists n, Single.batch_size b = Ok (S n)).
  { unfold Single.batch_size.
    destruct (batch b) as [| y t] eqn:Eb; [contradiction |].
    cbn [Torch.max_list bind].
    pose proof (fold_max_ge t y) as [Hy Ht].
    assert (x <= fold_left Z.max t y)
      by (destruct Hin as [<- | Hin]; [exact Hy | exact (Ht x Hin)]).
    exists (Z.to_nat (fold_left Z.max t y)). f_equal. lia. }
  destruct Hbs as (n & Hbs).
  pose proof (sub_nodes_of_mismatch b 0 H H1 H2) as Hs.
  unfold Single.one_supernode_block, Several.several_supernodes_block.
  rewrite Hbs. unfold range. cbn [seq mapM bind]. rewrite Hs.
  split; reflexivity.
Qed.

Lemma shape_mismatch_rejected_witness :
  Single.one_supernode_block (set_tags [0; 1] scenario) = Raise RuntimeError /\
  Several.several_supernodes_block (set_tags [0; 1] scenario) = Raise RuntimeError.
Proof.
  apply (shape_mismatch_rejected (set_tags [0; 1] scenario));
    [exists 0; split; [simpl; tauto | lia] | simpl; lia ..].
Defined.

(** *** The lookup table of the re-indexing *)

Lemma sorted_nth (l : list Z) :
  StronglySorted Z.le l ->
  forall j1 j2 x1 x2,
    (j1 <= j2)%nat -> nth_error l j1 = Some x1 -> nth_error l j2 = Some x2 ->
    x1 <= x2.
Proof.
  induction 1 as [| a l Hs IH Hall]; intros [| j1] [| j2] x1 x2 Hj H1 H2;
    simpl in *; try discriminate; try lia.
  - inversion H1; inversion H2; lia.
  - inversion H1; subst a. rewrite Forall_forall in Hall.
    apply Hall. eapply nth_error_In. eassumption.
  - apply (IH j1 j2); try assumption. lia.
Qed.

Lemma sorted_app (l1 l2 : list Z) :
  StronglySorted Z.lt l1 -> StronglySorted Z.lt l2 ->
  (forall x y, In x l1 -> In y l2 -> x < y) ->
  StronglySorted Z.lt (l1 ++ l2).
Proof.
  induction 1 as [| a l1 Hs IH Hall]; intros H2 Hx; simpl; [assumption |].
  constructor.
  - apply IH; [assumption |]. intros x y Hin Hy. apply Hx; [right |]; assumption.
  - rewrite Forall_forall in *. intros y Hy. apply in_app_or in Hy.
    destruct Hy as [Hy | Hy]; [apply Hall; assumption |].
    apply Hx; [left; reflexivity | assumption].
Qed.

Lemma sorted_concat (ls : list (list Z)) :
  (forall l, In l ls -> StronglySorted Z.lt l) ->
  (forall i j l1 l2 x y,
     (i < j)%nat -> nth_error ls i = Some l1 -> nth_error ls j = Some l2 ->
     In x l1 -> In y l2 -> x < y) ->
  StronglySorted Z.lt (concat ls).
Proof.
  induction ls as [| l ls IH]; intros Hs Hx; simpl; [constructor |].
  apply sorted_app.
  - apply Hs. left. reflexivity.
  - apply IH.
    + intros l' Hl'. apply Hs. right. assumption.
    + intros i j l1 l2 x y Hij H1 H2. apply (Hx (S i) (S j)); try assumption. lia.
  - intros x y Hin Hy. apply in_concat in Hy. destruct Hy as (l2 & Hl2 & Hy).
    apply In_nth_error in Hl2. destruct Hl2 as (j & Hj).
    apply (Hx 0%nat (S j) l l2); try assumption; [lia | reflexivity].
Qed.

(** Two increasing lists with the same elements are the same list. *)
Lemma sorted_same_elements (l1 l2 : list Z) :
  StronglySorted Z.lt l1 -> StronglySorted Z.lt l2 ->
  (forall x, In x l1 <-> In x l2) -> l1 = l2.
Proof.
  intro H1. revert l2. induction H1 as [| a l1 Hs IH Hall]; intros l2 H2 Heq.
  - destruct l2 as [| c l2]; [reflexivity |].
    exfalso. apply (proj2 (Heq c)). left. reflexivity.
  - inversion H2 as [| c l2' Hs2 Hall2]; subst.
    + exfalso. apply (proj1 (Heq a)). left. reflexivity.
    + rewrite Forall_forall in Hall, Hall2.
      assert (Hac : a = c).
      { destruct (proj1 (Heq a) (or_introl eq_refl)) as [E | Hin]; [congruence |].
        destruct (proj2 (Heq c) (or_introl eq_refl)) as [E | Hin']; [congruence |].
        pose proof (Hall _ Hin'). pose proof (Hall2 _ Hin). lia. }
      subst c. f_equal. apply IH; [assumption |].
      intro x. split; intro Hx.
      * destruct (proj1 (Heq x) (or_intror Hx)) as [E | Hin]; [| assumption].
        pose proof (Hall _ Hx). lia.
      * destruct (proj2 (Heq x) (or_intror Hx)) as [E | Hin]; [| assumption].
        pose proof (Hall2 _ Hx). lia.
Qed.

(** Assignment through a mask: the [r]-th true position takes the
    [r]-th value, the false positions keep theirs. *)
Lemma scatter_where {A : Type} (t : list A) :
  forall (m : list bool) (vals : list A) (k : Z),
    length t = length m ->
    length vals = Torch.count_true m ->
    (forall r x, nth_error (Torch.where_from k m) r = Some x ->
                 nth_error (Torch.scatter t m vals) (Z.to_nat (x - k))
                 = nth_error vals r) /\
    (forall j, nth_error m j = Some false ->
               nth_error (Torch.scatter t m vals) j = nth_error t j).
Proof.
  induction t as [| a t IH]; intros [| c m] vals k Hl Hc; simpl in Hl;
    try discriminate.
  - split; [intros [| r] x H; discriminate | intros [| j] H; discriminate].
  - destruct c.
    + destruct vals as [| v vals]; [discriminate |].
      simpl in Hc. destruct (IH m vals (k + 1) ltac:(lia) ltac:(lia)) as (Ht & Hf).
      split.
      * intros [| r] x Hx; simpl in Hx.
        -- inversion Hx; subst x. replace (k - k) with 0 by lia. reflexivity.
        -- assert (Hge : k + 1 <= x)
             by (apply (where_from_ge (k + 1) m); eapply nth_error_In; eassumption).
           replace (Z.to_nat (x - k)) with (S (Z.to_nat (x - (k + 1)))) by lia.
           simpl. apply Ht. assumption.
      * intros [| j] Hj; simpl in Hj; [discriminate |]. simpl. apply Hf. assumption.
    + simpl in Hc. destruct (IH m vals (k + 1) ltac:(lia) Hc) as (Ht & Hf).
      split.
      * intros r x Hx. simpl in Hx.
        assert (Hge : k + 1 <= x)
          by (apply (where_from_ge (k + 1) m); eapply nth_error_In; eassumption).
        replace (Z.to_nat (x - k)) with (S (Z.to_nat (x - (k + 1)))) by lia.
        simpl. apply Ht. assumption.
      * intros [| j] Hj; simpl in Hj; simpl; [reflexivity |]. apply Hf. assumption.
Qed.

Lemma arange_nth (a c : Z) (k : nat) :
  (k < Z.to_nat (c - a))%nat ->
  nth_error (Torch.arange a c) k = Some (a + Z.of_nat k).
Proof.
  intro H. unfold Torch.arange. rewrite nth_error_map, nth_error_seq.
  destruct (Nat.ltb_spec k (Z.to_nat (c - a))); [reflexivity | lia].
Qed.

(** The new indices handed out to the kept atoms, graph after graph. *)
Lemma new_ids_nth (nsl : list (list Z)) (bs : nat) (vals : list Z)
    (i k : nat) (ns : list Z) :
  Single.new_ids bs (Single.new_ptr (Single.new_sn_ids nsl bs)) = Ok vals ->
  length nsl = bs ->
  nth_error nsl i = Some ns ->
  (k < length ns)%nat ->
  nth_error vals (length (concat (firstn i nsl)) + k)
  = Some (sum_list (map (@len Z) (firstn i nsl)) + Z.of_nat i + Z.of_nat k).
Proof.
  intros H Hlen Hns Hk. unfold Single.new_ids in H. bind_steps H.
  apply cat_concat in H. subst vals.
  destruct (mapM_range _ _ _ E) as (Hl & Hnth).
  assert (Hrow : forall e, (e < bs)%nat ->
            nth_error v e
            = Some (Torch.arange
                      (sum_list (map (@len Z) (firstn e nsl)) + Z.of_nat e)
                      (sum_list (map (@len Z) (firstn (S e) nsl)) + Z.of_nat (S e) - 1))).
  { intros e He. destruct (Hnth e He) as (y & Hy & Hf). bind_steps Hf.
    inversion Hf; subst y.
    apply get_nat in E0; [| lia]. apply get_nat in E1; [| lia].
    rewrite Nat2Z.id in E0.
    replace (Z.to_nat (Z.of_nat e + 1)) with (S e) in E1 by lia.
    rewrite new_ptr_nth in E0, E1 by lia.
    rewrite Hy. congruence. }
  assert (Hi : (i < bs)%nat)
    by (rewrite <- Hlen; apply nth_error_Some; rewrite Hns; discriminate).
  assert (Hsame : length (concat (firstn i v)) = length (concat (firstn i nsl))).
  { apply concat_prefix_same_lengths; [congruence |].
    intros e x y Hx Hy.
    assert (He : (e < bs)%nat)
      by (rewrite <- Hl; apply nth_error_Some; rewrite Hx; discriminate).
    pose proof (Hrow e He) as Hr. rewrite Hx in Hr.
    assert (Hxe : x = Torch.arange
                        (sum_list (map (@len Z) (firstn e nsl)) + Z.of_nat e)
                        (sum_list (map (@len Z) (firstn (S e) nsl))
                         + Z.of_nat (S e) - 1)) by congruence.
    rewrite Hxe, arange_length, (prefix_len_succ _ _ _ Hy). unfold len at 2. lia. }
  rewrite <- Hsame.
  assert (Hspan : Z.to_nat (sum_list (map (@len Z) (firstn (S i) nsl))
                            + Z.of_nat (S i) - 1
                            - (sum_list (map (@len Z) (firstn i nsl)) + Z.of_nat i))
                  = length ns).
  { rewrite (prefix_len_succ _ _ _ Hns). unfold len at 2. lia. }
  rewrite (concat_block_nth v i k _ (Hrow i Hi)).
  - rewrite arange_nth by lia. reflexivity.
  - rewrite arange_length. lia.
Qed.

(** On a batch whose graphs follow one another in the batch vector,
    the lookup table sends the [k]-th kept atom of graph [i] to
    [ptr[i] + k] of the new batch and every other entry to [-1]. *)
Lemma lookup_table (b : Batch) (bs : nat) (n : Z)
    (mask0 mask : list bool) (assoc0 vals assoc : list Z) :
  let nsl := map (fun i => Torch.where_ (non_sub_mask b i)) (range bs) in
  length (tags b) = length (batch b) ->
  StronglySorted Z.le (batch b) ->
  (0 < bs)%nat ->
  Torch.full n false = Ok mask0 ->
  Torch.index_put mask0 (concat nsl) true = Ok mask ->
  Torch.full n (-1) = Ok assoc0 ->
  Single.new_ids bs (Single.new_ptr (Single.new_sn_ids nsl bs)) = Ok vals ->
  Torch.mask_put assoc0 mask vals = Ok assoc ->
  (forall i k ns x,
     nth_error nsl i = Some ns -> nth_error ns k = Some x ->
     nth_error assoc (Z.to_nat x)
     = Some (sum_list (map (@len Z) (firstn i nsl)) + Z.of_nat i + Z.of_nat k)) /\
  (forall j, (j < length assoc)%nat -> ~ In (Z.of_nat j) (concat nsl) ->
             nth_error assoc j = Some (-1)).
Proof.
  intros nsl Hal Hsorted Hbs Hm0 Hput Ha0 Hvals Hassoc.
  assert (Hnl : length nsl = bs) by apply map_range_length.
  assert (Hmask0 : mask0 = repeat false (Z.to_nat n)).
  { unfold Torch.full in Hm0. destruct (n <? 0); inversion Hm0. reflexivity. }
  assert (Hassoc0 : assoc0 = repeat (-1) (Z.to_nat n)).
  { unfold Torch.full in Ha0. destruct (n <? 0); inversion Ha0. reflexivity. }
  assert (Hpos : forall x, In x (concat nsl) -> 0 <= x).
  { intros x Hx. apply in_concat in Hx. destruct Hx as (l & Hl & Hx).
    apply in_map_iff in Hl. destruct Hl as (i & <- & _).
    apply where_bound in Hx. lia. }
  destruct (index_put_nth _ _ _ _ Hpos Hput) as (Hl & Hin & Hout).
  assert (Hwhere : Torch.where_ mask = concat nsl).
  { apply sorted_same_elements.
    - apply where_from_sorted.
    - apply sorted_concat.
      + intros l Hl'. apply in_map_iff in Hl'. destruct Hl' as (i & <- & _).
        apply where_from_sorted.
      + intros i j l1 l2 x y Hij H1 H2 Hx Hy.
        apply map_range_nth in H1, H2. destruct H1 as (_ & ->), H2 as (_ & ->).
        unfold Torch.where_ in Hx, Hy. apply where_from_In in Hx, Hy.
        destruct Hx as (j1 & E1 & T1), Hy as (j2 & E2 & T2).
        apply non_sub_mask_true in T1, T2.
        destruct (Z_lt_le_dec x y) as [Hlt | Hge]; [assumption |].
        pose proof (sorted_nth _ Hsorted j2 j1 _ _ ltac:(lia) T2 T1). lia.
    - intro x. split; intro Hx.
      + pose proof (where_bound _ _ Hx) as Hb.
        replace x with (Z.of_nat (Z.to_nat x)) in * by lia.
        apply where_In in Hx.
        destruct (in_dec Z.eq_dec (Z.of_nat (Z.to_nat x)) (concat nsl)) as [Hi | Hn];
          [assumption |].
        rewrite (Hout _ Hn), Hmask0 in Hx. apply nth_error_In, repeat_spec in Hx.
        discriminate.
      + pose proof (Hpos x Hx).
        replace x with (Z.of_nat (Z.to_nat x)) in * by lia.
        apply where_In. apply Hin. assumption. }
  assert (Hlv : length vals = Torch.count_true mask).
  { destruct (new_ids_complete nsl bs Hnl Hbs) as (vals' & Hv' & Hlen).
    rewrite Hvals in Hv'. inversion Hv'; subst vals'.
    rewrite Hlen, <- Hwhere. apply where_from_length. }
  assert (Hlm : length assoc0 = length mask).
  { rewrite Hl, Hassoc0, Hmask0, !repeat_length. reflexivity. }
  rewrite (mask_put_ok _ _ _ Hlm Hlv) in Hassoc. inversion Hassoc; subst assoc.
  destruct (scatter_where assoc0 mask vals 0 Hlm Hlv) as (Ht & Hf).
  split.
  - intros i k ns x Hns Hk.
    assert (Hklt : (k < length ns)%nat)
      by (apply nth_error_Some; rewrite Hk; discriminate).
    assert (Hr : nth_error (Torch.where_from 0 mask)
                   (length (concat (firstn i nsl)) + k) = Some x).
    { fold (Torch.where_ mask). rewrite Hwhere.
      rewrite (concat_block_nth nsl i k ns Hns Hklt). assumption. }
    pose proof (Ht _ _ Hr) as Hv. rewrite Z.sub_0_r in Hv. rewrite Hv.
    apply (new_ids_nth nsl bs vals i k ns Hvals Hnl Hns Hklt).
  - intros j Hj Hn. rewrite scatter_length in Hj.
    assert (Hmj : nth_error mask j = Some false).
    { rewrite (Hout j Hn), Hmask0. apply nth_error_repeat.
      rewrite Hassoc0, repeat_length in Hj. assumption. }
    rewrite (Hf j Hmj), Hassoc0. apply nth_error_repeat.
    rewrite Hassoc0, repeat_length in Hj. assumption.
Qed.

Lemma block_lookup (b data : Batch) :
  Single.one_supernode_block b = Ok data ->
  exists bs non_sub all_nb all_ns ei_nb last mask0 mask assoc0 vals assoc,
    Single.batch_size b = Ok bs /\
    mapM (Single.non_sub_nodes_of b) (range bs) = Ok non_sub /\
    ptr data = Single.new_ptr (Single.new_sn_ids non_sub bs) /\
    Torch.cat non_sub = Ok all_ns /\
    Torch.mask_select (edge_index b) all_nb = Ok ei_nb /\
    Torch.get (ptr b) (-1) = Ok last /\
    Torch.full (last + Z.of_nat bs) false = Ok mask0 /\
    Torch.index_put mask0 all_ns true = Ok mask /\
    Torch.full (last + Z.of_nat bs) (-1) = Ok assoc0 /\
    Single.new_ids bs (ptr data) = Ok vals /\
    Torch.mask_put assoc0 mask vals = Ok assoc /\
    Single.reindex assoc ei_nb = Ok (edge_index data).
Proof.
  intro H. unfold Single.one_supernode_block in H. cbv beta zeta in H.
  bind_steps H. inversion H; subst data; clear H. fields.
  do 11 eexists. repeat split; eassumption.
Qed.

(** What the lookup table makes of an atom of the input. *)
Lemma lookup_relabels (b data : Batch) (bs : nat) (n : Z)
    (mask0 mask : list bool) (assoc0 vals assoc : list Z) :
  let nsl := map (fun i => Torch.where_ (non_sub_mask b i)) (range bs) in
  length (tags b) = length (batch b) ->
  (forall x, In x (batch b) -> 0 <= x) ->
  StronglySorted Z.le (batch b) ->
  Single.batch_size b = Ok bs ->
  ptr data = Single.new_ptr (Single.new_sn_ids nsl bs) ->
  Torch.full n false = Ok mask0 ->
  Torch.index_put mask0 (concat nsl) true = Ok mask ->
  Torch.full n (-1) = Ok assoc0 ->
  Single.new_ids bs (Single.new_ptr (Single.new_sn_ids nsl bs)) = Ok vals ->
  Torch.mask_put assoc0 mask vals = Ok assoc ->
  forall x x',
    0 <= x < len (batch b) -> Torch.get assoc x = Ok x' -> relabelled b data x x'.
Proof.
  intros nsl Hal Hnn Hsorted Hbs Hptr Hm0 Hput Ha0 Hvals Hassoc x x' Hx Hg.
  destruct (batch_size_bounds b bs Hbs Hnn) as (Hbs0 & Hrange).
  destruct (lookup_table b bs _ mask0 mask assoc0 vals assoc
              Hal Hsorted Hbs0 Hm0 Hput Ha0 Hvals Hassoc) as (Hkept & Hrest).
  fold nsl in Hkept, Hrest.
  apply get_nat in Hg; [| lia].
  destruct (in_dec Z.eq_dec x (concat nsl)) as [Hi | Hn].
  - right. apply in_concat in Hi. destruct Hi as (l & Hl & Hxl).
    apply In_nth_error in Hl, Hxl. destruct Hl as (i & Hi), Hxl as (k & Hk).
    pose proof Hi as Hi'. unfold nsl in Hi'. apply map_range_nth in Hi'.
    destruct Hi' as (Hib & Hl).
    exists i, k, l, (sum_list (map (@len Z) (firstn i nsl)) + Z.of_nat i).
    split; [rewrite Hl; apply non_sub_nodes_of_aligned; assumption |].
    split; [assumption |].
    split; [rewrite Hptr; apply new_ptr_nth; lia |].
    rewrite (Hkept i k l x Hi Hk) in Hg. congruence.
  - left.
    assert (Hj : (Z.to_nat x < length assoc)%nat)
      by (apply nth_error_Some; rewrite Hg; discriminate).
    assert (Hn' : ~ In (Z.of_nat (Z.to_nat x)) (concat nsl))
      by (rewrite Z2Nat.id by lia; assumption).
    rewrite (Hrest _ Hj Hn') in Hg.
    split; [| congruence].
    unfold len in Hx.
    destruct (nth_error_lt (batch b) (Z.to_nat x) ltac:(lia)) as (c & Hc).
    destruct (nth_error_lt (tags b) (Z.to_nat x) ltac:(lia)) as (t & Ht).
    pose proof (Hrange c (nth_error_In _ _ Hc)) as Hcb.
    destruct (Z.eq_dec t 0) as [-> | Hne]; [assumption |].
    exfalso. apply Hn'. apply in_concat.
    exists (Torch.where_ (non_sub_mask b (Z.to_nat c))). split.
    + unfold nsl. apply in_map_iff. exists (Z.to_nat c).
      split; [reflexivity |]. unfold range. apply in_seq. lia.
    + apply where_In. unfold non_sub_mask.
      rewrite zip_and_true, ne_scalar_true, eq_scalar_true.
      split; [exists t; split; assumption |].
      rewrite Z2Nat.id by lia. assumption.
Qed.

(** X12. On a batch whose per-atom arrays are aligned, whose graphs
    follow one another in the batch vector and whose edges join atoms
    of the batch, every edge of the new edge index comes from an edge
    of the input with both endpoints relabelled: an endpoint that is a
    sub-surface atom (tag 0) becomes [-1], and an endpoint that is the
    [k]-th kept atom of graph [i] becomes [ptr[i] + k], the node that
    holds this atom's rows in the new per-node arrays. *)
Theorem edges_follow_atoms (b data : Batch) :
  Single.one_supernode_block b = Ok data ->
  length (tags b) = length (batch b) ->
  (forall x, In x (batch b) -> 0 <= x) ->
  StronglySorted Z.le (batch b) ->
  (forall s t, In (s, t) (edge_index b) ->
               0 <= s < len (batch b) /\ 0 <= t < len (batch b)) ->
  forall s' t',
    In (s', t') (edge_index data) ->
    exists s t,
      In (s, t) (edge_index b) /\
      relabelled b data s s' /\
      relabelled b data t t'.
Proof.
  intros Hblock Hal Hnn Hsorted Hedges s' t' Hin.
  destruct (block_lookup _ _ Hblock)
    as (bs & non_sub & all_nb & all_ns & ei_nb & last & mask0 & mask & assoc0
        & vals & assoc & Hbs & Hnon & Hptr & Hcat & Hsel & _ & Hm0 & Hput
        & Ha0 & Hvals & Hassoc & Hre).
  destruct (partition_complete b bs Hal) as (_ & Hnsl).
  rewrite Hnon in Hnsl.
  assert (Hns : non_sub = map (fun i => Torch.where_ (non_sub_mask b i)) (range bs))
    by congruence.
  clear Hnsl. apply cat_concat in Hcat. subst all_ns. rewrite Hptr in Hvals.
  rewrite Hns in Hput, Hvals, Hptr.
  pose proof (lookup_relabels b data bs _ mask0 mask assoc0 vals assoc
                Hal Hnn Hsorted Hbs Hptr Hm0 Hput Ha0 Hvals Hassoc) as Hend.
  destruct (mapM_In _ _ _ Hre _ Hin) as ((s, t) & Hst & Hf).
  cbn [fst snd] in Hf. bind_steps Hf.
  assert (Hs' : v = s') by congruence. assert (Ht' : v0 = t') by congruence.
  subst v v0.
  assert (Horig : In (s, t) (edge_index b)).
  { unfold Torch.mask_select in Hsel.
    destruct (Nat.eqb (length (edge_index b)) (length all_nb)); [| discriminate].
    assert (ei_nb = Torch.masked (edge_index b) all_nb) by congruence. subst ei_nb.
    eapply masked_subset. eassumption. }
  destruct (Hedges s t Horig) as (Hsr & Htr).
  exists s, t. split; [assumption |].
  split; apply Hend; assumption.
Qed.

Lemma edges_follow_atoms_witness :
  Single.one_supernode_block scenario = Ok scenario_out /\
  forall s' t',
    In (s', t') (edge_index scenario_out) ->
    exists s t,
      In (s, t) (edge_index scenario) /\
      relabelled scenario scenario_out s s' /\
      relabelled scenario scenario_out t t'.
Proof.
  assert (Hb : Single.one_supernode_block scenario = Ok scenario_out)
    by (vm_compute; reflexivity).
  split; [exact Hb |].
  apply (edges_follow_atoms scenario scenario_out Hb).
  - reflexivity.
  - intros x Hx. simpl in Hx. intuition lia.
  - simpl. repeat (constructor; try lia).
  - intros s t Hst. simpl in Hst. unfold len. simpl.
    destruct Hst as [E | [E | []]]; inversion E; lia.
Defined.

(** *** The distances of the new edges *)

Lemma edge_lengths_nth (p : list vec3) (ei : list (Z * Z)) (d : list root)
    (e : nat) (s t : Z) :
  Single.edge_lengths p ei = Ok d ->
  nth_error ei e = Some (s, t) ->
  exists u v,
    Torch.get p s = Ok u /\ Torch.get p t = Ok v /\
    nth_error d e = Some (euclid u v).
Proof.
  unfold Single.edge_lengths. intros H He. bind_steps H.
  assert (Hd : d = Torch.zip_with euclid v v0) by congruence. subst d.
  assert (Hs : nth_error (map fst ei) e = Some s)
    by (rewrite nth_error_map, He; reflexivity).
  assert (Ht : nth_error (map snd ei) e = Some t)
    by (rewrite nth_error_map, He; reflexivity).
  destruct (mapM_nth _ _ _ E e s Hs) as (u & Hu & Hgu).
  destruct (mapM_nth _ _ _ E0 e t Ht) as (w & Hw & Hgw).
  exists u, w. split; [assumption |]. split; [assumption |].
  apply zip_with_nth; assumption.
Qed.

Lemma get_minus_one {A : Type} (t : list A) (a : A) :
  Torch.get t (-1) = Ok a -> nth_error t (Z.to_nat (len t - 1)) = Some a.
Proof.
  intro H. destruct t as [| x t]; [discriminate H |].
  unfold len. cbn [length].
  replace (Z.to_nat (Z.of_nat (S (length t)) - 1)) with (length t) by lia.
  apply (get_last (x :: t) (length t) a); [reflexivity | assumption].
Qed.

Lemma new_pos_length (b data : Batch) (bs : nat) (total : Z) :
  Single.one_supernode_block b = Ok data ->
  Single.batch_size b = Ok bs ->
  nth_error (ptr data) bs = Some total ->
  len (pos data) = total.
Proof.
  intros Hblock Hbs Htot.
  destruct (block_arrays _ _ Hblock)
    as (bs1 & sub1 & non_sub & snp & snr & snf & Hbs1 & _ & Hnon
        & _ & _ & _ & Hpos & _).
  destruct (block_nodes _ _ Hblock)
    as (bs0 & sub0 & non0 & Hbs0 & _ & Hnon0 & Hptr & _).
  rewrite Hbs in Hbs0, Hbs1.
  assert (bs0 = bs) by congruence. assert (bs1 = bs) by congruence. subst bs0 bs1.
  rewrite Hnon0 in Hnon. assert (non0 = non_sub) by congruence. subst non0.
  rewrite Hptr, new_ptr_nth in Htot by lia.
  unfold len. rewrite (compact_length _ _ _ _ _ Hpos). congruence.
Qed.

(** X13. Whenever the block completes, the distance stored for the
    [e]-th new edge is the Euclidean distance between the new positions
    its two endpoints address; an endpoint [-1] addresses the last row
    of the new positions, which is the super node of the last graph of
    the batch, whatever graph the edge belongs to. *)
Theorem sentinel_distance (b data : Batch) (bs e : nat) (total s' t' : Z) :
  Single.one_supernode_block b = Ok data ->
  Single.batch_size b = Ok bs ->
  nth_error (ptr data) bs = Some total ->
  nth_error (edge_index data) e = Some (s', t') ->
  exists u v,
    Torch.get (pos data) s' = Ok u /\
    Torch.get (pos data) t' = Ok v /\
    nth_error (distances data) e = Some (euclid u v) /\
    (s' = -1 -> nth_error (pos data) (Z.to_nat (total - 1)) = Some u) /\
    (t' = -1 -> nth_error (pos data) (Z.to_nat (total - 1)) = Some v).
Proof.
  intros Hblock Hbs Htot He.
  destruct (block_filter _ _ Hblock)
    as (both & all_nb & ei_nb & assoc & sb & _ & _ & _ & _ & Hd & _).
  pose proof (new_pos_length _ _ _ _ Hblock Hbs Htot) as Hlen.
  destruct (edge_lengths_nth _ _ _ e s' t' Hd He) as (u & v & Hu & Hv & Hn).
  exists u, v. repeat (split; [assumption |]).
  split; intro Hs; rewrite <- Hlen; apply get_minus_one; congruence.
Qed.

Lemma sentinel_distance_witness :
  Single.one_supernode_block scenario = Ok scenario_out /\
  exists u v,
    Torch.get (pos scenario_out) (-1) = Ok u /\
    Torch.get (pos scenario_out) 0 = Ok v /\
    nth_error (distances scenario_out) 0 = Some (euclid u v) /\
    (-1 = -1 -> nth_error (pos scenario_out) (Z.to_nat (7 - 1)) = Some u) /\
    (0 = -1 -> nth_error (pos scenario_out) (Z.to_nat (7 - 1)) = Some v).
Proof.
  assert (Hb : Single.one_supernode_block scenario = Ok scenario_out)
    by (vm_compute; reflexivity).
  assert (Hc : Single.batch_size scenario = Ok 2%nat) by reflexivity.
  assert (Hq : nth_error (ptr scenario_out) 2 = Some 7) by reflexivity.
  assert (He : nth_error (edge_index scenario_out) 0 = Some (-1, 0)) by reflexivity.
  split; [exact Hb |].
  exact (sentinel_distance scenario scenario_out 2 0 7 (-1) 0 Hb Hc Hq He).
Defined.

(** ** Further properties of the several-super-nodes block *)

(** *** The atom types of a graph *)

Lemma count_insert_In_intro (x y : Z) (tbl : list (Z * Z)) :
  y = x \/ In y (map fst tbl) -> In y (map fst (Torch.count_insert x tbl)).
Proof.
  induction tbl as [| [z c] tbl IH]; simpl; intro H.
  - destruct H as [H | H]; [left; symmetry; assumption | contradiction].
  - destruct (x <? z) eqn:E1; simpl.
    + destruct H as [H | H]; [left; symmetry; assumption | right; assumption].
    + destruct (x =? z) eqn:E2; simpl.
      * apply Z.eqb_eq in E2. destruct H as [H | [H | H]];
          [left; congruence | left; assumption | right; assumption].
      * destruct H as [H | [H | H]];
          [right; apply IH; left; assumption | left; assumption
          | right; apply IH; right; assumption].
Qed.

Lemma count_fold_In_intro (l : list Z) (acc : list (Z * Z)) (y : Z) :
  In y l \/ In y (map fst acc) ->
  In y (map fst (fold_left (fun a x => Torch.count_insert x a) l acc)).
Proof.
  revert acc. induction l as [| x l IH]; simpl; intros acc H.
  - destruct H as [H | H]; [contradiction | assumption].
  - apply IH. destruct H as [[H | H] | H].
    + right. apply count_insert_In_intro. left. symmetry. assumption.
    + left. assumption.
    + right. apply count_insert_In_intro. right. assumption.
Qed.

Lemma unique_complete (l : list Z) (y : Z) : In y l -> In y (Torch.unique l).
Proof.
  intro H. unfold Torch.unique, Torch.unique_counts. cbn [fst].
  apply count_fold_In_intro. left. assumption.
Qed.

Lemma count_insert_sorted (x : Z) (tbl : list (Z * Z)) :
  StronglySorted Z.lt (map fst tbl) ->
  StronglySorted Z.lt (map fst (Torch.count_insert x tbl)).
Proof.
  induction tbl as [| [z c] tbl IH]; simpl; intro H.
  - constructor; constructor.
  - inversion H as [| z' l' Hs Hall]; subst.
    destruct (Z.ltb_spec x z) as [Hlt | Hge]; simpl.
    + constructor; [assumption |]. constructor; [assumption |].
      rewrite Forall_forall in *. intros y Hy. pose proof (Hall y Hy). lia.
    + destruct (Z.eqb_spec x z) as [He | Hne]; simpl; [assumption |].
      constructor; [apply IH; assumption |].
      rewrite Forall_forall in *. intros y Hy.
      apply count_insert_In in Hy. destruct Hy as [-> | Hy]; [lia |].
      apply Hall. assumption.
Qed.

(** [unique] lists its values in strictly increasing order. *)
Lemma unique_sorted (l : list Z) : StronglySorted Z.lt (Torch.unique l).
Proof.
  unfold Torch.unique, Torch.unique_counts. cbn [fst].
  assert (H : forall acc, StronglySorted Z.lt (map fst acc) ->
                          StronglySorted Z.lt
                            (map fst (fold_left (fun a x => Torch.count_insert x a) l acc))).
  { induction l as [| x l IH]; simpl; intros acc Hacc; [assumption |].
    apply IH. apply count_insert_sorted. assumption. }
  apply H. constructor.
Qed.

Lemma sorted_lt_nth (l : list Z) :
  StronglySorted Z.lt l ->
  forall j1 j2 x1 x2,
    (j1 < j2)%nat -> nth_error l j1 = Some x1 -> nth_error l j2 = Some x2 ->
    x1 < x2.
Proof.
  induction 1 as [| a l Hs IH Hall]; intros [| j1] [| j2] x1 x2 Hj H1 H2;
    simpl in *; try discriminate; try lia.
  - inversion H1; subst a. rewrite Forall_forall in Hall.
    apply Hall. eapply nth_error_In. eassumption.
  - apply (IH j1 j2); try assumption. lia.
Qed.

Lemma masked_In_intro {A : Type} (t : list A) (m : list bool) (a : A) (j : nat) :
  nth_error t j = Some a -> nth_error m j = Some true -> In a (Torch.masked t m).
Proof.
  revert m j. induction t as [| x t IH]; intros [| c m] [| j] Ht Hm;
    simpl in *; try discriminate.
  - inversion Ht; inversion Hm; subst. left. reflexivity.
  - destruct c; [right |]; eapply IH; eassumption.
Qed.

(** Every sub-surface atom of graph [i] lies in the composition of
    its own atomic number. *)
Lemma composition_covers (b : Batch) (bs i : nat)
    (types : list (list Z)) (comp : list (list (list Z)))
    (idx : list (list Z)) (sn_pos : list vec3) :
  aligned b ->
  Several.supernodes b bs = Ok (types, comp, idx, sn_pos) ->
  (i < bs)%nat ->
  exists ts c,
    nth_error types i = Some ts /\
    nth_error comp i = Some c /\
    length c = length ts /\
    Several.atom_types_of b i = Ok ts /\
    mapM (Several.members_of b i) ts = Ok c /\
    forall j,
      is_sub b i j ->
      exists k an members,
        nth_error ts k = Some an /\
        nth_error c k = Some members /\
        nth_error (atomic_numbers b) j = Some an /\
        In (Z.of_nat j) members.
Proof.
  intros Hal H Hi. pose proof Hal as (Halt & Hala).
  unfold Several.supernodes in H. bind_steps H.
  assert (Ht : v = types) by congruence. assert (Hc : v0 = comp) by congruence.
  subst v v0. clear H.
  destruct (mapM_range _ _ _ E) as (Hlt & Hnth).
  destruct (Hnth i Hi) as (ts & Hts & Hat).
  destruct (composition_lengths _ _ _ _ E0 Hlt) as (Hlc & Hcomp).
  destruct (nth_error_lt comp i ltac:(lia)) as (c & Hci).
  pose proof (Hcomp i c ts Hci Hts) as Hmem.
  exists ts, c. split; [assumption |]. split; [assumption |].
  split; [apply (mapM_length _ _ _ Hmem) |].
  split; [assumption |]. split; [assumption |].
  unfold Several.atom_types_of in Hat.
  rewrite mask_mul_same in Hat
    by (unfold Torch.eq_scalar; rewrite !length_map; assumption).
  cbn [bind] in Hat. bind_steps Hat.
  assert (Hu : ts = Torch.unique v) by congruence.
  unfold Torch.mask_select in E3.
  destruct (Nat.eqb _ _); [| discriminate].
  assert (Hv : v = Torch.masked (atomic_numbers b)
                     (Torch.zip_with andb (Torch.eq_scalar (tags b) 0)
                        (Torch.eq_scalar (batch b) (Z.of_nat i))))
    by congruence.
  intros j Hsub.
  assert (Hjl : (j < length (batch b))%nat).
  { destruct Hsub as (_ & Hb). apply nth_error_Some. rewrite Hb. discriminate. }
  destruct (nth_error_lt (atomic_numbers b) j ltac:(lia)) as (an & Han).
  assert (Hin : In an ts).
  { rewrite Hu. apply unique_complete. rewrite Hv.
    apply (masked_In_intro _ _ _ j Han). apply sub_mask_true. assumption. }
  apply In_nth_error in Hin. destruct Hin as (k & Hk).
  destruct (mapM_nth _ _ _ Hmem k an Hk) as (members & Hmk & Hmo).
  destruct (members_of_spec _ _ _ _ Hal Hmo) as (m & -> & Hm).
  exists k, an, (Torch.where_ m).
  split; [assumption |]. split; [assumption |]. split; [assumption |].
  apply where_In. apply Hm. split; assumption.
Qed.

Lemma atom_types_sorted (b : Batch) (i : nat) (ts : list Z) :
  Several.atom_types_of b i = Ok ts -> StronglySorted Z.lt ts.
Proof.
  unfold Several.atom_types_of. intro H. bind_steps H.
  assert (Hu : ts = Torch.unique v0) by congruence.
  rewrite Hu. apply unique_sorted.
Qed.

(** X14. On an aligned batch the atom types found for graph [i] are
    strictly increasing, there is one composition per atom type, and
    every sub-surface atom of the graph lies in exactly one
    composition of the graph, the one of its own atomic number: the
    super nodes of a graph partition its sub-surface atoms. *)
Theorem supernodes_partition (b : Batch) (bs i : nat)
    (types : list (list Z)) (comp : list (list (list Z)))
    (idx : list (list Z)) (sn_pos : list vec3) :
  aligned b ->
  Several.supernodes b bs = Ok (types, comp, idx, sn_pos) ->
  (i < bs)%nat ->
  exists ts c,
    nth_error types i = Some ts /\
    nth_error comp i = Some c /\
    length c = length ts /\
    StronglySorted Z.lt ts /\
    forall j,
      is_sub b i j ->
      exists k an members,
        nth_error ts k = Some an /\
        nth_error c k = Some members /\
        nth_error (atomic_numbers b) j = Some an /\
        In (Z.of_nat j) members /\
        forall k' members',
          nth_error c k' = Some members' -> In (Z.of_nat j) members' -> k' = k.
Proof.
  intros Hal H Hi.
  destruct (composition_covers b bs i types comp idx sn_pos Hal H Hi)
    as (ts & c & Hts & Hci & Hlen & Hat & Hmem & Hcover).
  pose proof (atom_types_sorted b i ts Hat) as Hsorted.
  exists ts, c. repeat (split; [assumption |]).
  intros j Hsub.
  destruct (Hcover j Hsub) as (k & an & members & Hk & Hmk & Han & Hin).
  exists k, an, members. repeat (split; [assumption |]).
  intros k' members' Hk' Hj'.
  destruct (mapM_nth_inv _ _ _ Hmem k' members' Hk') as (an' & Han' & Hmo').
  destruct (members_of_spec _ _ _ _ Hal Hmo') as (m' & -> & Hm').
  apply where_In, Hm' in Hj'. destruct Hj' as (Hanj & _).
  assert (an' = an) by congruence. subst an'.
  destruct (Nat.lt_trichotomy k' k) as [Hlt' | [Heq | Hgt]]; [| assumption |].
  - pose proof (sorted_lt_nth _ Hsorted k' k an an Hlt' Han' Hk). lia.
  - pose proof (sorted_lt_nth _ Hsorted k k' an an Hgt Hk Han'). lia.
Qed.

Lemma supernodes_partition_witness :
  exists ts c,
    nth_error (fst (fst (fst scenario_supernodes))) 0 = Some ts /\
    nth_error (snd (fst (fst scenario_supernodes))) 0 = Some c /\
    length c = length ts /\
    StronglySorted Z.lt ts /\
    forall j,
      is_sub scenario 0 j ->
      exists k an members,
        nth_error ts k = Some an /\
        nth_error c k = Some members /\
        nth_error (atomic_numbers scenario) j = Some an /\
        In (Z.of_nat j) members /\
        forall k' members',
          nth_error c k' = Some members' -> In (Z.of_nat j) members' -> k' = k.
Proof.
  apply (supernodes_partition scenario 2 0 _ _
           (snd (fst scenario_supernodes)) (snd scenario_supernodes)).
  - split; reflexivity.
  - vm_compute. reflexivity.
  - lia.
Defined.

Lemma supernodes_shape (b : Batch) (bs : nat)
    (types : list (list Z)) (comp : list (list (list Z)))
    (idx : list (list Z)) (sn_pos : list vec3) :
  Several.supernodes b bs = Ok (types, comp, idx, sn_pos) ->
  length types = bs /\
  length sn_pos = length (concat types) /\
  forall i ts, nth_error types i = Some ts -> Several.atom_types_of b i = Ok ts.
Proof.
  intro H. unfold Several.supernodes in H. bind_steps H.
  inversion H; subst v v0 v1 v2; clear H.
  destruct (mapM_range _ _ _ E) as (Hlen & Hnth).
  destruct (composition_lengths _ _ _ _ E0 Hlen) as (Hclen & Hcomp).
  split; [assumption |]. split.
  - unfold Several.first_positions in E2.
    rewrite (mapM_length _ _ _ E2).
    pose proof (concat_prefix_same_lengths comp types (length comp) Hclen) as Hc.
    rewrite firstn_all in Hc. rewrite Hclen, firstn_all in Hc.
    apply Hc. intros k x y Hx Hy.
    apply (mapM_length _ _ _ (Hcomp k x y Hx Hy)).
  - intros i ts Hts.
    assert (Hi : (i < bs)%nat).
    { rewrite <- Hlen. apply nth_error_Some. rewrite Hts. discriminate. }
    destruct (Hnth i Hi) as (ts' & Hts' & Hof). congruence.
Qed.

(** X24. On a batch whose per-atom arrays have one entry per atom,
    lines 358 to 399 of the several-super-nodes block run to their end.
    There is one list of atom types per graph; the atom types of a
    graph are strictly increasing and hold the atomic number of every
    sub-surface atom of the graph; [supernodes_pos] has one entry per
    atom type; and the entry for the [k]-th atom type [an] of graph [i]
    is the position of the sub-surface atom of graph [i] with atomic
    number [an] that has the lowest index. *)
Theorem first_member_position (b : Batch) (bs : nat) :
  aligned b ->
  length (pos b) = length (batch b) ->
  (bs < length (ptr b))%nat ->
  exists types comp idx sn_pos,
    Several.supernodes b bs = Ok (types, comp, idx, sn_pos) /\
    length types = bs /\
    length sn_pos = length (concat types) /\
    (forall i ts, nth_error types i = Some ts -> StronglySorted Z.lt ts) /\
    (forall i j, (i < bs)%nat -> is_sub b i j ->
       exists ts an,
         nth_error types i = Some ts /\
         nth_error (atomic_numbers b) j = Some an /\
         In an ts) /\
    forall i k ts an,
      nth_error types i = Some ts ->
      nth_error ts k = Some an ->
      exists (members : list Z) (first : nat) (v : vec3),
        (exists c, nth_error comp i = Some c /\ nth_error c k = Some members) /\
        (forall j, In (Z.of_nat j) members <-> is_member b i an j) /\
        is_member b i an first /\
        (forall j, is_member b i an j -> (first <= j)%nat) /\
        nth_error (pos b) first = Some v /\
        nth_error sn_pos (length (concat (firstn i types)) + k) = Some v.
Proof.
  intros Hal Hpos Hptr.
  destruct (supernodes_complete b bs Hal Hpos Hptr) as ([[[types comp] idx] sn_pos] & H).
  exists types, comp, idx, sn_pos. split; [exact H |].
  destruct (supernodes_shape b bs types comp idx sn_pos H) as (Hlen & Hsn & Hof).
  split; [exact Hlen |]. split; [exact Hsn |].
  split; [intros i ts Hts; apply (atom_types_sorted b i ts), Hof, Hts |].
  split.
  - intros i j Hi Hsub.
    destruct (composition_covers b bs i types comp idx sn_pos Hal H Hi)
      as (ts & c & Hts & _ & _ & _ & _ & Hcover).
    destruct (Hcover j Hsub) as (k & an & members & Hk & _ & Han & _).
    exists ts, an. split; [assumption |]. split; [assumption |].
    apply (nth_error_In _ _ Hk).
  - intros i k ts an Hts Han.
    exact (first_member_of_partition b bs types comp idx sn_pos i k ts an
             Hal H Hts Han).
Qed.

Lemma first_member_position_witness :
  aligned scenario /\
  length (pos scenario) = length (batch scenario) /\
  (2 < length (ptr scenario))%nat /\
  exists types comp idx sn_pos,
    Several.supernodes scenario 2 = Ok (types, comp, idx, sn_pos) /\
    length types = 2%nat /\
    length sn_pos = length (concat types) /\
    (forall i ts, nth_error types i = Some ts -> StronglySorted Z.lt ts) /\
    (forall i j, (i < 2)%nat -> is_sub scenario i j ->
       exists ts an,
         nth_error types i = Some ts /\
         nth_error (atomic_numbers scenario) j = Some an /\
         In an ts) /\
    forall i k ts an,
      nth_error types i = Some ts ->
      nth_error ts k = Some an ->
      exists (members : list Z) (first : nat) (v : vec3),
        (exists c, nth_error comp i = Some c /\ nth_error c k = Some members) /\
        (forall j, In (Z.of_nat j) members <-> is_member scenario i an j) /\
        is_member scenario i an first /\
        (forall j, is_member scenario i an j -> (first <= j)%nat) /\
        nth_error (pos scenario) first = Some v /\
        nth_error sn_pos (length (concat (firstn i types)) + k) = Some v.
Proof.
  assert (Ha : aligned scenario) by (split; reflexivity).
  assert (Hp : length (pos scenario) = length (batch scenario)) by reflexivity.
  assert (Hq : (2 < length (ptr scenario))%nat) by (simpl; lia).
  split; [exact Ha |]. split; [exact Hp |]. split; [exact Hq |].
  exact (first_member_position scenario 2 Ha Hp Hq).
Defined.

(** *** The cleaned edges of a graph *)

Lemma col_ltb_spec (c d : Z * Z) : Several.col_ltb c d = true <-> col_lt c d.
Proof.
  unfold Several.col_ltb, col_lt.
  rewrite orb_true_iff, andb_true_iff, !Z.ltb_lt, Z.eqb_eq. reflexivity.
Qed.

Lemma col_eqb_spec (c d : Z * Z) : Several.col_eqb c d = true <-> c = d.
Proof.
  unfold Several.col_eqb. destruct c as [c1 c2], d as [d1 d2]. cbn [fst snd].
  rewrite andb_true_iff, !Z.eqb_eq. split; [intros [-> ->] | intro H; inversion H];
    auto.
Qed.

Lemma col_insert_In (c x : Z * Z) (l : list (Z * Z)) :
  In x (Several.col_insert c l) <-> x = c \/ In x l.
Proof.
  induction l as [| d l IH]; simpl.
  - intuition.
  - destruct (Several.col_ltb c d) eqn:E1; simpl; [intuition |].
    destruct (Several.col_eqb c d) eqn:E2; simpl.
    + apply col_eqb_spec in E2. subst d. intuition.
    + rewrite IH. intuition.
Qed.

Lemma col_insert_sorted (c : Z * Z) (l : list (Z * Z)) :
  StronglySorted col_lt l -> StronglySorted col_lt (Several.col_insert c l).
Proof.
  induction l as [| d l IH]; simpl; intro H.
  - constructor; constructor.
  - inversion H as [| d' l' Hs Hall]; subst.
    destruct (Several.col_ltb c d) eqn:E1.
    + apply col_ltb_spec in E1. constructor; [assumption |].
      constructor; [assumption |].
      rewrite Forall_forall in *. intros y Hy. pose proof (Hall y Hy) as Hdy.
      unfold col_lt in *. lia.
    + destruct (Several.col_eqb c d) eqn:E2; [assumption |].
      constructor; [apply IH; assumption |].
      rewrite Forall_forall in *. intros y Hy. apply col_insert_In in Hy.
      destruct Hy as [-> | Hy]; [| apply Hall; assumption].
      assert (Hn1 : ~ col_lt c d) by (rewrite <- col_ltb_spec; congruence).
      assert (Hn2 : c <> d) by (rewrite <- col_eqb_spec; congruence).
      destruct c as [c1 c2], d as [d1 d2]. unfold col_lt in *. cbn [fst snd] in *.
      assert (~ (c1 = d1 /\ c2 = d2)) by (intros [-> ->]; apply Hn2; reflexivity).
      lia.
Qed.

Lemma unique_columns_fold (ei acc : list (Z * Z)) :
  StronglySorted col_lt acc ->
  StronglySorted col_lt (fold_left (fun a c => Several.col_insert c a) ei acc) /\
  forall x, In x (fold_left (fun a c => Several.col_insert c a) ei acc)
            <-> In x ei \/ In x acc.
Proof.
  revert acc. induction ei as [| c ei IH]; simpl; intros acc Hacc.
  - split; [assumption | intuition].
  - destruct (IH _ (col_insert_sorted c acc Hacc)) as (Hs & Hin).
    split; [assumption |]. intro x. rewrite Hin, col_insert_In. intuition.
Qed.

Lemma several_clean (b : Batch) (l : Several.Locals) :
  Several.several_supernodes_block b = Ok l ->
  exists bs ei_batch,
    Single.batch_size b = Ok bs /\
    length ei_batch = bs /\
    Several.clean_new_edge_index l
    = map (fun adj => Several.unique_columns (Several.remove_self_loops adj))
          ei_batch.
Proof.
  intro H. unfold Several.several_supernodes_block in H. cbv beta zeta in H.
  bind_steps H. inversion H; subst l; clear H. cbn [Several.clean_new_edge_index].
  exists v, v5. split; [assumption |].
  split; [| reflexivity].
  destruct (mapM_range _ _ _ E5) as (Hl & _). assumption.
Qed.

(** X15. Whenever the several-super-nodes block completes, it keeps
    one cleaned edge list per graph, and each of them has its columns
    in strictly increasing lexicographic order (so none occurs twice)
    and holds no self loop. *)
Theorem clean_edges_canonical (b : Batch) (l : Several.Locals) (bs : nat) :
  Several.several_supernodes_block b = Ok l ->
  Single.batch_size b = Ok bs ->
  length (Several.clean_new_edge_index l) = bs /\
  forall adj,
    In adj (Several.clean_new_edge_index l) ->
    StronglySorted col_lt adj /\
    forall s t, In (s, t) adj -> s <> t.
Proof.
  intros H Hbs.
  destruct (several_clean _ _ H) as (bs' & ei_batch & Hbs' & Hlen & Hclean).
  assert (bs' = bs) by congruence. subst bs'.
  rewrite Hclean. split; [rewrite length_map; assumption |].
  intros adj Hadj. apply in_map_iff in Hadj. destruct Hadj as (raw & <- & _).
  unfold Several.unique_columns.
  destruct (unique_columns_fold (Several.remove_self_loops raw) []) as (Hs & Hin);
    [constructor |].
  split; [assumption |].
  intros s t Hst. apply Hin in Hst. destruct Hst as [Hst | []].
  unfold Several.remove_self_loops in Hst. apply filter_In in Hst.
  destruct Hst as (_ & Hne). cbn [fst snd] in Hne.
  apply negb_true_iff, Z.eqb_neq in Hne. assumption.
Qed.

Lemma clean_edges_canonical_witness :
  Several.several_supernodes_block scenario = Ok scenario_locals /\
  length (Several.clean_new_edge_index scenario_locals) = 2%nat /\
  forall adj,
    In adj (Several.clean_new_edge_index scenario_locals) ->
    StronglySorted col_lt adj /\
    forall s t, In (s, t) adj -> s <> t.
Proof.
  assert (Hb : Several.several_supernodes_block scenario = Ok scenario_locals)
    by (vm_compute; reflexivity).
  split; [exact Hb |].
  apply (clean_edges_canonical scenario scenario_locals 2 Hb). reflexivity.
Defined.

(** ** Every atom is kept or aggregated *)

Lemma node_lists_count (b : Batch) (bs : nat) (ls : list (list Z))
    (f : Batch -> nat -> result (list Z)) (count : Batch -> nat -> nat) :
  (forall i s, f b i = Ok s -> length s = count b i) ->
  mapM (f b) (range bs) = Ok ls ->
  sum_list (map (@len Z) ls) = Z.of_nat (list_sum (map (count b) (range bs))).
Proof.
  intros Hcount H. rewrite sum_list_len. f_equal.
  destruct (mapM_range _ _ _ H) as (Hl & _).
  apply list_sum_range; [assumption |].
  intros i x Hx. destruct (mapM_nth_inv _ _ _ H i x Hx) as (k & Hk & Hf).
  apply range_nth_inv in Hk. destruct Hk as (-> & _).
  apply Hcount. assumption.
Qed.

(** X16. On a batch whose tags and batch vector have one entry per atom
    and whose graph numbers are not negative, whenever the block
    completes every atom is either kept or counted in exactly one
    super node: the aggregate sizes in [sn_nodes_aggregates] and the
    number of new nodes add up to the number of atoms plus one super
    node per graph. *)
Theorem atom_conservation (b data : Batch) (bs : nat) (total : Z)
    (agg : list Z) :
  Single.one_supernode_block b = Ok data ->
  length (tags b) = length (batch b) ->
  (forall x, In x (batch b) -> 0 <= x) ->
  Single.batch_size b = Ok bs ->
  nth_error (ptr data) bs = Some total ->
  sn_nodes_aggregates data = Some agg ->
  sum_list agg + total = len (batch b) + Z.of_nat bs.
Proof.
  intros Hblock Hal Hnn Hbs Htot Hagg.
  destruct (block_nodes _ _ Hblock)
    as (bs0 & sub & non & Hbs0 & Hsub & Hnon & Hptr & _ & Hagg0).
  rewrite Hbs in Hbs0. assert (bs0 = bs) by congruence. subst bs0.
  rewrite Hagg in Hagg0. assert (Ha : agg = map (@len Z) sub) by congruence.
  destruct (mapM_range _ _ _ Hnon) as (Hnl & _).
  rewrite Hptr, new_ptr_nth in Htot by lia.
  rewrite firstn_all2 in Htot by lia.
  assert (Ht : total = sum_list (map (@len Z) non) + Z.of_nat bs) by congruence.
  rewrite Ha, Ht.
  rewrite (node_lists_count b bs sub Single.sub_nodes_of sub_count
             (fun i s => sub_nodes_count b i s Hal) Hsub).
  rewrite (node_lists_count b bs non Single.non_sub_nodes_of non_sub_count
             (fun i s => non_sub_nodes_count b i s Hal) Hnon).
  destruct (batch_size_bounds b bs Hbs Hnn) as (_ & Hrange).
  pose proof (node_partition (combine (tags b) (batch b)) bs) as Hpart.
  rewrite list_sum_add in Hpart.
  assert (Hlen : length (combine (tags b) (batch b)) = length (batch b))
    by (rewrite length_combine; lia).
  assert (Hin : forall tb, In tb (combine (tags b) (batch b)) ->
                           0 <= snd tb < Z.of_nat bs).
  { intros [t c] Htb. apply in_combine_r in Htb. apply Hrange. assumption. }
  specialize (Hpart Hin). rewrite Hlen in Hpart.
  unfold sub_count, non_sub_count, len. lia.
Qed.

Lemma atom_conservation_witness :
  Single.one_supernode_block scenario = Ok scenario_out /\
  sum_list [2; 1] + 7 = len (batch scenario) + Z.of_nat 2.
Proof.
  assert (Hb : Single.one_supernode_block scenario = Ok scenario_out)
    by (vm_compute; reflexivity).
  split; [exact Hb |].
  apply (atom_conservation scenario scenario_out 2 7 [2; 1] Hb).
  - reflexivity.
  - intros x Hx. simpl in Hx. intuition lia.
  - reflexivity.
  - reflexivity.
  - reflexivity.
Defined.

(** ** The tag statistics *)

Lemma record_tags_fold (batch : list Batch) (l0 l1 l2 : list Z) :
  fold_left record_tags batch [(0, l0); (1, l1); (2, l2)]
  = [(0, l0 ++ map (fun b => tag_count b 0) batch);
     (1, l1 ++ map (fun b => tag_count b 1) batch);
     (2, l2 ++ map (fun b => tag_count b 2) batch)].
Proof.
  revert l0 l1 l2. induction batch as [| b batch IH]; intros l0 l1 l2.
  - cbn [fold_left map]. rewrite !app_nil_r. reflexivity.
  - cbn [fold_left]. unfold record_tags at 2. cbn [map fst snd].
    rewrite IH, <- !app_assoc. reflexivity.
Qed.

Lemma tag_table_fold (loader : list (list Batch)) (l0 l1 l2 : list Z) :
  fold_left (fun table batch => fold_left record_tags batch table) loader
    [(0, l0); (1, l1); (2, l2)]
  = [(0, l0 ++ map (fun b => tag_count b 0) (concat loader));
     (1, l1 ++ map (fun b => tag_count b 1) (concat loader));
     (2, l2 ++ map (fun b => tag_count b 2) (concat loader))].
Proof.
  revert l0 l1 l2. induction loader as [| batch loader IH]; intros l0 l1 l2.
  - cbn [fold_left concat map]. rewrite !app_nil_r. reflexivity.
  - cbn [fold_left concat]. rewrite record_tags_fold, IH, !map_app, <- !app_assoc.
    reflexivity.
Qed.

Lemma tag_counts_cover (ts : list Z) :
  (forall t, In t ts -> 0 <= t <= 2) ->
  (Torch.count_true (Torch.eq_scalar ts 0)
   + Torch.count_true (Torch.eq_scalar ts 1)
   + Torch.count_true (Torch.eq_scalar ts 2))%nat = length ts.
Proof.
  induction ts as [| t ts IH]; intro H; [reflexivity |].
  specialize (IH (fun x Hx => H x (or_intror Hx))).
  pose proof (H t (or_introl eq_refl)) as Ht.
  unfold Torch.eq_scalar in *. cbn [map Torch.count_true length].
  destruct (Z.eqb_spec t 0), (Z.eqb_spec t 1), (Z.eqb_spec t 2); lia.
Qed.

(** X17. The tag statistics hold three series, for the tags 0, 1 and 2
    in this order, each with one entry per batch object of the loader
    in loader order: the number of atoms of that batch with the tag.
    For a batch whose tags are all 0, 1 or 2 the three entries add up
    to its number of atoms. *)
Theorem tag_series_cover (loader : list (list Batch)) (g : nat) (b : Batch) :
  nth_error (concat loader) g = Some b ->
  (forall t, In t (tags b) -> 0 <= t <= 2) ->
  exists y0 y1 y2,
    tag_table loader = [(0, y0); (1, y1); (2, y2)] /\
    length y0 = length (concat loader) /\
    length y1 = length (concat loader) /\
    length y2 = length (concat loader) /\
    nth_error y0 g = Some (tag_count b 0) /\
    nth_error y1 g = Some (tag_count b 1) /\
    nth_error y2 g = Some (tag_count b 2) /\
    tag_count b 0 + tag_count b 1 + tag_count b 2 = len (tags b).
Proof.
  intros Hg Htags.
  exists (map (fun b => tag_count b 0) (concat loader)),
         (map (fun b => tag_count b 1) (concat loader)),
         (map (fun b => tag_count b 2) (concat loader)).
  split; [unfold tag_table; rewrite tag_table_fold; reflexivity |].
  rewrite !length_map, !nth_error_map, Hg. cbn [option_map].
  repeat (split; [reflexivity |]).
  pose proof (tag_counts_cover (tags b) Htags). unfold tag_count, len. lia.
Qed.

Lemma tag_series_cover_witness :
  exists y0 y1 y2,
    tag_table [[scenario]; [no_sub_graph; surface_edges]]
    = [(0, y0); (1, y1); (2, y2)] /\
    length y0 = length (concat [[scenario]; [no_sub_graph; surface_edges]]) /\
    length y1 = length (concat [[scenario]; [no_sub_graph; surface_edges]]) /\
    length y2 = length (concat [[scenario]; [no_sub_graph; surface_edges]]) /\
    nth_error y0 1 = Some (tag_count no_sub_graph 0) /\
    nth_error y1 1 = Some (tag_count no_sub_graph 1) /\
    nth_error y2 1 = Some (tag_count no_sub_graph 2) /\
    tag_count no_sub_graph 0 + tag_count no_sub_graph 1 + tag_count no_sub_graph 2
    = len (tags no_sub_graph).
Proof.
  apply (tag_series_cover [[scenario]; [no_sub_graph; surface_edges]] 1 no_sub_graph).
  - reflexivity.
  - intros t Ht. simpl in Ht. intuition lia.
Defined.

(** ** Which edges the single-super-node block keeps *)

Lemma filter_none {A : Type} (f : A -> bool) (l : list A) :
  (forall x, In x l -> f x = false) -> filter f l = [].
Proof.
  induction l as [| x l IH]; simpl; intro H; [reflexivity |].
  rewrite (H x (or_introl eq_refl)). apply IH. auto.
Qed.

Lemma filter_every {A : Type} (f : A -> bool) (l : list A) :
  (forall x, In x l -> f x = true) -> filter f l = l.
Proof.
  induction l as [| x l IH]; simpl; intro H; [reflexivity |].
  rewrite (H x (or_introl eq_refl)). f_equal. apply IH. auto.
Qed.

Lemma filter_and {A : Type} (f g : A -> bool) (l : list A) :
  filter f (filter g l) = filter (fun x => g x && f x) l.
Proof.
  induction l as [| x l IH]; simpl; [reflexivity |].
  destruct (g x); simpl; [destruct (f x) |]; rewrite IH; reflexivity.
Qed.

Lemma masked_map_self {A : Type} (f : A -> bool) (l : list A) :
  Torch.masked l (map f l) = filter f l.
Proof.
  induction l as [| x l IH]; simpl; [reflexivity |].
  destruct (f x); rewrite IH; reflexivity.
Qed.

Lemma masked_map {A B : Type} (g : A -> B) (l : list A) (m : list bool) :
  Torch.masked (map g l) m = map g (Torch.masked l m).
Proof.
  revert m. induction l as [| x l IH]; intros [| c m]; simpl; try reflexivity.
  destruct c; simpl; rewrite IH; reflexivity.
Qed.

Lemma masked_app {A : Type} (t1 t2 : list A) (m1 m2 : list bool) :
  length t1 = length m1 ->
  Torch.masked (t1 ++ t2) (m1 ++ m2) = Torch.masked t1 m1 ++ Torch.masked t2 m2.
Proof.
  revert m1. induction t1 as [| x t1 IH]; intros [| c m1] H; simpl in *;
    try discriminate; [reflexivity |].
  destruct c; simpl; rewrite IH by lia; reflexivity.
Qed.

(** A mask made graph by graph selects graph by graph. *)
Lemma masked_concat {A I : Type} (G : I -> list A) (f : I -> A -> bool)
    (l : list I) :
  Torch.masked (concat (map G l)) (concat (map (fun i => map (f i) (G i)) l))
  = concat (map (fun i => filter (f i) (G i)) l).
Proof.
  induction l as [| i l IH]; simpl; [reflexivity |].
  rewrite masked_app by (rewrite length_map; reflexivity).
  rewrite masked_map_self, IH. reflexivity.
Qed.

(** In a list ordered by group, the groups below [n] followed by group
    [n] are the groups below [n + 1]. *)
Lemma grouped_split {A : Type} (r : A -> Z) (K : A -> bool) (n : Z) (l : list A) :
  StronglySorted Z.le (map r l) ->
  filter (fun e => (r e <? n) && K e) l ++ filter (fun e => (r e =? n) && K e) l
  = filter (fun e => (r e <? n + 1) && K e) l.
Proof.
  induction l as [| e l IH]; intro H; [reflexivity |].
  cbn [map] in H. inversion H as [| x l' Hs Hall]; subst.
  specialize (IH Hs). cbn [filter].
  destruct (Z.ltb_spec (r e) n) as [Hlt | Hge].
  - destruct (Z.eqb_spec (r e) n); [lia |].
    destruct (Z.ltb_spec (r e) (n + 1)); [| lia].
    cbn [andb]. destruct (K e); [cbn [app]; f_equal |]; assumption.
  - assert (Hnone : filter (fun e0 => (r e0 <? n) && K e0) l = []).
    { apply filter_none. intros x Hx. rewrite Forall_forall in Hall.
      pose proof (Hall (r x) (in_map r l x Hx)).
      destruct (Z.ltb_spec (r x) n); [lia | reflexivity]. }
    rewrite Hnone in *. cbn [andb app] in *.
    destruct (Z.eqb_spec (r e) n) as [He | Hne].
    + destruct (Z.ltb_spec (r e) (n + 1)); [| lia].
      cbn [andb]. destruct (K e); [f_equal |]; assumption.
    + destruct (Z.ltb_spec (r e) (n + 1)); [lia |].
      cbn [andb]. assumption.
Qed.

Lemma grouped_prefix {A : Type} (r : A -> Z) (K : A -> bool) (l : list A) (n : nat) :
  StronglySorted Z.le (map r l) ->
  (forall e, In e l -> 0 <= r e) ->
  concat (map (fun i => filter (fun e => (r e =? Z.of_nat i) && K e) l) (range n))
  = filter (fun e => (r e <? Z.of_nat n) && K e) l.
Proof.
  intros Hs Hpos. unfold range. induction n as [| n IH].
  - cbn [seq map concat]. symmetry. apply filter_none. intros e He.
    pose proof (Hpos e He). destruct (Z.ltb_spec (r e) (Z.of_nat 0)); [lia | reflexivity].
  - rewrite seq_S, map_app, concat_app, IH. cbn [map concat plus].
    rewrite app_nil_r, (grouped_split r K (Z.of_nat n) l Hs).
    replace (Z.of_nat n + 1) with (Z.of_nat (S n)) by lia. reflexivity.
Qed.

(** The groups of a list ordered by group, one after the other, give
    the list back. *)
Lemma grouped_concat {A : Type} (r : A -> Z) (K : A -> bool) (l : list A) (n : nat) :
  StronglySorted Z.le (map r l) ->
  (forall e, In e l -> 0 <= r e < Z.of_nat n) ->
  concat (map (fun i => filter (fun e => (r e =? Z.of_nat i) && K e) l) (range n))
  = filter K l.
Proof.
  intros Hs Hr. rewrite grouped_prefix; [| assumption | intros e He; apply Hr; assumption].
  apply filter_ext_in. intros e He. pose proof (Hr e He).
  destruct (Z.ltb_spec (r e) (Z.of_nat n)); [reflexivity | lia].
Qed.

Lemma combine_map_self {A B : Type} (g : A -> B) (l : list A) :
  combine l (map g l) = map (fun x => (x, g x)) l.
Proof.
  induction l as [| x l IH]; simpl; [reflexivity | rewrite IH; reflexivity].
Qed.

Lemma combine_map_map {A B C : Type} (f : A -> B) (g : A -> C) (l : list A) :
  combine (map f l) (map g l) = map (fun x => (f x, g x)) l.
Proof.
  induction l as [| x l IH]; simpl; [reflexivity | rewrite IH; reflexivity].
Qed.

Lemma enumerate_map_range {B : Type} (g : nat -> B) (n : nat) :
  enumerate (map g (range n)) = map (fun i => (i, g i)) (range n).
Proof.
  unfold enumerate, range. rewrite length_map, length_seq.
  apply combine_map_self.
Qed.

Lemma mapM_map {A B C : Type} (f : B -> result C) (h : A -> B) (l : list A) :
  mapM f (map h l) = mapM (fun x => f (h x)) l.
Proof.
  induction l as [| x l IH]; simpl; [reflexivity | rewrite IH; reflexivity].
Qed.

(** An endpoint flag of the edges of graph [i]: the endpoint is one of
    the kept atoms [ns]. *)
Lemma is_not_sub_explicit (b : Batch) (bs : nat) (row : list Z)
    (ns : nat -> list Z) :
  length row = length (edge_index b) ->
  Single.is_not_sub row (map (ids b) (range bs)) (map ns (range bs))
  = Ok (map (fun i => Torch.isin (Torch.masked row (ids b i)) (ns i)) (range bs)).
Proof.
  intro Hrow. unfold Single.is_not_sub.
  rewrite enumerate_map_range, mapM_map. apply mapM_map_ok.
  intros i Hi. unfold range in Hi. apply in_seq in Hi. cbn [fst snd].
  rewrite (item_nth _ i (ids b i))
    by (rewrite nth_error_map, range_nth by lia; reflexivity).
  cbn [bind]. rewrite mask_select_ok by (rewrite ids_length; assumption).
  reflexivity.
Qed.

Lemma both_sub_explicit (bs : nat) (S0 T0 : nat -> list bool) :
  (forall i, length (S0 i) = length (T0 i)) ->
  Single.both_sub (map S0 (range bs)) (map T0 (range bs))
  = Ok (map (fun i => Torch.zip_with andb (map negb (S0 i)) (map negb (T0 i)))
            (range bs)).
Proof.
  intro Hlen. unfold Single.both_sub.
  rewrite combine_map_map, mapM_map. apply mapM_map_ok.
  intros i _. cbn [fst snd]. apply mask_mul_same.
  rewrite !length_map. apply Hlen.
Qed.

Lemma not_both_explicit (ei : list (Z * Z)) (m : list bool) (ns : list Z) :
  map negb
    (Torch.zip_with andb
       (map negb (Torch.isin (Torch.masked (map fst ei) m) ns))
       (map negb (Torch.isin (Torch.masked (map snd ei) m) ns)))
  = map (fun e => existsb (Z.eqb (fst e)) ns || existsb (Z.eqb (snd e)) ns)
        (Torch.masked ei m).
Proof.
  rewrite !masked_map. unfold Torch.isin. rewrite !map_map.
  rewrite zip_and_map, map_map. apply map_ext. intro e.
  destruct (existsb (Z.eqb (fst e)) ns), (existsb (Z.eqb (snd e)) ns); reflexivity.
Qed.

Lemma ids_as_map (b : Batch) (i : nat) :
  ids b i
  = map (fun e => (pt b i <=? fst e) && (fst e <? pt b (S i))) (edge_index b).
Proof.
  unfold ids. rewrite map_map. reflexivity.
Qed.

(** Among the atoms of graph [i], the kept atoms are those whose tag
    is not 0. *)
Lemma kept_atom_test (b : Batch) (i : nat) (x : Z) :
  length (tags b) = length (batch b) ->
  0 <= x < len (batch b) ->
  graph_of b x = Z.of_nat i ->
  existsb (Z.eqb x) (Torch.where_ (non_sub_mask b i)) = negb (tag0 b x).
Proof.
  intros Hal Hx Hg. unfold len in Hx.
  destruct (nth_error_lt (tags b) (Z.to_nat x) ltac:(lia)) as (t & Ht).
  assert (Hb : nth_error (batch b) (Z.to_nat x) = Some (Z.of_nat i)).
  { rewrite <- Hg. unfold graph_of. apply nth_error_nth'. lia. }
  unfold tag0. rewrite Ht.
  destruct (existsb (Z.eqb x) (Torch.where_ (non_sub_mask b i))) eqn:E.
  - apply existsb_exists in E. destruct E as (y & Hy & Hxy).
    apply Z.eqb_eq in Hxy. subst y.
    replace x with (Z.of_nat (Z.to_nat x)) in Hy by lia.
    apply where_In in Hy. unfold non_sub_mask in Hy.
    rewrite zip_and_true, ne_scalar_true in Hy.
    destruct Hy as ((t' & Ht' & Hne) & _).
    assert (t' = t) by congruence. subst t'.
    apply Z.eqb_neq in Hne. rewrite Hne. reflexivity.
  - destruct (Z.eqb_spec t 0) as [Hz | Hnz]; [reflexivity |].
    exfalso.
    assert (Hin : In (Z.of_nat (Z.to_nat x)) (Torch.where_ (non_sub_mask b i))).
    { apply where_In. unfold non_sub_mask.
      rewrite zip_and_true, ne_scalar_true, eq_scalar_true.
      split; [exists t; split; assumption | assumption]. }
    rewrite Z2Nat.id in Hin by lia.
    assert (Ht' : existsb (Z.eqb x) (Torch.where_ (non_sub_mask b i)) = true).
    { apply existsb_exists. exists x. split; [assumption | apply Z.eqb_refl]. }
    congruence.
Qed.

Lemma block_rewiring (b data : Batch) :
  Single.one_supernode_block b = Ok data ->
  exists bs non_sub ids_l srcs tgts both all_nb all_ns ei_nb last mask0 mask
         assoc0 vals assoc,
    Single.batch_size b = Ok bs /\
    mapM (Single.non_sub_nodes_of b) (range bs) = Ok non_sub /\
    ptr data = Single.new_ptr (Single.new_sn_ids non_sub bs) /\
    mapM (Single.ei_batch_ids_of b) (range bs) = Ok ids_l /\
    Single.is_not_sub (map fst (edge_index b)) ids_l non_sub = Ok srcs /\
    Single.is_not_sub (map snd (edge_index b)) ids_l non_sub = Ok tgts /\
    Single.both_sub srcs tgts = Ok both /\
    Torch.cat (map (map negb) both) = Ok all_nb /\
    Torch.cat non_sub = Ok all_ns /\
    Torch.mask_select (edge_index b) all_nb = Ok ei_nb /\
    Torch.get (ptr b) (-1) = Ok last /\
    Torch.full (last + Z.of_nat bs) false = Ok mask0 /\
    Torch.index_put mask0 all_ns true = Ok mask /\
    Torch.full (last + Z.of_nat bs) (-1) = Ok assoc0 /\
    Single.new_ids bs (ptr data) = Ok vals /\
    Torch.mask_put assoc0 mask vals = Ok assoc /\
    Single.reindex assoc ei_nb = Ok (edge_index data).
Proof.
  intro H. unfold Single.one_supernode_block in H. cbv beta zeta in H.
  bind_steps H. inversion H; subst data; clear H. fields.
  do 15 eexists. repeat split; eassumption.
Qed.

(** A mask made group by group, applied to a list ordered by group. *)
Lemma masked_grouped {A : Type} (r : A -> Z) (kp : nat -> A -> bool)
    (K : A -> bool) (l : list A) (n : nat) :
  StronglySorted Z.le (map r l) ->
  (forall e, In e l -> 0 <= r e < Z.of_nat n) ->
  (forall i e, In e l -> r e = Z.of_nat i -> kp i e = K e) ->
  Torch.masked l
    (concat (map (fun i => map (kp i) (filter (fun e => r e =? Z.of_nat i) l))
                 (range n)))
  = filter K l.
Proof.
  intros Hs Hr Hkp.
  assert (Hl : concat (map (fun i => filter (fun e => r e =? Z.of_nat i) l) (range n))
               = l).
  { transitivity (concat (map (fun i => filter (fun e => (r e =? Z.of_nat i) && true) l)
                              (range n))).
    - f_equal. apply map_ext. intro i. apply filter_ext. intro e.
      rewrite andb_true_r. reflexivity.
    - rewrite (grouped_concat r (fun _ => true) l n Hs Hr).
      apply filter_every. reflexivity. }
  transitivity
    (Torch.masked
       (concat (map (fun i => filter (fun e => r e =? Z.of_nat i) l) (range n)))
       (concat (map (fun i => map (kp i) (filter (fun e => r e =? Z.of_nat i) l))
                    (range n)))).
  - f_equal. symmetry. exact Hl.
  - rewrite (masked_concat (fun i => filter (fun e => r e =? Z.of_nat i) l) kp).
    rewrite <- (grouped_concat r K l n Hs Hr).
    f_equal. apply map_ext. intro i. rewrite filter_and.
    apply filter_ext_in. intros e He.
    destruct (Z.eqb_spec (r e) (Z.of_nat i)) as [E | E]; [| reflexivity].
    cbn [andb]. apply Hkp; assumption.
Qed.

Lemma relabelled_sentinel (b data : Batch) (bs : nat) (nsl : list (list Z))
    (x x' : Z) :
  length (tags b) = length (batch b) ->
  ptr data = Single.new_ptr (Single.new_sn_ids nsl bs) ->
  relabelled b data x x' ->
  (x' = -1 <-> tag0 b x = true).
Proof.
  intros Hal Hptr [(Ht & Hx) | (i & k & ns & p & Hns & Hk & Hp & Hx)].
  - unfold tag0. rewrite Ht. split; [reflexivity | intros _; assumption].
  - rewrite non_sub_nodes_of_aligned in Hns by assumption.
    assert (Hnsv : ns = Torch.where_ (non_sub_mask b i))
      by (unfold non_sub_mask; congruence).
    pose proof (nth_error_In _ _ Hk) as Hin. rewrite Hnsv in Hin.
    pose proof (where_bound _ _ Hin) as Hb.
    replace x with (Z.of_nat (Z.to_nat x)) in Hin by lia.
    apply where_In in Hin. unfold non_sub_mask in Hin.
    rewrite zip_and_true, ne_scalar_true in Hin.
    destruct Hin as ((t & Ht & Hne) & _).
    assert (Hp0 : 0 <= p).
    { destruct (le_lt_dec i bs) as [Hi | Hi].
      - rewrite Hptr, new_ptr_nth in Hp by assumption.
        pose proof (sum_lens_nonneg (firstn i nsl)).
        assert (p = sum_list (map (@len Z) (firstn i nsl)) + Z.of_nat i) by congruence.
        lia.
      - assert (Hnone : nth_error (ptr data) i = None).
        { apply nth_error_None. rewrite Hptr, new_ptr_length. lia. }
        congruence. }
    unfold tag0. rewrite Ht. apply Z.eqb_neq in Hne. rewrite Hne.
    split; [lia | discriminate].
Qed.

(** On a batch laid out graph after graph, the per-graph masks of the
    edges to keep are the flags of the edges of each graph, and a flag
    says that the edge has an endpoint outside the sub-surface. *)
Lemma not_both_masks (b : Batch) (bs : nat) (non_sub : list (list Z))
    (ids_l : list (list bool)) (srcs tgts both : list (list bool)) :
  graphwise b bs ->
  Single.batch_size b = Ok bs ->
  mapM (Single.non_sub_nodes_of b) (range bs) = Ok non_sub ->
  mapM (Single.ei_batch_ids_of b) (range bs) = Ok ids_l ->
  Single.is_not_sub (map fst (edge_index b)) ids_l non_sub = Ok srcs ->
  Single.is_not_sub (map snd (edge_index b)) ids_l non_sub = Ok tgts ->
  Single.both_sub srcs tgts = Ok both ->
  ids_l = map (ids b) (range bs) /\
  map (map negb) both
  = map (fun i => map (kept_flag b i)
                      (filter (fun e => graph_of b (fst e) =? Z.of_nat i)
                              (edge_index b)))
        (range bs) /\
  (forall i e, (i < bs)%nat -> In e (edge_index b) ->
     (pt b i <=? fst e) && (fst e <? pt b (S i))
     = (graph_of b (fst e) =? Z.of_nat i)) /\
  (forall e, In e (edge_index b) -> 0 <= graph_of b (fst e) < Z.of_nat bs) /\
  (forall i e, In e (edge_index b) -> graph_of b (fst e) = Z.of_nat i ->
     kept_flag b i e = survives b e).
Proof.
  intros (Hal & Hnn & Hsorted & Hplen & Hcons & Hedges & Hgrouped) Hbs
    Hnon Hids Hsrcs Htgts Hboth.
  destruct (batch_size_bounds b bs Hbs Hnn) as (Hbs0 & Hrange).
  destruct (partition_complete b bs Hal) as (_ & Hnsl).
  rewrite Hnon in Hnsl.
  assert (Hns : non_sub = map (fun i => Torch.where_ (non_sub_mask b i)) (range bs))
    by congruence.
  clear Hnsl.
  rewrite (ei_batch_ids_complete b bs Hplen) in Hids.
  assert (Hidsv : ids_l = map (ids b) (range bs)) by congruence.
  rewrite Hidsv, Hns in Hsrcs, Htgts.
  rewrite is_not_sub_explicit in Hsrcs, Htgts by apply length_map.
  assert (Hsv : srcs = map (fun i => Torch.isin
                                       (Torch.masked (map fst (edge_index b)) (ids b i))
                                       (Torch.where_ (non_sub_mask b i))) (range bs))
    by congruence.
  assert (Htv : tgts = map (fun i => Torch.isin
                                       (Torch.masked (map snd (edge_index b)) (ids b i))
                                       (Torch.where_ (non_sub_mask b i))) (range bs))
    by congruence.
  rewrite Hsv, Htv in Hboth.
  rewrite both_sub_explicit in Hboth
    by (intro i; unfold Torch.isin; rewrite !length_map, !masked_map, !length_map;
        reflexivity).
  assert (Hbv : both
                = map (fun i =>
                         Torch.zip_with andb
                           (map negb (Torch.isin
                                        (Torch.masked (map fst (edge_index b)) (ids b i))
                                        (Torch.where_ (non_sub_mask b i))))
                           (map negb (Torch.isin
                                        (Torch.masked (map snd (edge_index b)) (ids b i))
                                        (Torch.where_ (non_sub_mask b i)))))
                      (range bs)) by congruence.
  assert (HP : forall i e, (i < bs)%nat -> In e (edge_index b) ->
                 (pt b i <=? fst e) && (fst e <? pt b (S i))
                 = (graph_of b (fst e) =? Z.of_nat i)).
  { intros i [s t] Hi He. destruct (Hedges s t He) as (Hs & _ & _).
    unfold len in Hs. cbn [fst].
    pose proof (Hcons i (Z.to_nat s) Hi ltac:(lia)) as Hc.
    rewrite Z2Nat.id in Hc by lia.
    assert (Hnth : nth_error (batch b) (Z.to_nat s) = Some (graph_of b s))
      by (unfold graph_of; apply nth_error_nth'; lia).
    rewrite Hnth in Hc.
    destruct (Z.eqb_spec (graph_of b s) (Z.of_nat i)) as [E | E].
    - assert (Hin : pt b i <= s < pt b (S i)) by (apply Hc; congruence).
      destruct (Z.leb_spec (pt b i) s), (Z.ltb_spec s (pt b (S i)));
        try reflexivity; lia.
    - destruct (Z.leb_spec (pt b i) s), (Z.ltb_spec s (pt b (S i)));
        try reflexivity.
      exfalso. apply E. assert (Some (graph_of b s) = Some (Z.of_nat i))
        by (apply Hc; lia). congruence. }
  split; [assumption |]. split; [| split; [assumption | split]].
  - rewrite Hbv, map_map. apply map_ext_in. intros i Hi.
    unfold range in Hi. apply in_seq in Hi.
    rewrite not_both_explicit, ids_as_map, masked_map_self.
    unfold kept_flag. f_equal. apply filter_ext_in. intros e He.
    apply HP; [lia | assumption].
  - intros [s t] He. destruct (Hedges s t He) as (Hs & _ & _).
    unfold graph_of. cbn [fst]. apply Hrange. apply nth_In.
    unfold len in Hs. lia.
  - intros i [s t] He Hri. destruct (Hedges s t He) as (Hs & Ht & Hst).
    cbn [fst] in Hri. unfold kept_flag, survives. cbn [fst snd].
    rewrite (kept_atom_test b i s Hal Hs Hri).
    rewrite (kept_atom_test b i t Hal Ht ltac:(congruence)).
    destruct (tag0 b s), (tag0 b t); reflexivity.
Qed.

(** X18. On a batch laid out graph after graph, whenever the block
    completes the new edge index is, column by column and in the
    order of the input, the list of the input edges that have at least
    one endpoint outside the sub-surface, with both endpoints
    relabelled; an endpoint of a new edge is the sentinel [-1] exactly
    when it was a sub-surface atom, so no new edge has two sentinel
    endpoints. *)
Theorem kept_edges_rewired (b data : Batch) (bs : nat) :
  Single.one_supernode_block b = Ok data ->
  Single.batch_size b = Ok bs ->
  graphwise b bs ->
  length (edge_index data) = length (filter (survives b) (edge_index b)) /\
  forall e s t,
    nth_error (filter (survives b) (edge_index b)) e = Some (s, t) ->
    exists s' t',
      nth_error (edge_index data) e = Some (s', t') /\
      relabelled b data s s' /\
      relabelled b data t t' /\
      (s' = -1 <-> tag0 b s = true) /\
      (t' = -1 <-> tag0 b t = true) /\
      (s' <> -1 \/ t' <> -1).
Proof.
  intros Hblock Hbs Hgw.
  pose proof Hgw as (Hal & Hnn & Hsorted & _ & _ & Hedges & Hgrouped).
  destruct (block_rewiring _ _ Hblock)
    as (bs' & non_sub & ids_l & srcs & tgts & both & all_nb & all_ns & ei_nb
        & last & mask0 & mask & assoc0 & vals & assoc & Hbs' & Hnon & Hptr
        & Hids & Hsrcs & Htgts & Hboth & Hcatnb & Hcat & Hsel & _ & Hm0 & Hput
        & Ha0 & Hvals & Hassoc & Hre).
  assert (bs' = bs) by congruence. subst bs'.
  destruct (not_both_masks b bs non_sub ids_l srcs tgts both
              Hgw Hbs Hnon Hids Hsrcs Htgts Hboth)
    as (_ & Hnb & _ & Hr & Hflag).
  destruct (partition_complete b bs Hal) as (_ & Hnsl).
  rewrite Hnon in Hnsl.
  assert (Hns : non_sub = map (fun i => Torch.where_ (non_sub_mask b i)) (range bs))
    by congruence.
  clear Hnsl.
  apply cat_concat in Hcatnb.
  assert (Hkept : ei_nb = filter (survives b) (edge_index b)).
  { unfold Torch.mask_select in Hsel.
    destruct (Nat.eqb (length (edge_index b)) (length all_nb)); [| discriminate].
    assert (Hm : ei_nb = Torch.masked (edge_index b) all_nb) by congruence.
    rewrite Hm, Hcatnb, Hnb.
    apply (masked_grouped (fun e => graph_of b (fst e)) (kept_flag b) (survives b)
             (edge_index b) bs Hgrouped Hr Hflag). }
  rewrite Hkept in Hre. clear Hkept Hsel.
  apply cat_concat in Hcat. subst all_ns. rewrite Hptr in Hvals.
  rewrite Hns in Hput, Hvals, Hptr.
  pose proof (lookup_relabels b data bs _ mask0 mask assoc0 vals assoc
                Hal Hnn Hsorted Hbs Hptr Hm0 Hput Ha0 Hvals Hassoc) as Hend.
  split; [apply (mapM_length _ _ _ Hre) |].
  intros e s t He.
  destruct (mapM_nth _ _ _ Hre e (s, t) He) as ((s', t') & Hout & Hf).
  cbn [fst snd] in Hf. bind_steps Hf.
  assert (Hs' : v = s') by congruence. assert (Ht' : v0 = t') by congruence.
  subst v v0.
  pose proof (nth_error_In _ _ He) as Hin. apply filter_In in Hin.
  destruct Hin as (Hin & Hsurv).
  destruct (Hedges s t Hin) as (Hsr & Htr & _).
  pose proof (Hend s s' Hsr E) as Rs. pose proof (Hend t t' Htr E0) as Rt.
  pose proof (relabelled_sentinel b data bs _ s s' Hal Hptr Rs) as Ss.
  pose proof (relabelled_sentinel b data bs _ t t' Hal Hptr Rt) as St.
  exists s', t'. repeat (split; [assumption |]).
  unfold survives in Hsurv. cbn [fst snd] in Hsurv.
  destruct (tag0 b s) eqn:Es.
  - destruct (tag0 b t) eqn:Et; [discriminate Hsurv |].
    right. intro Hc. apply St in Hc. discriminate.
  - left. intro Hc. apply Ss in Hc. discriminate.
Qed.

Lemma scenario_graphwise : graphwise scenario 2.
Proof.
  unfold graphwise.
  split; [reflexivity |].
  split; [intros x Hx; simpl in Hx; intuition lia |].
  split; [simpl; repeat (constructor; try lia) |].
  split; [reflexivity |].
  split.
  { intros i j Hi Hj.
    destruct i as [| [| i]]; [| | lia];
      (do 8 (destruct j as [| j];
             [unfold pt; simpl; split; intro H;
              try lia; try discriminate H; try reflexivity |]));
      simpl in Hj; lia. }
  split.
  { intros s t H. simpl in H. destruct H as [E | [E | []]]; inversion E; subst;
      unfold len, graph_of; simpl; repeat split; lia. }
  unfold graph_of. simpl. repeat (constructor; try lia).
Qed.

Lemma kept_edges_rewired_witness :
  Single.one_supernode_block scenario = Ok scenario_out /\
  length (edge_index scenario_out)
  = length (filter (survives scenario) (edge_index scenario)) /\
  forall e s t,
    nth_error (filter (survives scenario) (edge_index scenario)) e = Some (s, t) ->
    exists s' t',
      nth_error (edge_index scenario_out) e = Some (s', t') /\
      relabelled scenario scenario_out s s' /\
      relabelled scenario scenario_out t t' /\
      (s' = -1 <-> tag0 scenario s = true) /\
      (t' = -1 <-> tag0 scenario t = true) /\
      (s' <> -1 \/ t' <> -1).
Proof.
  assert (Hb : Single.one_supernode_block scenario = Ok scenario_out)
    by (vm_compute; reflexivity).
  assert (Hc : Single.batch_size scenario = Ok 2%nat) by reflexivity.
  split; [exact Hb |].
  exact (kept_edges_rewired scenario scenario_out 2 Hb Hc scenario_graphwise).
Defined.

(** ** The several-super-nodes block never leaves a sentinel *)

Lemma existsb_In (x : Z) (l : list Z) : existsb (Z.eqb x) l = true <-> In x l.
Proof.
  rewrite existsb_exists. split.
  - intros (y & Hy & E). apply Z.eqb_eq in E. subst y. assumption.
  - intro H. exists x. split; [assumption | apply Z.eqb_refl].
Qed.

Lemma substitute_endpoint (sc : list Z) (v : Z) (ei : list (Z * Z)) (x' : Z) :
  endpoint x' (Several.substitute sc v ei) ->
  exists x, endpoint x ei /\ ((In x sc /\ x' = v) \/ (~ In x sc /\ x' = x)).
Proof.
  intros (s' & t' & Hin & Hx). unfold Several.substitute in Hin.
  apply in_map_iff in Hin. destruct Hin as ((s, t) & E & Hst).
  cbn [fst snd] in E.
  assert (Hs : s' = if existsb (Z.eqb s) sc then v else s) by congruence.
  assert (Ht : t' = if existsb (Z.eqb t) sc then v else t) by congruence.
  destruct Hx as [-> | ->].
  - exists s. split; [exists s, t; split; [assumption | left; reflexivity] |].
    rewrite Hs. destruct (existsb (Z.eqb s) sc) eqn:Es.
    + left. split; [apply existsb_In; assumption | reflexivity].
    + right. split; [| reflexivity]. intro Hc. apply existsb_In in Hc. congruence.
  - exists t. split; [exists s, t; split; [assumption | right; reflexivity] |].
    rewrite Ht. destruct (existsb (Z.eqb t) sc) eqn:Et.
    + left. split; [apply existsb_In; assumption | reflexivity].
    + right. split; [| reflexivity]. intro Hc. apply existsb_In in Hc. congruence.
Qed.

(** After the substitutions of a graph an endpoint is either an
    endpoint of the input that lies in no composition, or the index
    given to the composition that held it. *)
Lemma substitute_all_endpoint (idx : list Z) (todo : list (nat * list Z)) :
  forall (ei r : list (Z * Z)),
    Several.substitute_all idx todo ei = Ok r ->
    (forall j v j2 sc2, nth_error idx j = Some v -> In (j2, sc2) todo ->
                        ~ In v sc2) ->
    forall x',
      endpoint x' r ->
      (endpoint x' ei /\ forall j sc, In (j, sc) todo -> ~ In x' sc) \/
      (exists j sc x, In (j, sc) todo /\ nth_error idx j = Some x' /\
                      endpoint x ei /\ In x sc).
Proof.
  induction todo as [| [j sc] todo IH]; intros ei r H Hfresh x' Hx'.
  - cbn [Several.substitute_all] in H. assert (r = ei) by congruence. subst r.
    left. split; [assumption |]. intros j sc [].
  - cbn [Several.substitute_all] in H. bind_steps H.
    apply item_Ok in E.
    destruct (IH _ _ H (fun j0 v0 j2 sc2 Hv Hin =>
                          Hfresh j0 v0 j2 sc2 Hv (or_intror Hin)) x' Hx')
      as [(Hend & Hnone) | (j1 & sc1 & x & Hin & Hv & Hend & Hxs)].
    + destruct (substitute_endpoint _ _ _ _ Hend) as (x & Hxe & [(Hxs & ->) | (Hxs & ->)]).
      * right. exists j, sc, x.
        split; [left; reflexivity |]. split; [assumption |]. split; assumption.
      * left. split; [assumption |].
        intros j0 sc0 [E0 | Hin0]; [congruence | apply (Hnone j0 sc0 Hin0)].
    + destruct (substitute_endpoint _ _ _ _ Hend) as (x0 & Hxe & [(Hxs0 & ->) | (Hxs0 & ->)]).
      * exfalso. apply (Hfresh j v j1 sc1 E (or_intror Hin)). assumption.
      * right. exists j1, sc1, x0.
        split; [right; assumption |]. split; [assumption |]. split; assumption.
Qed.

Lemma zero_prefix_nth (mask m3 : list bool) (lo : Z) :
  Several.zero_prefix mask lo = Ok m3 ->
  0 <= lo /\ length m3 = length mask /\
  forall j, lo <= Z.of_nat j -> nth_error m3 j = nth_error mask j.
Proof.
  unfold Several.zero_prefix. intro H. bind_steps H.
  unfold Torch.full in E. destruct (Z.ltb_spec lo 0) as [Hneg | Hpos];
    [discriminate E |].
  assert (Hv : v = repeat false (Z.to_nat lo)) by congruence. subst v. clear E.
  rewrite repeat_length in H. split; [assumption |].
  destruct (Nat.eqb_spec (Nat.min (Z.to_nat lo) (length mask)) (Z.to_nat lo))
    as [Hmin | Hmin].
  - rewrite Hmin in H. assert (Hm : m3 = repeat false (Z.to_nat lo)
                                         ++ skipn (Z.to_nat lo) mask) by congruence.
    subst m3. split.
    + rewrite length_app, repeat_length, length_skipn. lia.
    + intros j Hj. rewrite nth_error_app2 by (rewrite repeat_length; lia).
      rewrite repeat_length, nth_error_skipn. f_equal. lia.
  - destruct (repeat false (Z.to_nat lo)) as [| z0 [| z1 z]]; try discriminate H.
    assert (m3 = mask) by congruence. subst m3.
    split; [reflexivity | intros; reflexivity].
Qed.

(** The lookup table of one graph: an index inside the mask and
    outside the sub-surface gets a new index at or above the running
    count, and nothing in the table is below [-1]. *)
Lemma local_lookup (m lo mx : Z) (s : list Z)
    (mask1 mask2 mask3 : list bool) (assoc0 assoc : list Z) :
  Torch.full m true = Ok mask1 ->
  Torch.index_put mask1 s false = Ok mask2 ->
  (forall x, In x s -> 0 <= x) ->
  Several.zero_prefix mask2 lo = Ok mask3 ->
  Torch.full (len mask3) (-1) = Ok assoc0 ->
  Torch.mask_put assoc0 mask3
    (Torch.arange mx (mx + Z.of_nat (Torch.count_true mask3))) = Ok assoc ->
  0 <= mx ->
  (forall x x', lo <= x < m -> ~ In x s -> Torch.get assoc x = Ok x' -> mx <= x') /\
  (forall x', In x' assoc -> -1 <= x').
Proof.
  intros Hm1 Hput Hs Hzp Ha0 Hassoc Hmx.
  assert (Hmask1 : mask1 = repeat true (Z.to_nat m)).
  { unfold Torch.full in Hm1. destruct (m <? 0); inversion Hm1. reflexivity. }
  assert (Hassoc0 : assoc0 = repeat (-1) (length mask3)).
  { unfold Torch.full in Ha0. destruct (len mask3 <? 0); inversion Ha0.
    unfold len. rewrite Nat2Z.id. reflexivity. }
  destruct (index_put_nth _ _ _ _ Hs Hput) as (Hl2 & _ & Hout).
  destruct (zero_prefix_nth _ _ _ Hzp) as (Hlo & Hl3 & Hkeep).
  assert (Hlv : length (Torch.arange mx (mx + Z.of_nat (Torch.count_true mask3)))
                = Torch.count_true mask3)
    by (rewrite arange_length; lia).
  assert (Hlm : length assoc0 = length mask3)
    by (rewrite Hassoc0; apply repeat_length).
  rewrite (mask_put_ok _ _ _ Hlm Hlv) in Hassoc.
  assert (Hsc : assoc = Torch.scatter assoc0 mask3
                          (Torch.arange mx (mx + Z.of_nat (Torch.count_true mask3))))
    by congruence.
  destruct (scatter_where assoc0 mask3 _ 0 Hlm Hlv) as (Ht & _).
  split.
  - intros x x' Hx Hns Hg. apply get_nat in Hg; [| lia].
    assert (Hj : nth_error mask3 (Z.to_nat x) = Some true).
    { rewrite Hkeep by lia. rewrite Hout by (rewrite Z2Nat.id by lia; assumption).
      rewrite Hmask1. apply nth_error_repeat. lia. }
    apply where_In in Hj. rewrite Z2Nat.id in Hj by lia.
    apply In_nth_error in Hj. destruct Hj as (r0 & Hr0).
    pose proof (Ht r0 x Hr0) as Hv. rewrite Z.sub_0_r, <- Hsc, Hg in Hv.
    assert (Hr0lt : (r0 < Torch.count_true mask3)%nat).
    { rewrite <- (where_from_length 0 mask3). apply nth_error_Some.
      unfold Torch.where_ in Hr0. rewrite Hr0. discriminate. }
    rewrite arange_nth in Hv by lia. assert (x' = mx + Z.of_nat r0) by congruence.
    lia.
  - intros x' Hin. rewrite Hsc in Hin. apply scatter_In in Hin.
    destruct Hin as [Hin | Hin].
    + rewrite Hassoc0 in Hin. apply repeat_spec in Hin. lia.
    + apply arange_In in Hin. lia.
Qed.

Lemma reindex_loop_step (data_ptr : list Z) (sub : list (list Z))
    (nums : list nat) (clean : list (list (Z * Z))) (i : nat) (todo : list nat)
    (mx : Z) (r : list (list (Z * Z))) :
  Several.reindex_loop data_ptr sub nums clean (i :: todo) mx = Ok r ->
  exists hi n mask1 s mask2 lo mask3 assoc0 assoc top c r0 rest,
    Torch.get data_ptr (Z.of_nat i + 1) = Ok hi /\
    item nums i = Ok n /\
    Torch.full (hi + Z.of_nat n) true = Ok mask1 /\
    item sub i = Ok s /\
    Torch.index_put mask1 s false = Ok mask2 /\
    Torch.get data_ptr (Z.of_nat i) = Ok lo /\
    Several.zero_prefix mask2 lo = Ok mask3 /\
    Torch.full (len mask3) (-1) = Ok assoc0 /\
    Torch.mask_put assoc0 mask3
      (Torch.arange mx (mx + Z.of_nat (Torch.count_true mask3))) = Ok assoc /\
    Torch.max_list assoc = Ok top /\
    item clean i = Ok c /\
    Single.reindex assoc c = Ok r0 /\
    Several.reindex_loop data_ptr sub nums clean todo (top + 1) = Ok rest /\
    r = r0 :: rest.
Proof.
  intro H. cbn [Several.reindex_loop] in H. bind_steps H.
  do 13 eexists. repeat split; try eassumption. congruence.
Qed.

(** The loop over the graphs hands out no sentinel when every endpoint
    of a cleaned edge lies inside the mask of its graph and outside
    its sub-surface. *)
Lemma reindex_loop_nonneg (data_ptr : list Z) (sub : list (list Z))
    (nums : list nat) (clean : list (list (Z * Z))) :
  (forall i s x, nth_error sub i = Some s -> In x s -> 0 <= x) ->
  forall (todo : list nat) (mx : Z) (r : list (list (Z * Z))),
    0 <= mx ->
    Several.reindex_loop data_ptr sub nums clean todo mx = Ok r ->
    (forall i c lo hi n s x,
       In i todo -> nth_error clean i = Some c -> endpoint x c ->
       nth_error data_ptr i = Some lo -> nth_error data_ptr (S i) = Some hi ->
       nth_error nums i = Some n -> nth_error sub i = Some s ->
       lo <= x /\ x < hi + Z.of_nat n /\ ~ In x s) ->
    forall s' t', In (s', t') (concat r) -> 0 <= s' /\ 0 <= t'.
Proof.
  intros Hsub. induction todo as [| i todo IH]; intros mx r Hmx H Hgood s' t' Hin.
  - cbn [Several.reindex_loop] in H. assert (r = []) by congruence. subst r.
    contradiction.
  - destruct (reindex_loop_step _ _ _ _ _ _ _ _ H)
      as (hi & n & mask1 & s & mask2 & lo & mask3 & assoc0 & assoc & top & c
          & r0 & rest & Hhi & Hn & Hm1 & Hs & Hput & Hlo & Hzp & Ha0 & Hassoc
          & Htop & Hc & Hre & Hrest & ->).
    apply item_Ok in Hn, Hs, Hc.
    apply get_nat in Hhi; [| lia]. apply get_nat in Hlo; [| lia].
    replace (Z.to_nat (Z.of_nat i + 1)) with (S i) in Hhi by lia.
    rewrite Nat2Z.id in Hlo.
    destruct (local_lookup _ _ _ _ _ _ _ _ _ Hm1 Hput (fun x Hx => Hsub i s x Hs Hx)
                Hzp Ha0 Hassoc Hmx)
      as (Hnew & Hlow).
    cbn [concat] in Hin. apply in_app_or in Hin. destruct Hin as [Hin | Hin].
    + destruct (mapM_In _ _ _ Hre _ Hin) as ((s0, t0) & Hst & Hf).
      cbn [fst snd] in Hf. bind_steps Hf.
      assert (v = s') by congruence. assert (v0 = t') by congruence. subst v v0.
      assert (Hes : endpoint s0 c) by (exists s0, t0; split; [assumption | left; reflexivity]).
      assert (Het : endpoint t0 c) by (exists s0, t0; split; [assumption | right; reflexivity]).
      destruct (Hgood i c lo hi n s s0 (or_introl eq_refl) Hc Hes Hlo Hhi Hn Hs)
        as (G1 & G2 & G3).
      destruct (Hgood i c lo hi n s t0 (or_introl eq_refl) Hc Het Hlo Hhi Hn Hs)
        as (G4 & G5 & G6).
      pose proof (Hnew s0 s' ltac:(lia) G3 E).
      pose proof (Hnew t0 t' ltac:(lia) G6 E0). lia.
    + apply (IH (top + 1) rest); try assumption.
      * unfold Torch.max_list in Htop. destruct assoc as [| a assoc]; [discriminate |].
        assert (Ht : top = fold_left Z.max assoc a) by congruence.
        destruct (fold_max_ge assoc a) as (Hge & _).
        pose proof (Hlow a (or_introl eq_refl)). lia.
      * intros i0 c0 lo0 hi0 n0 s0 x Hi0. apply Hgood. right. assumption.
Qed.

Lemma sub_nodes_spec (b : Batch) (i : nat) (s : list Z) (x : Z) :
  length (tags b) = length (batch b) ->
  Single.sub_nodes_of b i = Ok s ->
  In x s ->
  0 <= x /\ is_sub b i (Z.to_nat x).
Proof.
  intros Hal H Hx. rewrite sub_nodes_of_aligned in H by assumption.
  assert (Hs : s = Torch.where_ (sub_mask b i)) by (unfold sub_mask; congruence).
  subst s. pose proof (where_bound _ _ Hx) as Hb. split; [lia |].
  replace x with (Z.of_nat (Z.to_nat x)) in Hx by lia.
  apply where_In in Hx. apply sub_mask_true. assumption.
Qed.

Lemma member_is_sub (b : Batch) (i : nat) (an : Z) (sc : list Z) (x : Z) :
  aligned b ->
  Several.members_of b i an = Ok sc ->
  In x sc ->
  0 <= x /\ is_sub b i (Z.to_nat x).
Proof.
  intros Hal H Hx. destruct (members_of_spec _ _ _ _ Hal H) as (m & -> & Hm).
  pose proof (where_bound _ _ Hx) as Hb. split; [lia |].
  replace x with (Z.of_nat (Z.to_nat x)) in Hx by lia.
  apply where_In, Hm in Hx. destruct Hx as (_ & Hsub). assumption.
Qed.

(** The index of the [j]-th super node of graph [i] is [ptr[i+1] + j]. *)
Lemma sn_idxes_nth (b : Batch) (nums : list nat) (idx : list (list Z))
    (i j : nat) (ix : list Z) (v : Z) :
  Several.supernode_indexes b nums = Ok idx ->
  nth_error idx i = Some ix ->
  nth_error ix j = Some v ->
  exists n hi,
    nth_error nums i = Some n /\
    nth_error (ptr b) (S i) = Some hi /\
    (j < n)%nat /\
    v = hi + Z.of_nat j.
Proof.
  unfold Several.supernode_indexes. intros H Hi Hj.
  destruct (mapM_nth_inv _ _ _ H i ix Hi) as (k & Hk & Hf).
  apply range_nth_inv in Hk. destruct Hk as (-> & _).
  bind_steps Hf. apply item_Ok in E.
  destruct (mapM_nth_inv _ _ _ Hf j v Hj) as (k & Hk & Hg).
  apply range_nth_inv in Hk. destruct Hk as (-> & Hjn).
  bind_steps Hg. apply get_nat in E0; [| lia].
  rewrite Nat2Z.id, tl_nth in E0.
  exists v0, v1. repeat (split; [assumption |]). congruence.
Qed.

Lemma several_steps (b : Batch) (l : Several.Locals) :
  Several.several_supernodes_block b = Ok l ->
  exists bs sub types comp idx sn_pos ids_l eib eib' reindexed,
    Single.batch_size b = Ok bs /\
    mapM (Single.sub_nodes_of b) (range bs) = Ok sub /\
    Several.supernodes b bs = Ok (types, comp, idx, sn_pos) /\
    mapM (Single.ei_batch_ids_of b) (range bs) = Ok ids_l /\
    Single.per_batch bs (edge_index b) ids_l = Ok eib /\
    mapM (fun i =>
            ei <- item eib i ;;
            c <- item comp i ;;
            ix <- item idx i ;;
            Several.substitute_all ix (enumerate c) ei)
         (range bs) = Ok eib' /\
    Several.reindex_loop (ptr b) sub (map (@length Z) types)
      (map (fun adj => Several.unique_columns (Several.remove_self_loops adj)) eib')
      (range bs) 0 = Ok reindexed /\
    Torch.cat reindexed = Ok (Several.concat_reindexed_clean_edge_index l).
Proof.
  intro H. unfold Several.several_supernodes_block in H. cbv beta zeta in H.
  bind_steps H. inversion H; subst l; clear H.
  cbn [Several.concat_reindexed_clean_edge_index].
  destruct v2 as [[[types comp] idx] sn_pos]. cbn [fst snd] in *.
  do 10 eexists. repeat split; eassumption.
Qed.

(** Every endpoint of a cleaned edge of graph [i] is a kept atom of
    the graph or one of its super-node indices: it lies in
    [[ptr[i], ptr[i+1] + num_supernodes[i])] and is no sub-surface
    atom. *)
Lemma clean_endpoint_range (b : Batch) (bs : nat) (sub : list (list Z))
    (types : list (list Z)) (comp : list (list (list Z))) (idx : list (list Z))
    (sn_pos : list vec3) (eib eib' : list (list (Z * Z))) :
  graphwise b bs ->
  length (atomic_numbers b) = length (batch b) ->
  mapM (Single.sub_nodes_of b) (range bs) = Ok sub ->
  Several.supernodes b bs = Ok (types, comp, idx, sn_pos) ->
  Single.per_batch bs (edge_index b) (map (ids b) (range bs)) = Ok eib ->
  mapM (fun i =>
          ei <- item eib i ;;
          c <- item comp i ;;
          ix <- item idx i ;;
          Several.substitute_all ix (enumerate c) ei)
       (range bs) = Ok eib' ->
  forall i c lo hi n s x,
    In i (range bs) ->
    nth_error
      (map (fun adj => Several.unique_columns (Several.remove_self_loops adj)) eib')
      i = Some c ->
    endpoint x c ->
    nth_error (ptr b) i = Some lo ->
    nth_error (ptr b) (S i) = Some hi ->
    nth_error (map (@length Z) types) i = Some n ->
    nth_error sub i = Some s ->
    lo <= x /\ x < hi + Z.of_nat n /\ ~ In x s.
Proof.
  intros (Hal & Hnn & Hsorted & Hplen & Hcons & Hedges & Hgrouped) Han
    Hsub Hsn Hper Hsubst i c lo hi n s x Hi Hc Hx Hlo Hhi Hn Hs.
  assert (Haligned : aligned b) by (split; assumption).
  assert (Hidx : Several.supernode_indexes b (map (@length Z) types) = Ok idx).
  { unfold Several.supernodes in Hsn. bind_steps Hsn.
    assert (v = types) by congruence. assert (v1 = idx) by congruence.
    subst. assumption. }
  assert (Hin_range : forall i j, (i < bs)%nat -> is_sub b i j ->
                                  pt b i <= Z.of_nat j < pt b (S i)).
  { intros i0 j Hi0 (_ & Hb). apply (Hcons i0 j Hi0); [| assumption].
    apply nth_error_Some. rewrite Hb. discriminate. }
  unfold range in Hi. apply in_seq in Hi. assert (Hib : (i < bs)%nat) by lia.
  assert (Hlov : pt b i = lo) by (unfold pt; apply nth_error_nth; assumption).
  assert (Hhiv : pt b (S i) = hi) by (unfold pt; apply nth_error_nth; assumption).
  (* the cleaned edges come from the substituted edges *)
  rewrite nth_error_map in Hc.
  destruct (nth_error eib' i) as [adj |] eqn:Hadj; [| discriminate Hc].
  cbn [option_map] in Hc.
  assert (Hcv : c = Several.unique_columns (Several.remove_self_loops adj))
    by congruence.
  assert (Hxadj : endpoint x adj).
  { destruct Hx as (s0 & t0 & Hin & Hor). exists s0, t0. split; [| assumption].
    rewrite Hcv in Hin. unfold Several.unique_columns in Hin.
    destruct (unique_columns_fold (Several.remove_self_loops adj) [])
      as (_ & Hiff); [constructor |].
    apply Hiff in Hin. destruct Hin as [Hin | []].
    unfold Several.remove_self_loops in Hin. apply filter_In in Hin. tauto. }
  destruct (mapM_nth_inv _ _ _ Hsubst i adj Hadj) as (k & Hk & Hf).
  apply range_nth_inv in Hk. destruct Hk as (-> & _).
  bind_steps Hf. apply item_Ok in E, E0, E1.
  rename v into ei_i, v0 into c_i, v1 into ix_i.
  (* the edges of graph [i] join atoms of graph [i] *)
  assert (Hei : forall x0, endpoint x0 ei_i ->
                  0 <= x0 < len (batch b) /\ graph_of b x0 = Z.of_nat i /\
                  lo <= x0 < hi).
  { intros x0 (s0 & t0 & Hin & Hor).
    unfold Single.per_batch in Hper.
    destruct (mapM_nth_inv _ _ _ Hper i ei_i E) as (k & Hk & Hg).
    apply range_nth_inv in Hk. destruct Hk as (-> & _).
    bind_steps Hg. apply item_Ok in E2.
    rewrite nth_error_map, range_nth in E2 by assumption. cbn [option_map] in E2.
    assert (Hv : v = ids b i) by congruence. subst v.
    unfold Torch.mask_select in Hg.
    destruct (Nat.eqb (length (edge_index b)) (length (ids b i))); [| discriminate Hg].
    assert (Heiv : ei_i = Torch.masked (edge_index b) (ids b i)) by congruence.
    rewrite Heiv, ids_as_map, masked_map_self in Hin.
    apply filter_In in Hin. destruct Hin as (Hin & HP). cbn [fst] in HP.
    destruct (Hedges s0 t0 Hin) as (Hs0 & Ht0 & Hst).
    apply andb_true_iff in HP. destruct HP as (HP1 & HP2).
    apply Z.leb_le in HP1. apply Z.ltb_lt in HP2.
    unfold len in Hs0, Ht0.
    assert (Hgs : graph_of b s0 = Z.of_nat i).
    { pose proof (Hcons i (Z.to_nat s0) Hib ltac:(lia)) as Hc0.
      rewrite Z2Nat.id in Hc0 by lia.
      assert (Hnth : nth_error (batch b) (Z.to_nat s0) = Some (Z.of_nat i))
        by (apply Hc0; lia).
      unfold graph_of. apply nth_error_nth. assumption. }
    assert (Hrange_t : pt b i <= t0 < pt b (S i)).
    { pose proof (Hcons i (Z.to_nat t0) Hib ltac:(lia)) as Hc0.
      rewrite Z2Nat.id in Hc0 by lia. apply Hc0.
      rewrite <- Hgs, Hst. unfold graph_of. apply nth_error_nth'. lia. }
    unfold len. destruct Hor as [-> | ->].
    - split; [lia |]. split; [assumption | lia].
    - split; [lia |]. split; [congruence | lia]. }
  (* the compositions of graph [i] and its super-node indices *)
  destruct (composition_covers b bs i types comp idx sn_pos Haligned Hsn Hib)
    as (ts & c_i' & Hts & Hci' & Hlen & _ & _ & Hpart).
  assert (c_i' = c_i) by congruence. subst c_i'.
  rewrite nth_error_map, Hts in Hn. cbn [option_map] in Hn.
  assert (Hnv : n = length ts) by congruence.
  assert (Hmember : forall j sc x0, In (j, sc) (enumerate c_i) -> In x0 sc ->
                                    0 <= x0 < hi /\ is_sub b i (Z.to_nat x0)).
  { intros j sc x0 Hjs Hx0. apply In_nth_error in Hjs. destruct Hjs as (k & Hk).
    apply enumerate_nth in Hk. destruct Hk as (-> & Hk).
    unfold Several.supernodes in Hsn. bind_steps Hsn.
    assert (v = types) by congruence. assert (v0 = comp) by congruence. subst v v0.
    destruct (mapM_range _ _ _ E2) as (Hlt & _).
    destruct (composition_lengths _ _ _ _ E3 Hlt) as (_ & Hcomp).
    pose proof (Hcomp i c_i ts Hci' Hts) as Hmem.
    destruct (mapM_nth_inv _ _ _ Hmem k sc Hk) as (an & _ & Hmo).
    destruct (member_is_sub b i an sc x0 Haligned Hmo Hx0) as (Hx0n & Hsubx).
    split; [| assumption].
    pose proof (Hin_range i (Z.to_nat x0) Hib Hsubx). lia. }
  assert (Hfresh : forall j v j2 sc2, nth_error ix_i j = Some v ->
                                      In (j2, sc2) (enumerate c_i) -> ~ In v sc2).
  { intros j v j2 sc2 Hv Hjs Hvs.
    destruct (sn_idxes_nth _ _ _ _ _ _ _ Hidx E1 Hv) as (n0 & hi0 & _ & Hhi0 & _ & ->).
    assert (hi0 = hi) by congruence. subst hi0.
    destruct (Hmember j2 sc2 _ Hjs Hvs). lia. }
  assert (Hsubs : forall x0, In x0 s -> 0 <= x0 < hi /\ is_sub b i (Z.to_nat x0)).
  { intros x0 Hx0.
    destruct (mapM_nth_inv _ _ _ Hsub i s Hs) as (k & Hk & Hsf).
    apply range_nth_inv in Hk. destruct Hk as (-> & _).
    destruct (sub_nodes_spec b i s x0 Hal Hsf Hx0) as (Hx0n & Hsubx).
    split; [| assumption].
    pose proof (Hin_range i (Z.to_nat x0) Hib Hsubx). lia. }
  destruct (substitute_all_endpoint ix_i (enumerate c_i) ei_i adj Hf Hfresh x Hxadj)
    as [(Hend & Hnone) | (j & sc & x0 & Hjs & Hv & Hend & Hx0)].
  + destruct (Hei x Hend) as (Hxr & Hg & Hlohi).
    split; [lia |]. split; [lia |].
    intro Hxs. destruct (Hsubs x Hxs) as (_ & Hsubx).
    destruct (Hpart _ Hsubx) as (k & an & members & _ & Hmk & _ & Hinm).
    rewrite Z2Nat.id in Hinm by lia.
    apply (Hnone k members); [| assumption].
    eapply nth_error_In. apply enumerate_nth_intro. eassumption.
  + destruct (sn_idxes_nth _ _ _ _ _ _ _ Hidx E1 Hv) as (n0 & hi0 & Hn0 & Hhi0 & Hjn & ->).
    assert (hi0 = hi) by congruence. subst hi0.
    rewrite nth_error_map, Hts in Hn0. cbn [option_map] in Hn0.
    assert (n0 = n) by congruence. subst n0.
    destruct (Hei x0 Hend) as (_ & _ & Hlohi).
    split; [lia |]. split; [lia |].
    intro Hxs. destruct (Hsubs _ Hxs). lia.
Qed.

(** X19. On a batch laid out graph after graph, with one atomic number
    per atom, whenever the several-super-nodes block completes no
    endpoint of its re-indexed edge index is the sentinel [-1]: every
    endpoint is a node index that is not negative. *)
Theorem several_no_sentinel (b : Batch) (l : Several.Locals) (bs : nat) :
  Several.several_supernodes_block b = Ok l ->
  Single.batch_size b = Ok bs ->
  graphwise b bs ->
  length (atomic_numbers b) = length (batch b) ->
  forall s' t',
    In (s', t') (Several.concat_reindexed_clean_edge_index l) ->
    0 <= s' /\ 0 <= t'.
Proof.
  intros Hblock Hbs Hgw Han.
  pose proof Hgw as (Hal & _ & _ & Hplen & _).
  destruct (several_steps _ _ Hblock)
    as (bs' & sub & types & comp & idx & sn_pos & ids_l & eib & eib' & reindexed
        & Hbs' & Hsub & Hsn & Hids & Hper & Hsubst & Hloop & Hcat).
  assert (bs' = bs) by congruence. subst bs'.
  apply cat_concat in Hcat. rewrite Hcat.
  rewrite (ei_batch_ids_complete b bs Hplen) in Hids.
  assert (Hidsv : ids_l = map (ids b) (range bs)) by congruence. subst ids_l.
  assert (Hsubpos : forall i s x, nth_error sub i = Some s -> In x s -> 0 <= x).
  { intros i s x Hs Hx.
    destruct (mapM_nth_inv _ _ _ Hsub i s Hs) as (k & Hk & Hf).
    apply range_nth_inv in Hk. destruct Hk as (-> & _).
    apply (sub_nodes_spec b i s x Hal Hf Hx). }
  apply (reindex_loop_nonneg _ _ _ _ Hsubpos (range bs) 0 reindexed
           ltac:(lia) Hloop).
  apply (clean_endpoint_range b bs sub types comp idx sn_pos eib eib'
           Hgw Han Hsub Hsn Hper Hsubst).
Qed.

Lemma several_no_sentinel_witness :
  Several.several_supernodes_block scenario = Ok scenario_locals /\
  forall s' t',
    In (s', t') (Several.concat_reindexed_clean_edge_index scenario_locals) ->
    0 <= s' /\ 0 <= t'.
Proof.
  assert (Hb : Several.several_supernodes_block scenario = Ok scenario_locals)
    by (vm_compute; reflexivity).
  assert (Hc : Single.batch_size scenario = Ok 2%nat) by reflexivity.
  split; [exact Hb |].
  exact (several_no_sentinel scenario scenario_locals 2 Hb Hc scenario_graphwise
           eq_refl).
Defined.

(** ** The several-super-nodes block runs to its end *)

Lemma substitute_all_ok (idx : list Z) (todo : list (nat * list Z)) :
  (forall j sc, In (j, sc) todo -> (j < length idx)%nat) ->
  forall ei, exists r, Several.substitute_all idx todo ei = Ok r.
Proof.
  induction todo as [| [j sc] todo IH]; intros H ei; cbn [Several.substitute_all].
  - eauto.
  - destruct (nth_error_lt idx j (H j sc (or_introl eq_refl))) as (v & Hv).
    rewrite (item_nth _ _ _ Hv). cbn [bind].
    apply IH. intros j0 sc0 Hin. apply (H j0 sc0). right. assumption.
Qed.

Lemma sn_idxes_length (b : Batch) (nums : list nat) (idx : list (list Z))
    (i n : nat) (ix : list Z) :
  Several.supernode_indexes b nums = Ok idx ->
  nth_error idx i = Some ix ->
  nth_error nums i = Some n ->
  length ix = n.
Proof.
  unfold Several.supernode_indexes. intros H Hi Hn.
  destruct (mapM_nth_inv _ _ _ H i ix Hi) as (k & Hk & Hf).
  apply range_nth_inv in Hk. destruct Hk as (-> & _).
  bind_steps Hf. apply item_Ok in E. assert (v = n) by congruence. subst v.
  rewrite (mapM_length _ _ _ Hf). unfold range. apply length_seq.
Qed.

Lemma count_unset_nth (t : list bool) (k : nat) :
  nth_error t k = Some true ->
  S (Torch.count_true (Torch.set_nth t k false)) = Torch.count_true t.
Proof.
  revert k. induction t as [| a t IH]; intros [| k] H; simpl in *;
    try discriminate.
  - inversion H; subst a. reflexivity.
  - destruct a; rewrite <- (IH k) by assumption; reflexivity.
Qed.

(** Clearing distinct positions of a mask, all of them true before,
    lowers the number of true entries by the number of positions. *)
Lemma index_put_false_count (idx : list Z) :
  forall t : list bool,
    NoDup idx ->
    (forall x, In x idx -> 0 <= x /\ nth_error t (Z.to_nat x) = Some true) ->
    exists t',
      Torch.index_put t idx false = Ok t' /\
      length t' = length t /\
      (Torch.count_true t' + length idx)%nat = Torch.count_true t.
Proof.
  induction idx as [| k idx IH]; intros t Hnd H; simpl.
  - exists t. repeat split. lia.
  - inversion Hnd as [| k' idx' Hnotin Hnd']; subst.
    destruct (H k (or_introl eq_refl)) as (Hk & Hf).
    assert (Hlt : (Z.to_nat k < length t)%nat)
      by (apply nth_error_Some; rewrite Hf; discriminate).
    unfold Torch.put.
    destruct (Z.ltb_spec k 0); [lia |].
    destruct (Z.leb_spec 0 k); [| lia].
    destruct (Z.ltb_spec k (Z.of_nat (length t))); [| lia].
    simpl.
    destruct (IH (Torch.set_nth t (Z.to_nat k) false) Hnd') as (t' & Ht' & Hl & Hc).
    { intros x Hx. destruct (H x (or_intror Hx)) as (Hx0 & Hxf).
      split; [assumption |]. rewrite set_nth_other; [assumption |].
      intro E. apply Hnotin. replace k with x by lia. assumption. }
    exists t'. split; [assumption |]. split.
    + rewrite Hl. apply set_nth_length.
    + pose proof (count_unset_nth t (Z.to_nat k) Hf). lia.
Qed.

Lemma count_true_repeat_true (n : nat) : Torch.count_true (repeat true n) = n.
Proof.
  induction n as [| n IH]; simpl; auto.
Qed.

Lemma count_true_prefix (l : list bool) (k : nat) :
  (forall j, (j < k)%nat -> nth_error l j = Some true) ->
  Torch.count_true (firstn k l) = k.
Proof.
  revert l. induction k as [| k IH]; intros l H; [reflexivity |].
  destruct l as [| a l].
  - specialize (H 0%nat ltac:(lia)). discriminate H.
  - pose proof (H 0%nat ltac:(lia)) as H0. simpl in H0.
    assert (a = true) by congruence. subst a.
    cbn [firstn Torch.count_true]. f_equal. apply IH.
    intros j Hj. apply (H (S j)). lia.
Qed.

Lemma zero_prefix_ok (mask : list bool) (lo : Z) :
  0 <= lo <= len mask ->
  Several.zero_prefix mask lo
  = Ok (repeat false (Z.to_nat lo) ++ skipn (Z.to_nat lo) mask).
Proof.
  intro H. unfold len in H. unfold Several.zero_prefix.
  rewrite full_ok by lia. cbn [bind]. rewrite repeat_length.
  rewrite Nat.min_l by lia. rewrite Nat.eqb_refl. reflexivity.
Qed.

Lemma fold_max_le (l : list Z) (a B : Z) :
  a <= B -> (forall x, In x l -> x <= B) -> fold_left Z.max l a <= B.
Proof.
  revert a. induction l as [| y l IH]; intros a Ha H; simpl; [assumption |].
  apply IH.
  - pose proof (H y (or_introl eq_refl)). lia.
  - intros x Hx. apply H. right. assumption.
Qed.

Lemma count_insert_length (x : Z) (tbl : list (Z * Z)) :
  (length (Torch.count_insert x tbl) <= S (length tbl))%nat.
Proof.
  induction tbl as [| [y c] tbl IH]; simpl; [lia |].
  destruct (x <? y); [simpl; lia |].
  destruct (x =? y); simpl; lia.
Qed.

Lemma unique_length (l : list Z) : (length (Torch.unique l) <= length l)%nat.
Proof.
  unfold Torch.unique, Torch.unique_counts. cbn [fst]. rewrite length_map.
  assert (H : forall acc,
             (length (fold_left (fun a x => Torch.count_insert x a) l acc)
              <= length l + length acc)%nat).
  { induction l as [| x l IH]; intro acc; simpl; [lia |].
    pose proof (IH (Torch.count_insert x acc)).
    pose proof (count_insert_length x acc). lia. }
  specialize (H []). simpl in H. lia.
Qed.

(** The size of the lookup table of one graph and the number of its
    true mask entries. *)
Lemma local_mask (m lo : Z) (s : list Z) :
  0 <= lo <= m ->
  NoDup s ->
  (forall x, In x s -> lo <= x < m) ->
  exists mask1 mask2 mask3,
    Torch.full m true = Ok mask1 /\
    Torch.index_put mask1 s false = Ok mask2 /\
    Several.zero_prefix mask2 lo = Ok mask3 /\
    len mask3 = m /\
    Z.of_nat (Torch.count_true mask3) = m - lo - len s.
Proof.
  intros Hlo Hnd Hs.
  destruct (index_put_false_count s (repeat true (Z.to_nat m)) Hnd)
    as (mask2 & Hput & Hl2 & Hc2).
  { intros x Hx. pose proof (Hs x Hx). split; [lia |].
    apply nth_error_repeat. lia. }
  rewrite repeat_length in Hl2. rewrite count_true_repeat_true in Hc2.
  assert (Hpos : forall x, In x s -> 0 <= x) by (intros x Hx; pose proof (Hs x Hx); lia).
  destruct (index_put_nth _ _ _ _ Hpos Hput) as (_ & _ & Hout).
  exists (repeat true (Z.to_nat m)), mask2,
         (repeat false (Z.to_nat lo) ++ skipn (Z.to_nat lo) mask2).
  split; [apply full_ok; lia |]. split; [exact Hput |].
  split; [apply zero_prefix_ok; unfold len; lia |].
  assert (Hfirst : Torch.count_true (firstn (Z.to_nat lo) mask2) = Z.to_nat lo).
  { apply count_true_prefix. intros j Hj. rewrite Hout.
    - apply nth_error_repeat. lia.
    - intro Hin. pose proof (Hs _ Hin). lia. }
  pose proof (firstn_skipn (Z.to_nat lo) mask2) as Hsplit.
  assert (Hsum : (Torch.count_true (firstn (Z.to_nat lo) mask2)
                  + Torch.count_true (skipn (Z.to_nat lo) mask2))%nat
                 = Torch.count_true mask2)
    by (rewrite <- count_true_app, Hsplit; reflexivity).
  split.
  - unfold len. rewrite length_app, repeat_length, length_skipn. lia.
  - rewrite count_true_app, count_true_repeat_false. unfold len. lia.
Qed.

(** The loop over the graphs runs to its end and hands out indices
    below the number of atoms when the ranges of the graphs follow one
    another, no graph is empty, no graph has more super nodes than
    sub-surface atoms, and the cleaned edges stay inside the mask of
    their graph. *)
Lemma reindex_loop_complete (data_ptr : list Z) (sub : list (list Z))
    (nums : list nat) (clean : list (list (Z * Z))) (N : Z) :
  forall (k i0 : nat) (mx : Z),
    0 <= mx ->
    (forall i, (i0 <= i < i0 + k)%nat ->
       exists lo hi n s c,
         nth_error data_ptr i = Some lo /\
         nth_error data_ptr (S i) = Some hi /\
         nth_error nums i = Some n /\
         nth_error sub i = Some s /\
         nth_error clean i = Some c /\
         0 <= lo /\ lo < hi /\ hi <= N /\
         NoDup s /\
         (forall x, In x s -> lo <= x < hi) /\
         (n <= length s)%nat /\
         (forall x, endpoint x c -> lo <= x /\ x < hi + Z.of_nat n /\ ~ In x s)) ->
    (forall lo, nth_error data_ptr i0 = Some lo -> mx <= lo) ->
    exists r,
      Several.reindex_loop data_ptr sub nums clean (seq i0 k) mx = Ok r /\
      length r = k /\
      forall s' t', In (s', t') (concat r) -> 0 <= s' < N /\ 0 <= t' < N.
Proof.
  induction k as [| k IH]; intros i0 mx Hmx Hall Hstart.
  - exists []. split; [reflexivity |]. split; [reflexivity |].
    intros s' t' [].
  - destruct (Hall i0 ltac:(lia))
      as (lo & hi & n & s & c & Hlo & Hhi & Hn & Hs & Hc & Hlo0 & Hlohi & HhiN
          & Hnd & Hsr & Hns & Hgood).
    pose proof (Hstart lo Hlo) as Hmxlo.
    destruct (local_mask (hi + Z.of_nat n) lo s ltac:(lia) Hnd)
      as (mask1 & mask2 & mask3 & Hm1 & Hput & Hzp & Hl3 & Hcount).
    { intros x Hx. pose proof (Hsr x Hx). lia. }
    assert (Ha0 : Torch.full (len mask3) (-1) = Ok (repeat (-1) (length mask3))).
    { rewrite full_ok by (unfold len; lia). unfold len. rewrite Nat2Z.id. reflexivity. }
    assert (Hassoc : Torch.mask_put (repeat (-1) (length mask3)) mask3
                       (Torch.arange mx (mx + Z.of_nat (Torch.count_true mask3)))
                     = Ok (Torch.scatter (repeat (-1) (length mask3)) mask3
                             (Torch.arange mx (mx + Z.of_nat (Torch.count_true mask3))))).
    { apply mask_put_ok; [apply repeat_length |]. rewrite arange_length. lia. }
    set (assoc := Torch.scatter (repeat (-1) (length mask3)) mask3
                    (Torch.arange mx (mx + Z.of_nat (Torch.count_true mask3)))) in *.
    assert (Hla : len assoc = hi + Z.of_nat n).
    { unfold assoc, len. rewrite scatter_length, repeat_length. exact Hl3. }
    assert (Hpos : forall x, In x s -> 0 <= x)
      by (intros x Hx; pose proof (Hsr x Hx); lia).
    destruct (local_lookup _ _ _ _ _ _ _ _ _ Hm1 Hput Hpos Hzp Ha0 Hassoc Hmx)
      as (Hnew & Hlow).
    assert (Hup : forall x', In x' assoc -> x' <= hi - 1).
    { intros x' Hin. unfold assoc in Hin. apply scatter_In in Hin.
      destruct Hin as [Hin | Hin].
      - apply repeat_spec in Hin. lia.
      - apply arange_In in Hin. unfold len in Hcount. lia. }
    destruct assoc as [| a rest_assoc] eqn:Eassoc.
    { unfold len in Hla. simpl in Hla. lia. }
    assert (Htop : Torch.max_list (a :: rest_assoc) = Ok (fold_left Z.max rest_assoc a))
      by reflexivity.
    set (top := fold_left Z.max rest_assoc a) in *.
    assert (Htop_hi : top <= hi - 1).
    { apply fold_max_le; [apply Hup; left; reflexivity |].
      intros x Hx. apply Hup. right. assumption. }
    assert (Htop_lo : -1 <= top).
    { destruct (fold_max_ge rest_assoc a) as (Hge & _).
      pose proof (Hlow a (or_introl eq_refl)). unfold top. lia. }
    destruct (reindex_complete (a :: rest_assoc) c) as (r0 & Hr0).
    { intros s0 t0 Hin.
      destruct (Hgood s0) as (G1 & G2 & _);
        [exists s0, t0; split; [assumption | left; reflexivity] |].
      destruct (Hgood t0) as (G3 & G4 & _);
        [exists s0, t0; split; [assumption | right; reflexivity] |].
      rewrite Hla. lia. }
    destruct (IH (S i0) (top + 1) ltac:(lia)) as (rest & Hrest & Hlen & Hbound).
    { intros i Hi. apply Hall. lia. }
    { intros lo' Hlo'. assert (lo' = hi) by congruence. lia. }
    exists (r0 :: rest). split; [| split].
    + cbn [seq Several.reindex_loop].
      replace (Z.of_nat i0 + 1) with (Z.of_nat (S i0)) by lia.
      rewrite (get_nth _ _ _ Hhi). cbn [bind].
      rewrite (item_nth _ _ _ Hn). cbn [bind].
      rewrite Hm1. cbn [bind].
      rewrite (item_nth _ _ _ Hs). cbn [bind].
      rewrite Hput. cbn [bind].
      rewrite (get_nth _ _ _ Hlo). cbn [bind].
      rewrite Hzp. cbn [bind].
      rewrite Ha0. cbn [bind].
      rewrite Hassoc. cbn [bind].
      rewrite Htop. cbn [bind].
      rewrite (item_nth _ _ _ Hc). cbn [bind].
      rewrite Hr0. cbn [bind].
      fold top. rewrite Hrest. reflexivity.
    + cbn [length]. rewrite Hlen. reflexivity.
    + intros s' t' Hin. cbn [concat] in Hin. apply in_app_or in Hin.
      destruct Hin as [Hin | Hin]; [| apply Hbound; assumption].
      destruct (mapM_In _ _ _ Hr0 _ Hin) as ((s0, t0) & Hst & Hf).
      cbn [fst snd] in Hf. bind_steps Hf.
      assert (v = s') by congruence. assert (v0 = t') by congruence. subst v v0.
      destruct (Hgood s0) as (G1 & G2 & G3);
        [exists s0, t0; split; [assumption | left; reflexivity] |].
      destruct (Hgood t0) as (G4 & G5 & G6);
        [exists s0, t0; split; [assumption | right; reflexivity] |].
      pose proof (Hnew s0 s' ltac:(lia) G3 E) as L1.
      pose proof (Hnew t0 t' ltac:(lia) G6 E0) as L2.
      pose proof (Hup s' (get_In _ _ _ E)) as U1.
      pose proof (Hup t' (get_In _ _ _ E0)) as U2.
      lia.
Qed.

Lemma graph_has_sub_atom (b : Batch) (i : nat) :
  length (tags b) = length (batch b) ->
  (0 < sub_count b i)%nat ->
  exists j, is_sub b i j.
Proof.
  intros Hal Hc.
  pose proof (sub_nodes_of_aligned b i Hal) as Hs.
  pose proof (sub_nodes_count b i _ Hal Hs) as Hl.
  destruct (Torch.where_ (Torch.zip_with andb (Torch.eq_scalar (tags b) 0)
                            (Torch.eq_scalar (batch b) (Z.of_nat i))))
    as [| x s] eqn:E.
  - simpl in Hl. lia.
  - exists (Z.to_nat x).
    apply (sub_nodes_spec b i (x :: s) x Hal Hs). left. reflexivity.
Qed.

Lemma atom_types_le_sub (b : Batch) (i : nat) (ts : list Z) :
  aligned b ->
  Several.atom_types_of b i = Ok ts ->
  (length ts <= length (Torch.where_ (sub_mask b i)))%nat.
Proof.
  intros (Hal & Han) H. unfold Several.atom_types_of in H.
  rewrite mask_mul_same in H
    by (unfold Torch.eq_scalar; rewrite !length_map; assumption).
  cbn [bind] in H. bind_steps H.
  assert (Hts : ts = Torch.unique v) by congruence. subst ts.
  apply mask_select_length in E.
  unfold Torch.where_. rewrite where_from_length. unfold sub_mask.
  rewrite <- E. apply unique_length.
Qed.

(** X20. The several-super-nodes block raises nothing on a well-formed
    batch that is laid out graph after graph: it runs to its end and
    leaves its local variables. *)
Theorem several_block_completes (b : Batch) (bs : nat) :
  well_formed b bs ->
  graphwise b bs ->
  exists l, Several.several_supernodes_block b = Ok l.
Proof.
  intros (Hbs & Hnn & Haligned & Hpos & _ & _ & _ & Hplen & Hp0 & Hpn & _ & _
          & Hedges & Hsubc) Hgw.
  pose proof Hgw as (Hal & _ & _ & _ & Hcons & _ & _).
  pose proof Haligned as (_ & Han).
  destruct (batch_size_bounds b bs Hbs Hnn) as (Hbs0 & Hrange).
  (* the atoms of a graph lie in its pointer range, and no graph is empty *)
  assert (Hin_range : forall i j, (i < bs)%nat -> is_sub b i j ->
                        (j < length (batch b))%nat /\
                        pt b i <= Z.of_nat j < pt b (S i)).
  { intros i j Hi (_ & Hb).
    assert (Hj : (j < length (batch b))%nat)
      by (apply nth_error_Some; rewrite Hb; discriminate).
    split; [assumption |]. apply (Hcons i j Hi Hj). assumption. }
  assert (Hatom : forall i, (i < bs)%nat ->
                    exists j, (j < length (batch b))%nat /\
                              pt b i <= Z.of_nat j < pt b (S i)).
  { intros i Hi. destruct (graph_has_sub_atom b i Hal (Hsubc i Hi)) as (j & Hj).
    exists j. apply (Hin_range i j Hi Hj). }
  assert (Hpt0 : pt b 0 = 0) by (unfold pt; apply nth_error_nth; assumption).
  assert (Hptn : pt b bs = len (batch b)) by (unfold pt; apply nth_error_nth; assumption).
  assert (Hbounds : forall i, (i < bs)%nat ->
                      0 <= pt b i /\ pt b i < pt b (S i) /\ pt b (S i) <= len (batch b)).
  { intros i Hi. destruct (Hatom i Hi) as (j & Hj & Hr). unfold len.
    split; [| split; [lia |]].
    - destruct i as [| i']; [lia |].
      destruct (Hatom i' ltac:(lia)) as (j' & _ & Hr'). lia.
    - destruct (Nat.eq_dec (S i) bs) as [E | E].
      + rewrite E, Hptn. unfold len. lia.
      + destruct (Hatom (S i) ltac:(lia)) as (j' & Hj' & Hr'). lia. }
  unfold Several.several_supernodes_block. rewrite Hbs. cbn [bind].
  destruct (partition_complete b bs Hal) as (Hsub & Hnon).
  rewrite Hsub, Hnon. cbn [bind].
  destruct (supernodes_complete b bs Haligned Hpos ltac:(lia))
    as ([[[types comp] idx] sn_pos] & Hsn).
  rewrite Hsn. cbn [bind fst snd].
  rewrite (ei_batch_ids_complete b bs Hplen). cbn [bind].
  destruct (per_batch_complete b bs (edge_index b) eq_refl) as (eib & Hper & Hleib & _).
  rewrite Hper. cbn [bind].
  (* what the partition stage leaves for every graph *)
  assert (Hidx : Several.supernode_indexes b (map (@length Z) types) = Ok idx).
  { unfold Several.supernodes in Hsn. bind_steps Hsn.
    assert (v = types) by congruence. assert (v1 = idx) by congruence.
    subst. assumption. }
  assert (Htypes : mapM (Several.atom_types_of b) (range bs) = Ok types).
  { unfold Several.supernodes in Hsn. bind_steps Hsn.
    assert (v = types) by congruence. subst. assumption. }
  destruct (mapM_range _ _ _ Htypes) as (Hlt & Htnth).
  assert (Hlidx : length idx = bs).
  { unfold Several.supernode_indexes in Hidx.
    rewrite (mapM_length _ _ _ Hidx). unfold range.
    rewrite length_seq, length_map. assumption. }
  assert (Hgraph : forall i, (i < bs)%nat ->
            exists ts c ix,
              nth_error types i = Some ts /\ nth_error comp i = Some c /\
              nth_error idx i = Some ix /\
              Several.atom_types_of b i = Ok ts /\
              length c = length ts /\ length ix = length ts).
  { intros i Hi.
    destruct (composition_covers b bs i types comp idx sn_pos Haligned Hsn Hi)
      as (ts & c & Hts & Hc & Hlc & _).
    destruct (nth_error_lt idx i ltac:(lia)) as (ix & Hix).
    destruct (Htnth i Hi) as (ts' & Hts' & Hat).
    assert (ts' = ts) by congruence. subst ts'.
    exists ts, c, ix. repeat (split; [assumption |]).
    apply (sn_idxes_length b _ idx i (length ts) ix Hidx Hix).
    rewrite nth_error_map, Hts. reflexivity. }
  destruct (mapM_range_intro
              (fun i =>
                 ei <- item eib i ;;
                 c <- item comp i ;;
                 ix <- item idx i ;;
                 Several.substitute_all ix (enumerate c) ei)
              bs (fun _ _ => True)) as (eib' & Hsubst & Hleib' & _).
  { intros i Hi.
    destruct (nth_error_lt eib i ltac:(lia)) as (ei & Hei).
    destruct (Hgraph i Hi) as (ts & c & ix & _ & Hc & Hix & _ & Hlc & Hlix).
    rewrite (item_nth _ _ _ Hei). cbn [bind].
    rewrite (item_nth _ _ _ Hc). cbn [bind].
    rewrite (item_nth _ _ _ Hix). cbn [bind].
    destruct (substitute_all_ok ix (enumerate c)) with (ei := ei) as (r & Hr).
    - intros j sc Hin. apply In_nth_error in Hin. destruct Hin as (k & Hk).
      apply enumerate_nth in Hk. destruct Hk as (-> & Hk).
      assert (k < length c)%nat by (apply nth_error_Some; rewrite Hk; discriminate).
      lia.
    - exists r. split; [assumption | exact I]. }
  rewrite Hsubst. cbn [bind].
  destruct (reindex_loop_complete (ptr b)
              (map (fun i => Torch.where_ (sub_mask b i)) (range bs))
              (map (@length Z) types)
              (map (fun adj => Several.unique_columns (Several.remove_self_loops adj))
                   eib')
              (len (batch b)) bs 0 0 ltac:(lia))
    as (reindexed & Hloop & Hlr & Hnew).
  { intros i Hi. assert (Hib : (i < bs)%nat) by lia.
    destruct (Hgraph i Hib) as (ts & c & ix & Hts & Hc & Hix & Hat & Hlc & Hlix).
    destruct (nth_error_lt eib' i ltac:(lia)) as (adj & Hadj).
    destruct (Hbounds i Hib) as (B1 & B2 & B3).
    assert (Hlo : nth_error (ptr b) i = Some (pt b i))
      by (unfold pt; apply nth_error_nth'; lia).
    assert (Hhi : nth_error (ptr b) (S i) = Some (pt b (S i)))
      by (unfold pt; apply nth_error_nth'; lia).
    assert (Hn : nth_error (map (@length Z) types) i = Some (length ts))
      by (rewrite nth_error_map, Hts; reflexivity).
    assert (Hs : nth_error (map (fun i => Torch.where_ (sub_mask b i)) (range bs)) i
                 = Some (Torch.where_ (sub_mask b i)))
      by (rewrite nth_error_map, range_nth by assumption; reflexivity).
    assert (Hcl : nth_error
                    (map (fun adj => Several.unique_columns
                                       (Several.remove_self_loops adj)) eib') i
                  = Some (Several.unique_columns (Several.remove_self_loops adj)))
      by (rewrite nth_error_map, Hadj; reflexivity).
    exists (pt b i), (pt b (S i)), (length ts), (Torch.where_ (sub_mask b i)),
           (Several.unique_columns (Several.remove_self_loops adj)).
    repeat (split; [assumption |]).
    split; [apply where_from_NoDup |].
    split.
    { intros x Hx.
      destruct (sub_nodes_spec b i _ x Hal (sub_nodes_of_aligned b i Hal) Hx)
        as (Hx0 & Hsubx).
      destruct (Hin_range i _ Hib Hsubx) as (_ & Hr). lia. }
    split; [apply atom_types_le_sub; assumption |].
    intros x Hx.
    apply (clean_endpoint_range b bs _ types comp idx sn_pos eib eib'
             Hgw Han Hsub Hsn Hper Hsubst i
             (Several.unique_columns (Several.remove_self_loops adj))
             (pt b i) (pt b (S i)) (length ts) (Torch.where_ (sub_mask b i)) x);
      try assumption.
    unfold range. apply in_seq. lia. }
  { intros lo Hlo. rewrite Hp0 in Hlo. assert (lo = 0) by congruence. lia. }
  change (seq 0 bs) with (range bs) in Hloop. rewrite Hloop. cbn [bind].
  rewrite cat_ok by lia. cbn [bind].
  destruct (edge_lengths_complete (pos b) (concat reindexed)) as (d & Hd).
  { intros s t Hin. destruct (Hnew s t Hin) as (Hs & Ht).
    unfold len in *. rewrite Hpos. lia. }
  rewrite Hd. cbn [bind]. eauto.
Qed.

Lemma several_block_completes_witness :
  exists l, Several.several_supernodes_block scenario = Ok l.
Proof.
  exact (several_block_completes scenario 2 scenario_well_formed scenario_graphwise).
Defined.

(** ** The offsets the single-super-node block keeps *)

Lemma masked_pairs {A B : Type} (f g : A -> bool) (l : list A) :
  forall l' : list B,
    length l' = length l ->
    Torch.masked (Torch.masked l' (map f l)) (map g (filter f l))
    = map snd (filter (fun p => f (fst p) && g (fst p)) (combine l l')).
Proof.
  induction l as [| x l IH]; intros [| y l'] H; simpl in H; try discriminate;
    [reflexivity |].
  cbn [map filter combine Torch.masked fst].
  destruct (f x) eqn:Ef; cbn [map Torch.masked andb].
  - destruct (g x); cbn [map snd]; rewrite IH by lia; reflexivity.
  - apply IH. lia.
Qed.

Lemma per_batch_explicit {A : Type} (b : Batch) (bs : nat) (src : list A) :
  length src = length (edge_index b) ->
  Single.per_batch bs src (map (ids b) (range bs))
  = Ok (map (fun i => Torch.masked src (ids b i)) (range bs)).
Proof.
  intro Hsrc. unfold Single.per_batch. apply mapM_map_ok.
  intros i Hi. unfold range in Hi. apply in_seq in Hi.
  rewrite (item_nth _ i (ids b i))
    by (rewrite nth_error_map, range_nth by lia; reflexivity).
  cbn [bind]. apply mask_select_ok. rewrite ids_length. assumption.
Qed.

Lemma block_offset_rows (b data : Batch) :
  Single.one_supernode_block b = Ok data ->
  exists bs non_sub ids_l co_batch srcs tgts both,
    Single.batch_size b = Ok bs /\
    mapM (Single.non_sub_nodes_of b) (range bs) = Ok non_sub /\
    mapM (Single.ei_batch_ids_of b) (range bs) = Ok ids_l /\
    Single.per_batch bs (cell_offsets b) ids_l = Ok co_batch /\
    Single.is_not_sub (map fst (edge_index b)) ids_l non_sub = Ok srcs /\
    Single.is_not_sub (map snd (edge_index b)) ids_l non_sub = Ok tgts /\
    Single.both_sub srcs tgts = Ok both /\
    Single.kept_offsets bs co_batch (map (map negb) both) = Ok (cell_offsets data).
Proof.
  intro H. unfold Single.one_supernode_block in H. cbv beta zeta in H.
  bind_steps H. inversion H; subst data; clear H. fields.
  do 7 eexists. repeat split; eassumption.
Qed.

(** X21. On a batch laid out graph after graph with one offset row per
    edge, whenever the block completes the new [cell_offsets] is made
    of one block per graph, in graph order: the offset rows of the
    edges of the graph that have an endpoint outside the sub-surface,
    in input order, followed by one zero row. *)
Theorem offsets_by_graph (b data : Batch) (bs : nat) :
  Single.one_supernode_block b = Ok data ->
  Single.batch_size b = Ok bs ->
  graphwise b bs ->
  length (cell_offsets b) = length (edge_index b) ->
  cell_offsets data
  = concat
      (map (fun i =>
              map snd
                (filter (fun eo => (graph_of b (fst (fst eo)) =? Z.of_nat i)
                                   && survives b (fst eo))
                        (combine (edge_index b) (cell_offsets b)))
              ++ [(0, 0, 0)])
           (range bs)).
Proof.
  intros Hblock Hbs Hgw Hco.
  destruct (block_offset_rows _ _ Hblock)
    as (bs' & non_sub & ids_l & co_batch & srcs & tgts & both & Hbs' & Hnon
        & Hids & Hper & Hsrcs & Htgts & Hboth & Hkept).
  assert (bs' = bs) by congruence. subst bs'.
  destruct (not_both_masks b bs non_sub ids_l srcs tgts both
              Hgw Hbs Hnon Hids Hsrcs Htgts Hboth)
    as (Hidsv & Hnb & HP & Hr & Hflag).
  rewrite Hidsv, (per_batch_explicit b bs (cell_offsets b) Hco) in Hper.
  assert (Hcov : co_batch
                 = map (fun i => Torch.masked (cell_offsets b) (ids b i)) (range bs))
    by congruence.
  unfold Single.kept_offsets in Hkept. bind_steps Hkept.
  apply cat_concat in Hkept. rewrite Hkept. f_equal.
  assert (Hblocks :
            mapM (fun i =>
                    co <- item co_batch i ;;
                    n <- item (map (map negb) both) i ;;
                    rows <- Torch.mask_select co n ;;
                    Ok (rows ++ [(0, 0, 0)]))
                 (range bs)
            = Ok (map (fun i =>
                         map snd
                           (filter (fun eo =>
                                      (graph_of b (fst (fst eo)) =? Z.of_nat i)
                                      && survives b (fst eo))
                                   (combine (edge_index b) (cell_offsets b)))
                         ++ [(0, 0, 0)])
                      (range bs))).
  { apply mapM_map_ok. intros i Hi. unfold range in Hi. apply in_seq in Hi.
    assert (Hib : (i < bs)%nat) by lia.
    assert (Hfilter : filter (fun e => graph_of b (fst e) =? Z.of_nat i) (edge_index b)
                      = filter (fun e => (pt b i <=? fst e) && (fst e <? pt b (S i)))
                               (edge_index b)).
    { apply filter_ext_in. intros e He. symmetry. apply HP; assumption. }
    rewrite (item_nth _ i (Torch.masked (cell_offsets b) (ids b i)))
      by (rewrite Hcov, nth_error_map, range_nth by assumption; reflexivity).
    cbn [bind].
    rewrite (item_nth _ i
               (map (kept_flag b i)
                    (filter (fun e => (pt b i <=? fst e) && (fst e <? pt b (S i)))
                            (edge_index b))))
      by (rewrite Hnb, nth_error_map, range_nth by assumption;
          cbn [option_map]; rewrite Hfilter; reflexivity).
    cbn [bind].
    rewrite mask_select_ok.
    2:{ rewrite masked_length by (rewrite ids_length; assumption).
        rewrite length_map, ids_as_map, count_true_map. reflexivity. }
    cbn [bind]. f_equal. f_equal.
    rewrite ids_as_map.
    rewrite (masked_pairs (fun e => (pt b i <=? fst e) && (fst e <? pt b (S i)))
               (kept_flag b i) (edge_index b) (cell_offsets b) Hco).
    f_equal. apply filter_ext_in. intros [e o] Heo. cbn [fst].
    apply in_combine_l in Heo. rewrite (HP i e Hib Heo).
    destruct (Z.eqb_spec (graph_of b (fst e)) (Z.of_nat i)) as [E0 | E0];
      [| reflexivity].
    cbn [andb]. apply Hflag; assumption. }
  congruence.
Qed.

Lemma offsets_by_graph_witness :
  Single.one_supernode_block scenario = Ok scenario_out /\
  cell_offsets scenario_out
  = concat
      (map (fun i =>
              map snd
                (filter (fun eo => (graph_of scenario (fst (fst eo)) =? Z.of_nat i)
                                   && survives scenario (fst eo))
                        (combine (edge_index scenario) (cell_offsets scenario)))
              ++ [(0, 0, 0)])
           (range 2)).
Proof.
  assert (Hb : Single.one_supernode_block scenario = Ok scenario_out)
    by (vm_compute; reflexivity).
  assert (Hc : Single.batch_size scenario = Ok 2%nat) by reflexivity.
  split; [exact Hb |].
  exact (offsets_by_graph scenario scenario_out 2 Hb Hc scenario_graphwise eq_refl).
Defined.

(** ** The distances of the several-super-nodes block *)

Lemma several_distance_steps (b : Batch) (l : Several.Locals) :
  Several.several_supernodes_block b = Ok l ->
  Single.edge_lengths (pos b) (Several.concat_reindexed_clean_edge_index l)
  = Ok (Several.distance l).
Proof.
  intro H. unfold Several.several_supernodes_block in H. cbv beta zeta in H.
  bind_steps H. inversion H; subst l; clear H.
  cbn [Several.concat_reindexed_clean_edge_index Several.distance]. assumption.
Qed.

(** X22. Whenever the several-super-nodes block completes, it holds one
    distance per re-indexed edge, and the distance of the [e]-th edge
    is measured between the rows that its two new indices address in
    the positions of the input batch: the block never builds new
    positions, and the super-node positions it collected take no part
    in the distances. *)
Theorem several_distances_on_input (b : Batch) (l : Several.Locals)
    (e : nat) (s' t' : Z) :
  Several.several_supernodes_block b = Ok l ->
  nth_error (Several.concat_reindexed_clean_edge_index l) e = Some (s', t') ->
  length (Several.distance l)
  = length (Several.concat_reindexed_clean_edge_index l) /\
  exists u v,
    Torch.get (pos b) s' = Ok u /\
    Torch.get (pos b) t' = Ok v /\
    nth_error (Several.distance l) e = Some (euclid u v).
Proof.
  intros H He. pose proof (several_distance_steps b l H) as Hd.
  split; [apply (edge_lengths_length _ _ _ Hd) |].
  apply (edge_lengths_nth _ _ _ e s' t' Hd He).
Qed.

Lemma several_distances_on_input_witness :
  Several.several_supernodes_block scenario = Ok scenario_locals /\
  length (Several.distance scenario_locals)
  = length (Several.concat_reindexed_clean_edge_index scenario_locals) /\
  exists u v,
    Torch.get (pos scenario) 6 = Ok u /\
    Torch.get (pos scenario) 4 = Ok v /\
    nth_error (Several.distance scenario_locals) 1 = Some (euclid u v).
Proof.
  assert (Hb : Several.several_supernodes_block scenario = Ok scenario_locals)
    by (vm_compute; reflexivity).
  split; [exact Hb |].
  apply (several_distances_on_input scenario scenario_locals 1 6 4 Hb).
  reflexivity.
Defined.
